(** * Rashmi SET: subtitle tool -- time utilities, transcript interpreter,
      audio normaliser

    A shallow embedding of the pure parts of the TypeScript sources
    ([utils/timeUtils], [services/geminiService], [utils/audioUtils]) and the
    properties established about them.

    Conventions of the embedding.
    - A JavaScript string is the list of its UTF-16 code units ([list N]);
      [js "..."] turns a literal into such a list.
    - A JavaScript number is a rational extended with [NaN] and the two
      infinities.  The products whose integer part decides what is written
      ([seconds * 1000] in the formatters, [duration * 16000] in the audio
      extraction) are rounded to binary64 ([Binary64.mul]); the sums of the
      timestamp parser and the scaling of samples are exact, and the sign of
      zero is not represented.
    - Host functions ([trim], [indexOf], [split], [parseInt], [parseFloat],
      [JSON.parse], [Date], [DataView]) are written out from their ECMAScript
      definitions, restricted to the way the sources call them.  The time
      zone of the host is a parameter ([Date.Host]).
    - [crypto.randomUUID] draws from an explicit supply of identifiers. *)

From Stdlib Require Import List NArith ZArith QArith Qround Qabs Bool Lia Lqa.
From Stdlib Require Qpower.
From Stdlib Require Strings.String Strings.Ascii.
Import ListNotations.
Set Warnings "-register-all,-notation-for-abbreviation".
Import Ascii.AsciiSyntax String.StringSyntax.
Delimit Scope char_scope with char.
Delimit Scope string_scope with string.

(* ================================================================== *)
(** * Part I -- the embedding                                          *)
(* ================================================================== *)

(** ** JavaScript strings *)
Module JS.

Notation code := N (only parsing).
Notation jsstring := (list N) (only parsing).

Definition ch (a : Ascii.ascii) : code := Ascii.N_of_ascii a.
Arguments ch a%_char.

Definition js (s : String.string) : jsstring :=
  map Ascii.N_of_ascii (String.list_ascii_of_string s).
Arguments js s%_string.

Definition code_eqb (a b : code) : bool := N.eqb a b.

(** WhiteSpace and LineTerminator code units: what [trim], the regular
    expression class [\s] and the numeric parsers skip. *)
Definition isSpace (c : code) : bool :=
  ((9 <=? c) && (c <=? 13) || (c =? 32) || (c =? 160) || (c =? 5760)
   || (8192 <=? c) && (c <=? 8202) || (c =? 8232) || (c =? 8233)
   || (c =? 8239) || (c =? 8287) || (c =? 12288) || (c =? 65279))%N.

Definition isDigit (c : code) : bool := ((48 <=? c) && (c <=? 57))%N.

Fixpoint startsWith (p s : jsstring) : bool :=
  match p, s with
  | [], _ => true
  | a :: p', b :: s' => code_eqb a b && startsWith p' s'
  | _ :: _, [] => false
  end.

(** [s.includes(p)] *)
Fixpoint includes (p s : jsstring) : bool :=
  startsWith p s || match s with [] => false | _ :: r => includes p r end.

(** [s.indexOf(c)] for a one-character argument; -1 when absent. *)
Fixpoint indexOf (c : code) (s : jsstring) : Z :=
  match s with
  | [] => -1
  | a :: r =>
      if code_eqb a c then 0
      else let i := indexOf c r in if (i <? 0)%Z then -1 else (i + 1)%Z
  end.

(** [s.lastIndexOf(c)] for a one-character argument; -1 when absent. *)
Fixpoint lastIndexOf (c : code) (s : jsstring) : Z :=
  match s with
  | [] => -1
  | a :: r =>
      let i := lastIndexOf c r in
      if (0 <=? i)%Z then (i + 1)%Z else if code_eqb a c then 0 else -1
  end.

(** [s.substring(a, b)]: both bounds are clamped to [0, length] and swapped
    when out of order. *)
Definition substring (s : jsstring) (a b : Z) : jsstring :=
  let len := Z.of_nat (length s) in
  let a' := Z.min (Z.max a 0) len in
  let b' := Z.min (Z.max b 0) len in
  let from := Z.min a' b' in
  let to := Z.max a' b' in
  firstn (Z.to_nat (to - from)) (skipn (Z.to_nat from) s).

Fixpoint trimStart (s : jsstring) : jsstring :=
  match s with
  | c :: r => if isSpace c then trimStart r else s
  | [] => []
  end.

Fixpoint trimEnd (s : jsstring) : jsstring :=
  match s with
  | [] => []
  | c :: r =>
      match trimEnd r with
      | [] => if isSpace c then [] else [c]
      | r' => c :: r'
      end
  end.

Definition trim (s : jsstring) : jsstring := trimEnd (trimStart s).

(** [s.replace(c, d)] with a one-character string pattern: only the first
    occurrence is replaced. *)
Fixpoint replaceFirst (c d : code) (s : jsstring) : jsstring :=
  match s with
  | [] => []
  | a :: r => if code_eqb a c then d :: r else a :: replaceFirst c d r
  end.

(** [s.split(sep)] for a non-empty string separator: the pieces between the
    occurrences of [sep], found left to right without overlap.  [skip] counts
    the code units of a separator still to be passed over. *)
Fixpoint split_go (sep : jsstring) (skip : nat) (s : jsstring)
  : list jsstring :=
  match s with
  | [] => [[]]
  | c :: r =>
      match skip with
      | S k => split_go sep k r
      | O =>
          if startsWith sep s then [] :: split_go sep (length sep - 1) r
          else match split_go sep O r with
               | p :: ps => (c :: p) :: ps
               | [] => [[c]]
               end
      end
  end.

Definition split (sep s : jsstring) : list jsstring := split_go sep O s.

(** [pieces.join(sep)] *)
Fixpoint join (sep : jsstring) (pieces : list jsstring) : jsstring :=
  match pieces with
  | [] => []
  | [p] => p
  | p :: ps => p ++ sep ++ join sep ps
  end.

(** *** A backtracking matcher for the constructs of the fence pattern.

    Each combinator takes the rest of the pattern as a continuation [k] and
    tries its alternatives in the priority order of a backtracking regular
    expression engine. *)
Section Regex.
Context {A : Type}.

(** a literal *)
Definition lit (p : jsstring) (k : jsstring -> option A) (s : jsstring)
  : option A :=
  if startsWith p s then k (skipn (length p) s) else None.

(** [(?:p)?], greedy: with [p] first, then without *)
Definition opt (p : jsstring) (k : jsstring -> option A) (s : jsstring)
  : option A :=
  match lit p k s with
  | Some x => Some x
  | None => k s
  end.

(** [\s*], greedy: the longest run first, then shorter ones *)
Fixpoint spaces (k : jsstring -> option A) (s : jsstring) : option A :=
  match s with
  | c :: r =>
      if isSpace c
      then match spaces k r with
           | Some x => Some x
           | None => k s
           end
      else k s
  | [] => k []
  end.

(** [([\s\S]*?)], lazy: the shortest capture first; [acc] is the capture so
    far, reversed *)
Fixpoint lazyAny (k : jsstring -> jsstring -> option A)
    (acc : jsstring) (s : jsstring) : option A :=
  match k (rev acc) s with
  | Some x => Some x
  | None =>
      match s with
      | c :: r => lazyAny k (c :: acc) r
      | [] => None
      end
  end.

(** the leftmost start at which the pattern [m] matches *)
Fixpoint search (m : jsstring -> option A) (s : jsstring) : option A :=
  match m s with
  | Some x => Some x
  | None => match s with _ :: r => search m r | [] => None end
  end.
End Regex.

End JS.
Import JS.

(** ** JavaScript numbers *)
Module Num.

Inductive number :=
| NaN
| PInf
| NInf
| Fin (q : Q).

Definition of_Z (z : Z) : number := Fin (inject_Z z).

(** Equality of numbers as values ([Fin] up to equality of fractions). *)
Definition eqn (a b : number) : Prop :=
  match a, b with
  | NaN, NaN => True
  | PInf, PInf => True
  | NInf, NInf => True
  | Fin x, Fin y => x == y
  | _, _ => False
  end.

Definition isNaN (a : number) : bool :=
  match a with NaN => true | _ => false end.

Definition add (a b : number) : number :=
  match a, b with
  | NaN, _ | _, NaN => NaN
  | PInf, NInf | NInf, PInf => NaN
  | PInf, _ | _, PInf => PInf
  | NInf, _ | _, NInf => NInf
  | Fin x, Fin y => Fin (x + y)
  end.

Definition mul (a b : number) : number :=
  match a, b with
  | NaN, _ | _, NaN => NaN
  | Fin x, Fin y => Fin (x * y)
  | Fin x, PInf | PInf, Fin x =>
      match x ?= 0 with Eq => NaN | Gt => PInf | Lt => NInf end
  | Fin x, NInf | NInf, Fin x =>
      match x ?= 0 with Eq => NaN | Gt => NInf | Lt => PInf end
  | PInf, PInf | NInf, NInf => PInf
  | PInf, NInf | NInf, PInf => NInf
  end.

(** [a < b] *)
Definition lt (a b : number) : bool :=
  match a, b with
  | NaN, _ | _, NaN => false
  | _, NInf => false
  | NInf, _ => true
  | PInf, _ => false
  | _, PInf => true
  | Fin x, Fin y => match x ?= y with Lt => true | _ => false end
  end.

(** [Math.min(a, b)] and [Math.max(a, b)] *)
Definition min (a b : number) : number :=
  match a, b with
  | NaN, _ | _, NaN => NaN
  | _, _ => if lt b a then b else a
  end.

Definition max (a b : number) : number :=
  match a, b with
  | NaN, _ | _, NaN => NaN
  | _, _ => if lt a b then b else a
  end.

(** Truncation of a fraction toward zero. *)
Definition Qtrunc (q : Q) : Z := Z.quot (Qnum q) (Zpos (Qden q)).

(** The value of a run of decimal digits, most significant first. *)
Fixpoint digitsValue (acc : Z) (ds : jsstring) : Z :=
  match ds with
  | [] => acc
  | d :: r => digitsValue (10 * acc + (Z.of_N d - 48)) r
  end.

Fixpoint takeDigits (s : jsstring) : jsstring :=
  match s with
  | c :: r => if isDigit c then c :: takeDigits r else []
  | [] => []
  end.

Fixpoint dropDigits (s : jsstring) : jsstring :=
  match s with
  | c :: r => if isDigit c then dropDigits r else s
  | [] => []
  end.

(** An optional sign: whether it is a minus, and the text after it. *)
Definition readSign (s : jsstring) : bool * jsstring :=
  match s with
  | c :: r =>
      if code_eqb c (ch "-") then (true, r)
      else if code_eqb c (ch "+") then (false, r)
      else (false, s)
  | [] => (false, [])
  end.

Definition signed (neg : bool) (q : Q) : Q := if neg then - q else q.

(** [parseInt(s, 10)]: leading white space, an optional sign, then the
    longest run of decimal digits; [NaN] when that run is empty. *)
Definition parseInt10 (s : jsstring) : number :=
  let (neg, body) := readSign (trimStart s) in
  match takeDigits body with
  | [] => NaN
  | ds => Fin (signed neg (inject_Z (digitsValue 0 ds)))
  end.

(** The exponent part [e], [E] with an optional sign and at least one
    digit; 0 when there is none. *)
Definition readExponent (s : jsstring) : Z :=
  match s with
  | c :: r =>
      if code_eqb c (ch "e") || code_eqb c (ch "E") then
        let (neg, body) := readSign r in
        match takeDigits body with
        | [] => 0
        | ds => if neg then - digitsValue 0 ds else digitsValue 0 ds
        end
      else 0
  | [] => 0
  end%Z.

(** [parseFloat(s)]: leading white space, then the longest prefix that is a
    decimal literal (sign, [Infinity] or digits with an optional fraction and
    exponent); [NaN] when there is none. *)
Definition parseFloat (s : jsstring) : number :=
  let (neg, body) := readSign (trimStart s) in
  if startsWith (js "Infinity") body then (if neg then NInf else PInf)
  else
    let ip := takeDigits body in
    let r1 := dropDigits body in
    let '(fp, r2) :=
      match r1 with
      | c :: r =>
          if code_eqb c (ch ".") then (takeDigits r, dropDigits r)
          else ([], r1)
      | [] => ([], [])
      end in
    match ip, fp with
    | [], [] => NaN
    | _, _ =>
        Fin (signed neg
               ((inject_Z (digitsValue 0 ip)
                 + inject_Z (digitsValue 0 fp)
                   / inject_Z (10 ^ Z.of_nat (length fp)))
                * Qpower 10 (readExponent r2)))
    end.

(** Decimal digits of a natural number, most significant first.  [fuel]
    bounds the number of digits. *)
Fixpoint digitsOf (fuel : nat) (n : N) (acc : jsstring) : jsstring :=
  match fuel with
  | O => acc
  | S f =>
      let acc' := (48 + n mod 10)%N :: acc in
      if (n <? 10)%N then acc' else digitsOf f (n / 10)%N acc'
  end.

(** [String(z)] for an integer. *)
Definition intToString (z : Z) : jsstring :=
  let n := Z.to_N (Z.abs z) in
  let ds := digitsOf (S (N.to_nat (N.log2 n))) n [] in
  if (z <? 0)%Z then ch "-" :: ds else ds.

(** [x.toString()] for the result of a [Date] getter: an integer, or [NaN]
    ([None]) on an invalid date. *)
Definition getterToString (x : option Z) : jsstring :=
  match x with
  | Some z => intToString z
  | None => js "NaN"
  end.

(** [s.padStart(n, '0')] *)
Definition padStart0 (n : nat) (s : jsstring) : jsstring :=
  repeat (ch "0") (n - length s) ++ s.

End Num.
Import Num.

(** ** Rounding to binary64 *)
Module Binary64.

(** The integer [L] with [2^L <= q < 2^(L+1)], for [q > 0]. *)
Definition floorLog2 (q : Q) : Z :=
  let c := (Z.log2 (Qnum q) - Z.log2 (Zpos (Qden q)))%Z in
  if Qle_bool (2 ^ c) q then c else (c - 1)%Z.

(** Rounding to the nearest integer, ties to even. *)
Definition roundEven (t : Q) : Z :=
  let f := Qfloor t in
  match Qcompare (t - inject_Z f) (1 # 2) with
  | Lt => f
  | Gt => (f + 1)%Z
  | Eq => if Z.even f then f else (f + 1)%Z
  end.

(** The exponent of the unit in the last place of [q > 0]: 52 places below
    the leading bit, and never below that of the subnormal numbers. *)
Definition exponent (q : Q) : Z := Z.max (-1074) (floorLog2 q - 52).

(** The binary64 number nearest to [q > 0]: a multiple of the unit in the
    last place, or the infinity from 2^1024 on. *)
Definition roundPos (q : Q) : number :=
  let e := exponent q in
  let r := inject_Z (roundEven (q / 2 ^ e)) * 2 ^ e in
  if Qle_bool (2 ^ 1024) r then PInf else Fin r.

Definition neg (x : number) : number :=
  match x with
  | NaN => NaN
  | PInf => NInf
  | NInf => PInf
  | Fin q => Fin (- q)
  end.

(** The binary64 number nearest to [q], ties to even. *)
Definition round (q : Q) : number :=
  match Qcompare q 0 with
  | Eq => Fin 0
  | Gt => roundPos q
  | Lt => neg (roundPos (- q))
  end.

(** [a * b] on binary64 numbers: the exact product, rounded. *)
Definition mul (a b : number) : number :=
  match Num.mul a b with
  | Fin q => round q
  | v => v
  end.

End Binary64.

(** ** The [Date] object, as far as the formatters use it *)
Module Date.

(** The time value in milliseconds since the epoch; [None] for an invalid
    date. *)
Definition t := option Z.

Definition maxTime : Z := 8640000000000000.

(** The time zone of the host: [LocalTZA host t true] is the offset of
    local time from UTC, in milliseconds, at the UTC time [t], and
    [LocalTZA host t false] the offset at the local time [t]. *)
Record Host := { LocalTZA : Z -> bool -> Z }.

Definition Day (t : Z) : Z := (t / 86400000)%Z.
Definition HourFromTime (t : Z) : Z := ((t / 3600000) mod 24)%Z.
Definition MinFromTime (t : Z) : Z := ((t / 60000) mod 60)%Z.
Definition SecFromTime (t : Z) : Z := ((t / 1000) mod 60)%Z.

Definition LocalTime (host : Host) (t : Z) : Z :=
  (t + LocalTZA host t true)%Z.
Definition UTC (host : Host) (t : Z) : Z :=
  (t - LocalTZA host t false)%Z.

(** [MakeTime(hour, min, sec, ms)]: [ms] is cut to an integer; a [ms] that
    is not finite gives no time.  Sums beyond 2^53, which the host would
    round, lie beyond [maxTime] either way. *)
Definition MakeTime (hour min sec : Z) (ms : number) : option Z :=
  match ms with
  | Fin q => Some (hour * 3600000 + min * 60000 + sec * 1000 + Qtrunc q)%Z
  | _ => None
  end.

Definition MakeDate (day : Z) (time : option Z) : option Z :=
  option_map (fun tm => day * 86400000 + tm)%Z time.

Definition TimeClip (time : option Z) : t :=
  match time with
  | Some v => if (Z.abs v <=? maxTime)%Z then Some v else None
  | None => None
  end.

(** [new Date(0)] *)
Definition epoch : t := Some 0%Z.

(** [date.setMilliseconds(ms)]: the milliseconds of the local time of the
    date are replaced, and the result is converted back to UTC. *)
Definition setMilliseconds (host : Host) (date : t) (ms : number) : t :=
  match date with
  | None => None
  | Some tv =>
      let t := LocalTime host tv in
      let time :=
        MakeTime (HourFromTime t) (MinFromTime t) (SecFromTime t) ms in
      TimeClip (option_map (UTC host) (MakeDate (Day t) time))
  end.

Definition getUTCHours (d : t) : option Z :=
  option_map (fun tv => (tv / 3600000) mod 24)%Z d.
Definition getUTCMinutes (d : t) : option Z :=
  option_map (fun tv => (tv / 60000) mod 60)%Z d.
Definition getUTCSeconds (d : t) : option Z :=
  option_map (fun tv => (tv / 1000) mod 60)%Z d.
Definition getUTCMilliseconds (d : t) : option Z :=
  option_map (fun tv => tv mod 1000)%Z d.

End Date.

(** ** utils/timeUtils *)
Module TimeUtils.

Record SubtitleSegment := {
  id : nat;
  startTime : number;
  endTime : number;
  text : jsstring
}.

(** [crypto.randomUUID()]: the next identifier of the supply. *)
Definition randomUUID (supply : nat) : nat * nat := (supply, S supply).

Definition formatTime (host : Date.Host) (seconds : number) : jsstring :=
  let date :=
    Date.setMilliseconds host Date.epoch
      (Binary64.mul seconds (of_Z 1000)) in
  let mm := padStart0 2 (getterToString (Date.getUTCMinutes date)) in
  let ss := padStart0 2 (getterToString (Date.getUTCSeconds date)) in
  let mmm := padStart0 3 (getterToString (Date.getUTCMilliseconds date)) in
  mm ++ js ":" ++ ss ++ js "." ++ mmm.

Definition formatSrtTime (host : Date.Host) (seconds : number)
  : jsstring :=
  let date :=
    Date.setMilliseconds host Date.epoch
      (Binary64.mul seconds (of_Z 1000)) in
  let hh := padStart0 2 (getterToString (Date.getUTCHours date)) in
  let mm := padStart0 2 (getterToString (Date.getUTCMinutes date)) in
  let ss := padStart0 2 (getterToString (Date.getUTCSeconds date)) in
  let mmm := padStart0 3 (getterToString (Date.getUTCMilliseconds date)) in
  hh ++ js ":" ++ mm ++ js ":" ++ ss ++ js "," ++ mmm.

Definition parseTimeString (timeString : jsstring) : number :=
  match timeString with
  | [] => of_Z 0
  | _ =>
      let normalized := replaceFirst (ch ",") (ch ".") timeString in
      let parts := split (js ":") normalized in
      let seconds := of_Z 0 in
      match parts with
      | [p0; p1; p2] =>
          let seconds := add seconds (mul (parseInt10 p0) (of_Z 3600)) in
          let seconds := add seconds (mul (parseInt10 p1) (of_Z 60)) in
          add seconds (parseFloat p2)
      | [p0; p1] =>
          let seconds := add seconds (mul (parseInt10 p0) (of_Z 60)) in
          add seconds (parseFloat p1)
      | _ => seconds
      end
  end.

Definition LF : jsstring := [10%N].

(** [segments.map((seg, index) => ...)], [index] counting from [i]. *)
Fixpoint srtBlocks (host : Date.Host) (i : nat)
    (segments : list SubtitleSegment) : list jsstring :=
  match segments with
  | [] => []
  | seg :: rest =>
      (intToString (Z.of_nat i + 1) ++ LF
       ++ formatSrtTime host (startTime seg) ++ js " --> "
       ++ formatSrtTime host (endTime seg) ++ LF
       ++ trim (text seg) ++ LF)
      :: srtBlocks host (S i) rest
  end.

Definition generateSrt (host : Date.Host)
    (segments : list SubtitleSegment) : jsstring :=
  join LF (srtBlocks host 0 segments).

(** [s.replace(/\r\n/g, '\n')] *)
Fixpoint replaceCRLF (s : jsstring) : jsstring :=
  match s with
  | [] => []
  | c :: r =>
      if code_eqb c 13%N then
        match r with
        | d :: r' => if code_eqb d 10%N then 10%N :: replaceCRLF r'
                     else c :: replaceCRLF r
        | [] => [c]
        end
      else c :: replaceCRLF r
  end.

(** [s.replace(/\r/g, '\n')] *)
Definition replaceCR (s : jsstring) : jsstring :=
  map (fun c => if code_eqb c 13%N then 10%N else c) s.

(** Truthiness of a possibly undefined string. *)
Definition truthy (s : option jsstring) : bool :=
  match s with
  | Some (_ :: _) => true
  | _ => false
  end.

(** The body of the [forEach] callback: the segment list and the identifier
    supply before and after one block. *)
Definition parseBlock (st : list SubtitleSegment * nat) (block : jsstring)
  : list SubtitleSegment * nat :=
  let (segments, supply) := st in
  let lines := split LF (trim block) in
  if (3 <=? length lines)%nat then
    let timecode := nth 1 lines [] in
    let parts := split (js " --> ") timecode in
    let startStr := nth_error parts 0 in
    let endStr := nth_error parts 1 in
    let text := join (js " ") (skipn 2 lines) in
    if truthy startStr && truthy endStr then
      let (uuid, supply') := randomUUID supply in
      (segments ++
         [ {| id := uuid;
              startTime := parseTimeString (nth 0 parts []);
              endTime := parseTimeString (nth 1 parts []);
              text := text |} ],
       supply')
    else st
  else st.

Definition parseSrt (srtContent : jsstring) (supply : nat)
  : list SubtitleSegment * nat :=
  let normalized := replaceCR (replaceCRLF srtContent) in
  let blocks := split (LF ++ LF) normalized in
  fold_left parseBlock blocks ([], supply).

End TimeUtils.
Import TimeUtils.

(** ** Exceptions *)
Module Exn.

Inductive exn :=
| Error (message : jsstring)
| SyntaxError
| TypeError
| NotSupportedError
| RangeError.

Inductive result (A : Type) :=
| Ok (a : A)
| Throw (e : exn).
Arguments Ok {A} a.
Arguments Throw {A} e.

Definition bind {A B : Type} (r : result A) (k : A -> result B) : result B :=
  match r with
  | Ok a => k a
  | Throw e => Throw e
  end.

(** [try { body } catch (e) { handler(e) }] *)
Definition tryCatch {A : Type} (body : result A) (handler : exn -> result A)
  : result A :=
  match body with
  | Ok a => Ok a
  | Throw e => handler e
  end.

End Exn.
Import Exn.

Notation "x <- c ;; k" := (bind c (fun x => k))
  (at level 61, c at next level, right associativity).

(** ** [JSON.parse] *)
Module JSON.

Inductive json :=
| JNull
| JBool (b : bool)
| JNum (q : Q)
| JStr (s : jsstring)
| JArr (items : list json)
| JObj (fields : list (jsstring * json)).

(** JSON white space: tab, line feed, carriage return, space. *)
Definition isWs (c : code) : bool :=
  ((c =? 9) || (c =? 10) || (c =? 13) || (c =? 32))%N.

Fixpoint skipWs (s : jsstring) : jsstring :=
  match s with
  | c :: r => if isWs c then skipWs r else s
  | [] => []
  end.

(** The next code unit after white space must be [c]. *)
Definition expect (c : code) (s : jsstring) : option jsstring :=
  match skipWs s with
  | a :: r => if code_eqb a c then Some r else None
  | [] => None
  end.

Definition hexValue (c : code) : option N :=
  if isDigit c then Some (c - 48)%N
  else if ((97 <=? c) && (c <=? 102))%N then Some (c - 87)%N
  else if ((65 <=? c) && (c <=? 70))%N then Some (c - 55)%N
  else None.

Definition hex4 (a b c d : code) : option code :=
  match hexValue a, hexValue b, hexValue c, hexValue d with
  | Some x, Some y, Some z, Some w =>
      Some (((x * 16 + y) * 16 + z) * 16 + w)%N
  | _, _, _, _ => None
  end.

Definition unescape (c : code) : option code :=
  if code_eqb c 34%N then Some c
  else if code_eqb c 92%N then Some c
  else if code_eqb c (ch "/") then Some c
  else if code_eqb c (ch "b") then Some 8%N
  else if code_eqb c (ch "f") then Some 12%N
  else if code_eqb c (ch "n") then Some 10%N
  else if code_eqb c (ch "r") then Some 13%N
  else if code_eqb c (ch "t") then Some 9%N
  else None.

(** The characters of a string literal after its opening quote, up to and
    including the closing quote; [acc] is the decoded text so far,
    reversed. *)
Fixpoint parseStringBody (acc : jsstring) (s : jsstring)
  : option (jsstring * jsstring) :=
  match s with
  | [] => None
  | c :: r =>
      if code_eqb c 34%N then Some (rev acc, r)
      else if code_eqb c 92%N then
        match r with
        | e :: r1 =>
            if code_eqb e (ch "u") then
              match r1 with
              | h1 :: h2 :: h3 :: h4 :: r2 =>
                  match hex4 h1 h2 h3 h4 with
                  | Some u => parseStringBody (u :: acc) r2
                  | None => None
                  end
              | _ => None
              end
            else
              match unescape e with
              | Some u => parseStringBody (u :: acc) r1
              | None => None
              end
        | [] => None
        end
      else if (c <? 32)%N then None
      else parseStringBody (c :: acc) r
  end.

(** A number literal: [-? int frac? exp?], where [int] is [0] or starts with
    a non-zero digit. *)
Definition parseNumber (s : jsstring) : option (Q * jsstring) :=
  let (neg, body) :=
    match s with
    | c :: r => if code_eqb c (ch "-") then (true, r) else (false, s)
    | [] => (false, [])
    end in
  let '(ip, r1) :=
    match body with
    | c :: r =>
        if code_eqb c (ch "0") then ([c], r)
        else (takeDigits body, dropDigits body)
    | [] => ([], [])
    end in
  match ip with
  | [] => None
  | _ =>
      let frac :=
        match r1 with
        | c :: r =>
            if code_eqb c (ch ".") then
              match takeDigits r with
              | [] => None
              | fp => Some (Some fp, dropDigits r)
              end
            else Some (None, r1)
        | [] => Some (None, [])
        end in
      match frac with
      | None => None
      | Some (fp, r2) =>
          let fpv :=
            match fp with
            | Some ds =>
                inject_Z (digitsValue 0 ds)
                / inject_Z (10 ^ Z.of_nat (length ds))
            | None => 0
            end in
          let '(ex, r3) :=
            match r2 with
            | c :: r =>
                if code_eqb c (ch "e") || code_eqb c (ch "E") then
                  let (eneg, ebody) := readSign r in
                  match takeDigits ebody with
                  | [] => (None, r2)
                  | ds =>
                      (Some (if eneg then (- digitsValue 0 ds)%Z
                             else digitsValue 0 ds),
                       dropDigits ebody)
                  end
                else (Some 0%Z, r2)
            | [] => (Some 0%Z, [])
            end in
          match ex with
          | None => None
          | Some e =>
              Some (signed neg ((inject_Z (digitsValue 0 ip) + fpv)
                                * Qpower 10 e),
                    r3)
          end
      end
  end.

Inductive mode :=
| MValue
| MElements (acc : list json)
| MMembers (acc : list (jsstring * json)).

(** Recursive descent.  [MValue] reads one value; [MElements] the elements
    of an array after its opening bracket; [MMembers] the members of an
    object after its opening brace ([acc] holds what was read, reversed).
    Every second call at least consumes a code unit, so twice the length of
    the text is enough fuel. *)
Fixpoint parseJson (fuel : nat) (m : mode) (s : jsstring)
  : option (json * jsstring) :=
  match fuel with
  | O => None
  | S f =>
      match m with
      | MValue =>
          match skipWs s with
          | [] => None
          | c :: r =>
              if code_eqb c (ch "[") then
                match expect (ch "]") r with
                | Some r' => Some (JArr [], r')
                | None => parseJson f (MElements []) r
                end
              else if code_eqb c (ch "{") then
                match expect (ch "}") r with
                | Some r' => Some (JObj [], r')
                | None => parseJson f (MMembers []) r
                end
              else if code_eqb c 34%N then
                match parseStringBody [] r with
                | Some (str, r') => Some (JStr str, r')
                | None => None
                end
              else if startsWith (js "null") (c :: r) then
                Some (JNull, skipn 4 (c :: r))
              else if startsWith (js "true") (c :: r) then
                Some (JBool true, skipn 4 (c :: r))
              else if startsWith (js "false") (c :: r) then
                Some (JBool false, skipn 5 (c :: r))
              else
                match parseNumber (c :: r) with
                | Some (q, r') => Some (JNum q, r')
                | None => None
                end
          end
      | MElements acc =>
          match parseJson f MValue s with
          | Some (v, r) =>
              match expect (ch ",") r with
              | Some r' => parseJson f (MElements (v :: acc)) r'
              | None =>
                  match expect (ch "]") r with
                  | Some r' => Some (JArr (rev (v :: acc)), r')
                  | None => None
                  end
              end
          | None => None
          end
      | MMembers acc =>
          match expect 34%N s with
          | Some r =>
              match parseStringBody [] r with
              | Some (key, r1) =>
                  match expect (ch ":") r1 with
                  | Some r2 =>
                      match parseJson f MValue r2 with
                      | Some (v, r3) =>
                          match expect (ch ",") r3 with
                          | Some r' =>
                              parseJson f (MMembers ((key, v) :: acc)) r'
                          | None =>
                              match expect (ch "}") r3 with
                              | Some r' =>
                                  Some (JObj (rev ((key, v) :: acc)), r')
                              | None => None
                              end
                          end
                      | None => None
                      end
                  | None => None
                  end
              | None => None
              end
          | None => None
          end
      end
  end.

(** [JSON.parse(text)]: one value, white space around it, nothing else. *)
Definition parse (text : jsstring) : result json :=
  match parseJson (2 * length text + 2) MValue text with
  | Some (v, r) =>
      match skipWs r with
      | [] => Ok v
      | _ => Throw SyntaxError
      end
  | None => Throw SyntaxError
  end.

Fixpoint jsstring_eqb (a b : jsstring) : bool :=
  match a, b with
  | [], [] => true
  | x :: a', y :: b' => code_eqb x y && jsstring_eqb a' b'
  | _, _ => false
  end.

(** The property [key] of a parsed object; a repeated key keeps its last
    value.  [None] is [undefined]. *)
Fixpoint lookup (key : jsstring) (fields : list (jsstring * json))
  : option json :=
  match fields with
  | [] => None
  | (k, v) :: rest =>
      match lookup key rest with
      | Some v' => Some v'
      | None => if jsstring_eqb k key then Some v else None
      end
  end.

End JSON.
Import JSON.

(** ** services/geminiService: recovery of the model's payload *)
Module GeminiService.

Definition FENCE : jsstring := js "```".

(** [clean.match(/```(?:json)?\s*([\s\S]*?)\s*```/)], returning capture
    group 1 of the first match. *)
Definition fenceMatch (s : jsstring) : option jsstring :=
  search
    (lit FENCE
       (opt (js "json")
          (spaces
             (lazyAny
                (fun cap => spaces (lit FENCE (fun _ => Some cap)))
                []))))
    s.

(** The value of [clean] after the fence step (lines 47-51). *)
Definition cleanText (text : jsstring) : jsstring :=
  let clean := trim text in
  if includes FENCE clean then
    match fenceMatch clean with
    | Some ((_ :: _) as m1) => trim m1
    | _ => clean
    end
  else clean.

Definition sanitizeAndRepairJson (text : jsstring) : jsstring :=
  let clean := cleanText text in
  let firstBracket := indexOf (ch "[") clean in
  if (firstBracket =? -1)%Z then js "[]"
  else
    let lastBracket := lastIndexOf (ch "]") clean in
    if ((lastBracket =? -1) || (lastBracket <? firstBracket))%Z then
      let lastValidClosingBrace := lastIndexOf (ch "}") clean in
      if (negb (lastValidClosingBrace =? -1)
          && (firstBracket <? lastValidClosingBrace))%Z
      then substring clean firstBracket (lastValidClosingBrace + 1)
             ++ js "]"
      else js "[]"
    else substring clean firstBracket (lastBracket + 1).

(** [item.key] on a parsed value: a [TypeError] on [null], [undefined]
    ([None]) on anything that is not an object with that key. *)
Definition getProp (item : json) (key : jsstring) : result (option json) :=
  match item with
  | JNull => Throw TypeError
  | JObj fields => Ok (lookup key fields)
  | _ => Ok None
  end.

(** [parseTimeString(v)] on whatever the record holds: a falsy value returns
    0 at the guard, a non-empty string is converted, anything else has no
    [replace] method. *)
Definition parseTimeStringOf (v : option json) : result number :=
  match v with
  | None | Some JNull | Some (JBool false) | Some (JStr []) => Ok (of_Z 0)
  | Some (JNum q) => if Qeq_bool q 0 then Ok (of_Z 0) else Throw TypeError
  | Some (JStr s) => Ok (parseTimeString s)
  | Some _ => Throw TypeError
  end.

(** A generated segment; [text] is whatever [item.text] held. *)
Record GeneratedSegment := {
  gen_id : nat;
  gen_startTime : number;
  gen_endTime : number;
  gen_text : option json
}.

(** [parsedItems.map((item) => ({ id, startTime, endTime, text }))] *)
Fixpoint mapItems (items : list json) (supply : nat)
  : result (list GeneratedSegment) * nat :=
  match items with
  | [] => (Ok [], supply)
  | item :: rest =>
      let (uuid, supply1) := randomUUID supply in
      let seg :=
        st <- getProp item (js "start") ;;
        start <- parseTimeStringOf st ;;
        en <- getProp item (js "end") ;;
        stop <- parseTimeStringOf en ;;
        tx <- getProp item (js "text") ;;
        Ok {| gen_id := uuid; gen_startTime := start;
              gen_endTime := stop; gen_text := tx |} in
      match seg with
      | Throw e => (Throw e, supply1)
      | Ok sg =>
          let (tl, supply2) := mapItems rest supply1 in
          (sgs <- tl ;; Ok (sg :: sgs), supply2)
      end
  end.

(** [parsedItems.length === 0] *)
Definition lengthIsZero (v : json) : result bool :=
  match v with
  | JNull => Throw TypeError
  | JArr items => Ok (Nat.eqb (length items) 0)
  | JStr s => Ok (Nat.eqb (length s) 0)
  | JObj fields =>
      Ok match lookup (js "length") fields with
         | Some (JNum q) => Qeq_bool q 0
         | _ => false
         end
  | _ => Ok false
  end.

Definition MSG_API_KEY : jsstring := js "API Key is missing.".
Definition MSG_EMPTY : jsstring :=
  js "The AI model returned an empty response.".
Definition MSG_NO_SPEECH : jsstring := js "No speech detected.".
Definition MSG_PARSE : jsstring :=
  js "Failed to parse AI response. The file might be too complex or contain noise.".

(** [generateSubtitles], from the credential and the outcome of the remote
    call ([response.text], possibly [undefined]) to the segments.  The
    request itself is outside the embedding. *)
Definition generateSubtitles (apiKey : option jsstring)
    (response : result (option jsstring)) (supply : nat)
  : result (list GeneratedSegment) * nat :=
  match apiKey with
  | None | Some [] => (Throw (Error MSG_API_KEY), supply)
  | Some _ =>
      match response with
      | Throw e => (Throw e, supply)
      | Ok text =>
          let rawText := match text with Some t => t | None => [] end in
          match rawText with
          | [] => (Throw (Error MSG_EMPTY), supply)
          | _ =>
              let jsonText := sanitizeAndRepairJson rawText in
              let body : result (list GeneratedSegment) * nat :=
                match JSON.parse jsonText with
                | Throw e => (Throw e, supply)
                | Ok parsedItems =>
                    match lengthIsZero parsedItems with
                    | Throw e => (Throw e, supply)
                    | Ok true => (Throw (Error MSG_NO_SPEECH), supply)
                    | Ok false =>
                        match parsedItems with
                        | JArr items => mapItems items supply
                        | _ => (Throw TypeError, supply)
                        end
                    end
                end in
              (tryCatch (fst body)
                 (fun parseError => Throw (Error MSG_PARSE)),
               snd body)
          end
      end
  end.

End GeminiService.
Import GeminiService.

(** ** utils/audioUtils *)
Module AudioUtils.

Definition buffer := list Z.

(** Store one byte at an index inside the buffer. *)
Fixpoint store (i : nat) (b : Z) (buf : buffer) {struct buf} : buffer :=
  match buf, i with
  | [], _ => []
  | _ :: r, O => b :: r
  | a :: r, S j => a :: store j b r
  end.

(** [DataView] setters; a write outside the buffer is a [RangeError]. *)
Definition setUint8 (buf : buffer) (offset : nat) (value : Z)
  : result buffer :=
  if (offset + 1 <=? length buf)%nat
  then Ok (store offset (value mod 256)%Z buf)
  else Throw RangeError.

(** [view.setUint16(offset, value, true)] *)
Definition setUint16 (buf : buffer) (offset : nat) (value : Z)
  : result buffer :=
  if (offset + 2 <=? length buf)%nat
  then Ok (store (offset + 1) ((value / 256) mod 256)%Z
             (store offset (value mod 256)%Z buf))
  else Throw RangeError.

(** [view.setUint32(offset, value, true)] *)
Definition setUint32 (buf : buffer) (offset : nat) (value : Z)
  : result buffer :=
  if (offset + 4 <=? length buf)%nat
  then Ok (store (offset + 3) ((value / 16777216) mod 256)%Z
             (store (offset + 2) ((value / 65536) mod 256)%Z
                (store (offset + 1) ((value / 256) mod 256)%Z
                   (store offset (value mod 256)%Z buf))))
  else Throw RangeError.

(** The integer that [setInt16] stores for a number: 0 for [NaN] and the
    infinities, else the truncation wrapped into [-32768, 32767]. *)
Definition toInt16 (x : number) : Z :=
  match x with
  | Fin q =>
      let m := (Qtrunc q mod 65536)%Z in
      if (32768 <=? m)%Z then (m - 65536)%Z else m
  | _ => 0%Z
  end.

(** [view.setInt16(offset, x, true)] *)
Definition setInt16 (buf : buffer) (offset : nat) (x : number)
  : result buffer :=
  setUint16 buf offset (toInt16 x mod 65536)%Z.

Fixpoint writeString (view : buffer) (offset : nat) (string : jsstring)
  : result buffer :=
  match string with
  | [] => Ok view
  | c :: rest =>
      v <- setUint8 view offset (Z.of_N c) ;;
      writeString v (S offset) rest
  end.

(** The argument of [setInt16] for one sample (lines 210-211). *)
Definition scaleSample (x : number) : number :=
  let s := Num.max (of_Z (-1)) (Num.min (of_Z 1) x) in
  if Num.lt s (of_Z 0) then mul s (of_Z 32768) else mul s (of_Z 32767).

(** The sample loop (lines 208-213). *)
Fixpoint writeSamples (view : buffer) (offset : nat)
    (channelData : list number) : result buffer :=
  match channelData with
  | [] => Ok view
  | x :: rest =>
      v <- setInt16 view offset (scaleSample x) ;;
      writeSamples v (offset + 2) rest
  end.

(** The container built from the rendered channel (lines 184-213). *)
Definition wavContainer (channelData : list number) : result buffer :=
  let n := length channelData in
  let len := Z.of_nat n in
  let view : buffer := repeat 0%Z (44 + n * 2) in
  v <- writeString view 0 (js "RIFF") ;;
  v <- setUint32 v 4 (36 + len * 2) ;;
  v <- writeString v 8 (js "WAVE") ;;
  v <- writeString v 12 (js "fmt ") ;;
  v <- setUint32 v 16 16 ;;
  v <- setUint16 v 20 1 ;;
  v <- setUint16 v 22 1 ;;
  v <- setUint32 v 24 16000 ;;
  v <- setUint32 v 28 (16000 * 2) ;;
  v <- setUint16 v 32 2 ;;
  v <- setUint16 v 34 16 ;;
  v <- writeString v 36 (js "data") ;;
  v <- setUint32 v 40 (len * 2) ;;
  writeSamples v 44 channelData.

Definition MSG_DECODE : jsstring :=
  js "Failed to decode audio data. Ensure the file is a valid video or audio format.".

(** Conversion of a number to the [unsigned long] frame count that the
    [OfflineAudioContext] constructor takes. *)
Definition toUnsignedLong (x : number) : Z :=
  match x with
  | Fin q => (Qtrunc q mod 4294967296)%Z
  | _ => 0%Z
  end.

Section Host.
(** The host's media pipeline: the decoded audio, its duration in seconds,
    and the offline rendering of a given number of mono frames. *)
Variable AudioBuffer : Type.
Variable duration : AudioBuffer -> Q.
Variable render : AudioBuffer -> nat -> list number.

(** [extractAudioBase64] up to the container; [decoded] is the outcome of
    [decodeAudioData] ([None] when it rejects).  The constructor of the
    offline context rejects a frame count of 0.  The final transport
    encoding of the bytes is left out. *)
Definition extractAudio (decoded : option AudioBuffer) : result buffer :=
  match decoded with
  | None => Throw (Error MSG_DECODE)
  | Some audioBuffer =>
      let length :=
        toUnsignedLong
          (Binary64.mul (Fin (duration audioBuffer)) (of_Z 16000)) in
      if (length =? 0)%Z then Throw NotSupportedError
      else
        let channelData := render audioBuffer (Z.to_nat length) in
        wavContainer channelData
  end.
End Host.

End AudioUtils.
Import AudioUtils.

(** ** Notions used to state the properties *)
Module Notions.

(** A literal written with ['] where the text has a double quote. *)
Definition dq (s : jsstring) : jsstring :=
  map (fun c => if code_eqb c 39%N then 34%N else c) s.

(** A non-empty run of decimal digits. *)
Definition digitString (s : jsstring) : Prop :=
  s <> [] /\ Forall (fun c => isDigit c = true) s.

(** The number a run of digits denotes, and the fraction it denotes after a
    decimal point. *)
Definition valueOf (s : jsstring) : Q := inject_Z (digitsValue 0 s).
Definition fractionOf (s : jsstring) : Q :=
  inject_Z (digitsValue 0 s) / inject_Z (10 ^ Z.of_nat (length s)).

(** [y] is a number within one millisecond of [x]. *)
Definition withinMillisecond (x : Q) (y : number) : Prop :=
  match y with
  | Fin r => Qabs (x - r) < 1 # 1000
  | _ => False
  end.


(** The millisecond value that the formatters hand to the date: the
    binary64 product of the time and 1000, cut toward zero; none when the
    product is not finite. *)
Definition timeValue (x : Q) : option Z :=
  match Binary64.mul (Fin x) (of_Z 1000) with
  | Fin r => Some (Qtrunc r)
  | _ => None
  end.

(** The host reads the local time [k] milliseconds after the local time of
    the epoch with the offset it has at the epoch, a whole number of
    seconds; and it does so for every [k] of an interval. *)
Definition zoneSteadyAt (host : Date.Host) (k : Z) : Prop :=
  (Date.LocalTZA host 0 true mod 1000 = 0)%Z /\
  Date.LocalTZA host (Date.LocalTZA host 0 true + k) false
  = Date.LocalTZA host 0 true.

Definition zoneSteady (host : Date.Host) (lo hi : Z) : Prop :=
  forall k, (lo <= k <= hi)%Z -> zoneSteadyAt host k.

(** A host on UTC, and a host six hours behind UTC that moves its clocks
    forward by an hour 115 days after the epoch and back 180 days later. *)
Definition utcHost : Date.Host := {| Date.LocalTZA := fun _ _ => 0%Z |}.

Definition dstHost : Date.Host :=
  {| Date.LocalTZA := fun t _ =>
       if ((9936000000 <=? t) && (t <? 25488000000))%Z then (-18000000)%Z
       else (-21600000)%Z |}.

(** A host on UTC until noon of the day of the epoch and an hour ahead
    from then on. *)
Definition shiftHost : Date.Host :=
  {| Date.LocalTZA := fun t _ =>
       if (43200000 <=? t)%Z then 3600000%Z else 0%Z |}.

(** A component in which [parseInt] finds no number: after white space and
    an optional sign there is no digit. *)
Definition noIntegerPrefix (p : jsstring) : Prop :=
  match snd (readSign (trimStart p)) with
  | c :: _ => isDigit c = false
  | [] => True
  end.

(** A component in which [parseFloat] finds no number: after white space
    and an optional sign there is neither [Infinity], nor a digit, nor a
    point followed by a digit. *)
Definition noDecimalPrefix (p : jsstring) : Prop :=
  let body := snd (readSign (trimStart p)) in
  startsWith (js "Infinity") body = false /\
  match body with
  | c :: r =>
      isDigit c = false /\
      (c = 46%N -> match r with d :: _ => isDigit d = false | [] => True end)
  | [] => True
  end.

(** The record a block of a subtitle file denotes: at least three lines,
    the second of which splits on the arrow into a non-empty start and a
    non-empty end; the text is the remaining lines joined with spaces. *)
Definition blockRecord (block : jsstring)
  : option (number * number * jsstring) :=
  match split LF (trim block) with
  | _ :: timecode :: ((_ :: _) as textLines) =>
      match split (js " --> ") timecode with
      | ((_ :: _) as startStr) :: ((_ :: _) as endStr) :: _ =>
          Some (parseTimeString startStr, parseTimeString endStr,
                join (js " ") textLines)
      | _ => None
      end
  | _ => None
  end.

(** The blocks of a subtitle file. *)
Definition srtBlocksOf (srtContent : jsstring) : list jsstring :=
  split (LF ++ LF) (replaceCR (replaceCRLF srtContent)).

Definition srtRecords (srtContent : jsstring)
  : list (number * number * jsstring) :=
  flat_map (fun b => match blockRecord b with Some r => [r] | None => [] end)
    (srtBlocksOf srtContent).

Definition recordOf (seg : SubtitleSegment) : number * number * jsstring :=
  (startTime seg, endTime seg, text seg).

(** A text without line breaks. *)
Definition singleLine (t : jsstring) : Prop :=
  ~ In 10%N t /\ ~ In 13%N t.

(** A text as the round trip needs it: trimmed, non-blank and on a single
    line. *)
Definition exportableText (seg : SubtitleSegment) : Prop :=
  trim (text seg) = text seg /\ text seg <> [] /\ singleLine (text seg).




(** Every block of at least three lines yields a record. *)
Definition everyLongBlockYieldsRecord (srtContent : jsstring) : Prop :=
  length (fst (parseSrt srtContent 0))
  = length (filter (fun b => (3 <=? length (split LF (trim b)))%nat)
              (srtBlocksOf srtContent)).

(** A component of a timestamp in which neither parser finds a number. *)
Definition hasNonNumericComponent (s : jsstring) : Prop :=
  exists p,
    In p (split (js ":") (replaceFirst (ch ",") (ch ".") s)) /\
    noIntegerPrefix p /\ noDecimalPrefix p.

(** [r] is the literal [[]], or a slice of [text] that starts at the first
    opening bracket of [text], possibly with a closing bracket appended. *)
Definition sliceFromFirstBracket (text r : jsstring) : Prop :=
  r = js "[]" \/
  exists pre slice post,
    text = pre ++ slice ++ post /\ ~ In (ch "[") pre /\
    (r = slice \/ r = slice ++ js "]").

(** The truncated response of the specification's example. *)
Definition truncatedExample : jsstring :=
  dq (js "[{'start':'00:01.000','end':'00:02.000','text':'hi'").

(** The block of a segment without its closing line feed, and the record it
    is read back as. *)
Definition srtBody (host : Date.Host) (i : nat) (seg : SubtitleSegment)
  : jsstring :=
  intToString (Z.of_nat i + 1) ++ LF
  ++ (formatSrtTime host (startTime seg) ++ js " --> "
      ++ formatSrtTime host (endTime seg)) ++ LF
  ++ text seg.

Definition readBackRecord (host : Date.Host) (seg : SubtitleSegment)
  : number * number * jsstring :=
  (parseTimeString (formatSrtTime host (startTime seg)),
   parseTimeString (formatSrtTime host (endTime seg)),
   text seg).

(** Prepend [l] to the first of a list of pieces. *)
Definition extendFirst (l : jsstring) (pieces : list jsstring)
  : list jsstring :=
  match pieces with
  | p :: ps => (l ++ p) :: ps
  | [] => [l]
  end.

(** The code units of a formatted time: digits, the colon and the comma,
    and the letters of [NaN]. *)
Definition timeCode (c : code) : Prop :=
  isDigit c = true \/ c = 58%N \/ c = 44%N \/ c = 78%N \/ c = 97%N.


(** A sample limited to [-1, 1], and the 16-bit integer it is quantised to:
    the limited sample scaled by 32768 when negative and by 32767
    otherwise, cut toward zero. *)
Definition clamp (q : Q) : Q :=
  if Qlt_le_dec q (-1) then -1 else if Qlt_le_dec 1 q then 1 else q.

Definition quantized (q : Q) : Z :=
  let s := clamp q in
  if Qlt_le_dec s 0 then Qtrunc (s * 32768) else Qtrunc (s * 32767).

(** Little-endian bytes of 16-bit and 32-bit fields. *)
Definition le16 (v : Z) : list Z := [v mod 256; (v / 256) mod 256]%Z.
Definition le32 (v : Z) : list Z :=
  [v mod 256; (v / 256) mod 256; (v / 65536) mod 256;
   (v / 16777216) mod 256]%Z.

(** The two bytes of one sample. *)
Definition sampleBytes (x : number) : list Z :=
  le16 (toInt16 (scaleSample x) mod 65536).

Definition bytesOf (s : jsstring) : list Z := map Z.of_N s.

(** The 44-byte header for [n] samples. *)
Definition wavHeader (n : Z) : list Z :=
  bytesOf (js "RIFF") ++ le32 (36 + n * 2)
  ++ bytesOf (js "WAVE") ++ bytesOf (js "fmt ")
  ++ le32 16 ++ le16 1 ++ le16 1 ++ le32 16000 ++ le32 (16000 * 2)
  ++ le16 2 ++ le16 16
  ++ bytesOf (js "data") ++ le32 (n * 2).

(** Reading little-endian fields back. *)
Definition readLE16 (bytes : list Z) (offset : nat) : Z :=
  (nth offset bytes 0 + 256 * nth (offset + 1) bytes 0)%Z.
Definition readLE32 (bytes : list Z) (offset : nat) : Z :=
  (nth offset bytes 0 + 256 * nth (offset + 1) bytes 0
   + 65536 * nth (offset + 2) bytes 0
   + 16777216 * nth (offset + 3) bytes 0)%Z.
Definition readInt16 (bytes : list Z) (offset : nat) : Z :=
  let u := readLE16 bytes offset in
  if (32768 <=? u)%Z then (u - 65536)%Z else u.


(** The padded decimal text of [n] is [k] digits that denote [n]. *)
Definition padOk (k : nat) (n : Z) : bool :=
  let s := padStart0 k (intToString n) in
  forallb isDigit s && Nat.eqb (length s) k && (digitsValue 0 s =? n)%Z.

End Notions.
Import Notions.

(** ** App: the pure state updates and the export name *)
Module App.

Inductive TaskType :=
| TRANSLATE
| CAPTION.

(** [prev.map(s => s.id === id ? { ...s, text: newText } : s)] *)
Definition updateSubtitle (ident : nat) (newText : jsstring)
    (prev : list SubtitleSegment) : list SubtitleSegment :=
  map (fun s =>
         if Nat.eqb (id s) ident
         then {| id := id s; startTime := startTime s;
                 endTime := endTime s; text := newText |}
         else s) prev.

(** [prev.filter(s => s.id !== id)] *)
Definition deleteSubtitle (ident : nat) (prev : list SubtitleSegment)
  : list SubtitleSegment :=
  filter (fun s => negb (Nat.eqb (id s) ident)) prev.

(** The name and content that [handleDownloadSrt] offers; [None] when there
    are no subtitles (the handler returns at once).  [videoFile] is the name
    of the loaded file, if any. *)
Definition handleDownloadSrt (host : Date.Host)
    (subtitles : list SubtitleSegment)
    (videoFile : option jsstring) (taskMode : TaskType)
  : option (jsstring * jsstring) :=
  match subtitles with
  | [] => None
  | _ =>
      let srtContent := generateSrt host subtitles in
      let prefix :=
        match taskMode with
        | TRANSLATE => js "rashmi"
        | CAPTION => js "cgn"
        end in
      let download :=
        match videoFile with
        | Some name =>
            nth 0 (split (js ".") name) [] ++ js "_" ++ prefix ++ js ".srt"
        | None => prefix ++ js "_subtitles.srt"
        end in
      Some (download, srtContent)
  end.

End App.
Import App.

(** ** components/VideoPlayer: the subtitle on screen *)
Module VideoPlayer.

(** [a >= b] and [a <= b] *)
Definition ge (a b : number) : bool :=
  match a, b with
  | NaN, _ | _, NaN => false
  | _, _ => negb (Num.lt a b)
  end.

Definition le (a b : number) : bool := ge b a.

(** [subtitles.find(seg => currentTime >= seg.startTime
                           && currentTime <= seg.endTime)] *)
Definition currentSubtitle (subtitles : list SubtitleSegment)
    (currentTime : number) : option SubtitleSegment :=
  find (fun seg => ge currentTime (startTime seg)
                   && le currentTime (endTime seg)) subtitles.

End VideoPlayer.
Import VideoPlayer.

(** ** utils/audioUtils: the transport encoding *)
Module Transport.

(** [String.fromCharCode(...chunk)] *)
Definition fromCharCode (chunk : list Z) : jsstring :=
  map (fun b => Z.to_N (b mod 65536)) chunk.

(** [bytes.subarray(i, j)] *)
Definition subarray (bytes : list Z) (i j : Z) : list Z :=
  firstn (Z.to_nat (j - i)) (skipn (Z.to_nat i) bytes).

(** The chunk loop of [arrayBufferToBase64]; [fuel] bounds the number of
    iterations, [i] is the loop index and [binary] the string so far. *)
Fixpoint binaryLoop (fuel : nat) (bytes : list Z) (chunkSize i : Z)
    (binary : jsstring) : jsstring :=
  match fuel with
  | O => binary
  | S f =>
      let len := Z.of_nat (length bytes) in
      if (i <? len)%Z then
        let chunk := subarray bytes i (Z.min (i + chunkSize) len) in
        binaryLoop f bytes chunkSize (i + chunkSize)%Z
          (binary ++ fromCharCode chunk)
      else binary
  end.

(** The 64 symbols. *)
Definition symbol (i : Z) : code :=
  if (i <? 26)%Z then Z.to_N (65 + i)
  else if (i <? 52)%Z then Z.to_N (97 + (i - 26))
  else if (i <? 62)%Z then Z.to_N (48 + (i - 52))
  else if (i =? 62)%Z then 43%N
  else 47%N.

(** Three bytes give four symbols; a last group of one or two bytes is
    padded with [=]. *)
Fixpoint encodeGroups (bytes : list Z) : jsstring :=
  match bytes with
  | a :: b :: c :: r =>
      symbol (a / 4) :: symbol ((a mod 4) * 16 + b / 16)
      :: symbol ((b mod 16) * 4 + c / 64) :: symbol (c mod 64)
      :: encodeGroups r
  | [a; b] =>
      [symbol (a / 4); symbol ((a mod 4) * 16 + b / 16);
       symbol ((b mod 16) * 4); 61%N]
  | [a] => [symbol (a / 4); symbol ((a mod 4) * 16); 61%N; 61%N]
  | [] => []
  end%Z.

(** [btoa(binary)]; [None] is the InvalidCharacterError raised for a code
    unit above 255. *)
Definition btoa (binary : jsstring) : option jsstring :=
  if forallb (fun c => (c <=? 255)%N) binary
  then Some (encodeGroups (map Z.of_N binary))
  else None.

Definition chunkSize : Z := 32768.

Definition arrayBufferToBase64 (buffer : list Z) : option jsstring :=
  btoa (binaryLoop (S (length buffer)) buffer chunkSize 0 []).

(** [extractAudioBase64]: the container of [extractAudio], encoded. *)
Definition extractAudioBase64 (AudioBuffer : Type)
    (duration : AudioBuffer -> Q)
    (render : AudioBuffer -> nat -> list number)
    (decoded : option AudioBuffer) : result (option jsstring) :=
  buf <- extractAudio AudioBuffer duration render decoded ;;
  Ok (arrayBufferToBase64 buf).

End Transport.
Import Transport.

(** ** Further notions *)
Module Notions2.

(** The value of a symbol, and the decoding of padded groups of four. *)
Definition sextet (c : code) : option Z :=
  if ((65 <=? c) && (c <=? 90))%N then Some (Z.of_N c - 65)%Z
  else if ((97 <=? c) && (c <=? 122))%N then Some (Z.of_N c - 71)%Z
  else if ((48 <=? c) && (c <=? 57))%N then Some (Z.of_N c + 4)%Z
  else if (c =? 43)%N then Some 62%Z
  else if (c =? 47)%N then Some 63%Z
  else None.

Fixpoint decodeGroups (s : jsstring) : option (list Z) :=
  match s with
  | [] => Some []
  | c0 :: c1 :: c2 :: c3 :: r =>
      match sextet c0, sextet c1 with
      | Some s0, Some s1 =>
          if (c2 =? 61)%N then
            match r with
            | [] => if (c3 =? 61)%N then Some [s0 * 4 + s1 / 16]%Z else None
            | _ => None
            end
          else
            match sextet c2 with
            | Some s2 =>
                if (c3 =? 61)%N then
                  match r with
                  | [] => Some [s0 * 4 + s1 / 16;
                                (s1 mod 16) * 16 + s2 / 4]%Z
                  | _ => None
                  end
                else
                  match sextet c3, decodeGroups r with
                  | Some s3, Some rest =>
                      Some ((s0 * 4 + s1 / 16)
                            :: ((s1 mod 16) * 16 + s2 / 4)
                            :: ((s2 mod 4) * 64 + s3) :: rest)%Z
                  | _, _ => None
                  end
            | None => None
            end
      | _, _ => None
      end
  | _ => None
  end.

(** Every byte lies in [0, 255]. *)
Definition isBytes (l : list Z) : Prop :=
  Forall (fun b => (0 <= b < 256)%Z) l.

(** A text with Windows line endings, and one with old Macintosh ones. *)
Definition toCRLF (s : jsstring) : jsstring :=
  flat_map (fun c => if code_eqb c 10%N then [13%N; 10%N] else [c]) s.
Definition toCR (s : jsstring) : jsstring :=
  map (fun c => if code_eqb c 10%N then 13%N else c) s.

(** A parsed record whose [start] and [end] are strings, and the segment it
    becomes. *)
Definition timedItem (item : json) : Prop :=
  exists fields s e,
    item = JObj fields /\
    lookup (js "start") fields = Some (JStr s) /\
    lookup (js "end") fields = Some (JStr e).

Definition segmentOfItem (item : json) (seg : GeneratedSegment) : Prop :=
  exists fields s e,
    item = JObj fields /\
    lookup (js "start") fields = Some (JStr s) /\
    lookup (js "end") fields = Some (JStr e) /\
    gen_startTime seg = parseTimeString s /\
    gen_endTime seg = parseTimeString e /\
    gen_text seg = lookup (js "text") fields.

(** Two digits, and three. *)
Definition twoDigits (n : Z) : jsstring :=
  [Z.to_N (48 + n / 10); Z.to_N (48 + n mod 10)]%Z.
Definition threeDigits (n : Z) : jsstring :=
  [Z.to_N (48 + n / 100); Z.to_N (48 + (n / 10) mod 10);
   Z.to_N (48 + n mod 10)]%Z.

Definition padExact (n : Z) : bool :=
  jsstring_eqb (padStart0 2 (intToString n)) (twoDigits n).
Definition padExact3 (n : Z) : bool :=
  jsstring_eqb (padStart0 3 (intToString n)) (threeDigits n).

(** The frame count that the extraction asks the offline context for: the
    binary64 product of the duration and 16000, cut to an integer, modulo
    2^32. *)
Definition frameCount (D : Q) : Z :=
  match Binary64.round (D * 16000) with
  | Fin r => (Qtrunc r mod 4294967296)%Z
  | _ => 0%Z
  end.

(** A value that passes the guard of [parseTimeString] without being a
    string, and a parsed item that cannot be converted: [null], or a record
    whose [start] or [end] is such a value. *)
Definition truthyNonString (v : json) : Prop :=
  match v with
  | JBool true => True
  | JNum q => ~ q == 0
  | JArr _ => True
  | JObj _ => True
  | _ => False
  end.

Definition brokenItem (item : json) : Prop :=
  item = JNull \/
  exists fields v,
    item = JObj fields /\ truthyNonString v /\
    (lookup (js "start") fields = Some v \/
     lookup (js "end") fields = Some v).

(** A segment with finite times, and one that is on screen at time [x]:
    its start is at or before [x] and its end at or after. *)
Definition finiteTimes (seg : SubtitleSegment) : Prop :=
  exists a b, startTime seg = Fin a /\ endTime seg = Fin b.

Definition covers (seg : SubtitleSegment) (x : Q) : Prop :=
  exists a b,
    startTime seg = Fin a /\ endTime seg = Fin b /\ a <= x /\ x <= b.

(** The prefix that the export name carries for a task. *)
Definition exportPrefix (taskMode : TaskType) : jsstring :=
  match taskMode with
  | TRANSLATE => js "rashmi"
  | CAPTION => js "cgn"
  end.

End Notions2.
Import Notions2.

(* ================================================================== *)
(** * Part II -- properties                                            *)
(* ================================================================== *)

(** ** Facts about the string primitives *)

Lemma code_eqb_eq (a b : code) : code_eqb a b = true <-> a = b.
Proof. unfold code_eqb. apply N.eqb_eq. Qed.

Lemma code_eqb_neq (a b : code) : code_eqb a b = false <-> a <> b.
Proof. unfold code_eqb. apply N.eqb_neq. Qed.

Lemma code_eqb_refl (a : code) : code_eqb a a = true.
Proof. apply code_eqb_eq. reflexivity. Qed.

Lemma indexOf_range (c : code) (s : jsstring) :
  (-1 <= indexOf c s < Z.of_nat (length s))%Z.
Proof.
  induction s as [|a r IH]; simpl; [lia|].
  destruct (code_eqb a c); [lia|].
  destruct (Z.ltb_spec (indexOf c r) 0); lia.
Qed.

Lemma indexOf_absent (c : code) (s : jsstring) :
  ~ In c s -> indexOf c s = (-1)%Z.
Proof.
  induction s as [|a r IH]; simpl; intros H; [reflexivity|].
  destruct (code_eqb a c) eqn:E.
  - apply code_eqb_eq in E. tauto.
  - rewrite IH by tauto. reflexivity.
Qed.

Lemma indexOf_app (c : code) (pre rest : jsstring) :
  ~ In c pre -> indexOf c (pre ++ c :: rest) = Z.of_nat (length pre).
Proof.
  induction pre as [|a r IH]; simpl; intros H.
  - rewrite code_eqb_refl. reflexivity.
  - destruct (code_eqb a c) eqn:E.
    + apply code_eqb_eq in E. tauto.
    + rewrite IH by tauto.
      destruct (Z.ltb_spec (Z.of_nat (length r)) 0); lia.
Qed.

Lemma indexOf_found (c : code) (s : jsstring) :
  (0 <= indexOf c s)%Z ->
  exists pre rest,
    s = pre ++ c :: rest /\ ~ In c pre /\
    Z.of_nat (length pre) = indexOf c s.
Proof.
  induction s as [|a r IH]; simpl; [lia|].
  destruct (code_eqb a c) eqn:E.
  - intros _. apply code_eqb_eq in E. subst a.
    exists [], r. simpl. tauto.
  - destruct (Z.ltb_spec (indexOf c r) 0) as [Hlt|Hge]; [lia|].
    intros _. destruct (IH Hge) as (pre & rest & -> & Hn & Hl).
    exists (a :: pre), rest. simpl. repeat split.
    + apply code_eqb_neq in E. intros [->|Hin]; tauto.
    + lia.
Qed.

Lemma lastIndexOf_range (c : code) (s : jsstring) :
  (-1 <= lastIndexOf c s < Z.of_nat (length s))%Z.
Proof.
  induction s as [|a r IH]; simpl; [lia|].
  destruct (Z.leb_spec 0 (lastIndexOf c r)); [lia|].
  destruct (code_eqb a c); lia.
Qed.

Lemma lastIndexOf_absent (c : code) (s : jsstring) :
  ~ In c s -> lastIndexOf c s = (-1)%Z.
Proof.
  induction s as [|a r IH]; simpl; intros H; [reflexivity|].
  rewrite IH by tauto. simpl.
  destruct (code_eqb a c) eqn:E; [|reflexivity].
  apply code_eqb_eq in E. tauto.
Qed.

Lemma lastIndexOf_app (c : code) (pre rest : jsstring) :
  ~ In c rest -> lastIndexOf c (pre ++ c :: rest) = Z.of_nat (length pre).
Proof.
  intros H. induction pre as [|a r IH]; simpl.
  - rewrite (lastIndexOf_absent c rest H). simpl.
    rewrite code_eqb_refl. reflexivity.
  - rewrite IH. destruct (Z.leb_spec 0 (Z.of_nat (length r))); lia.
Qed.

(** When [c] does not occur in the tail, its last index lies in the front
    part (or is -1). *)
Lemma lastIndexOf_front (c : code) (pre rest : jsstring) :
  ~ In c rest -> (lastIndexOf c (pre ++ rest) < Z.of_nat (length pre))%Z.
Proof.
  intros H. induction pre as [|a r IH]; simpl.
  - rewrite (lastIndexOf_absent c rest H). lia.
  - destruct (Z.leb_spec 0 (lastIndexOf c (r ++ rest))); [lia|].
    destruct (code_eqb a c); lia.
Qed.

Lemma lastIndexOf_found (c : code) (s : jsstring) :
  (0 <= lastIndexOf c s)%Z ->
  exists pre rest,
    s = pre ++ c :: rest /\ ~ In c rest /\
    Z.of_nat (length pre) = lastIndexOf c s.
Proof.
  induction s as [|a r IH]; simpl; [lia|].
  destruct (Z.leb_spec 0 (lastIndexOf c r)) as [Hge|Hlt].
  - intros _. destruct (IH Hge) as (pre & rest & -> & Hn & Hl).
    exists (a :: pre), rest. simpl. repeat split; [assumption|lia].
  - destruct (code_eqb a c) eqn:E; [|lia].
    intros _. apply code_eqb_eq in E. subst a.
    exists [], r. simpl. repeat split.
    intros Hin. 
    assert (Hr := lastIndexOf_range c r).
    destruct (in_split _ _ Hin) as (l1 & l2 & ->).
    clear - Hlt.
    induction l1 as [|b l1 IH]; simpl in Hlt.
    + destruct (Z.leb_spec 0 (lastIndexOf c l2)); [lia|].
      rewrite code_eqb_refl in Hlt. lia.
    + destruct (Z.leb_spec 0 (lastIndexOf c (l1 ++ c :: l2))); [lia|].
      apply IH. assumption.
Qed.

Lemma substring_mid (pre mid post : jsstring) :
  substring (pre ++ mid ++ post)
    (Z.of_nat (length pre)) (Z.of_nat (length pre + length mid)) = mid.
Proof.
  unfold substring. rewrite !length_app.
  replace (Z.to_nat _) with (length mid) by lia.
  replace (Z.to_nat _) with (length pre) by lia.
  rewrite skipn_app, skipn_all, Nat.sub_diag. simpl.
  rewrite firstn_app, firstn_all, Nat.sub_diag. simpl.
  apply app_nil_r.
Qed.

(** ** The payload recovery on a text without a closing bracket *)

Lemma sanitize_truncated_with_brace (text pre mid tail : jsstring) :
  cleanText text = pre ++ ch "[" :: mid ++ ch "}" :: tail ->
  ~ In (ch "[") pre ->
  ~ In (ch "]") (mid ++ ch "}" :: tail) ->
  ~ In (ch "}") tail ->
  sanitizeAndRepairJson text = ch "[" :: mid ++ js "}]".
Proof.
  intros Hc Hpre Hrb Hbr. unfold sanitizeAndRepairJson. rewrite Hc.
  cbv zeta.
  rewrite (indexOf_app (ch "[") pre _ Hpre).
  assert (Hlast : (lastIndexOf (ch "]")
                     (pre ++ ch "[" :: mid ++ ch "}" :: tail)
                   < Z.of_nat (length pre))%Z).
  { apply lastIndexOf_front. intros [H|H]; [discriminate H|tauto]. }
  assert (Hbrace : lastIndexOf (ch "}")
                     (pre ++ ch "[" :: mid ++ ch "}" :: tail)
                   = Z.of_nat (length (pre ++ ch "[" :: mid))).
  { replace (pre ++ ch "[" :: mid ++ ch "}" :: tail)
      with ((pre ++ ch "[" :: mid) ++ ch "}" :: tail)
      by (rewrite <- app_assoc; reflexivity).
    apply lastIndexOf_app. assumption. }
  rewrite Hbrace.
  destruct (Z.eqb_spec (Z.of_nat (length pre)) (-1)); [lia|].
  replace ((lastIndexOf (ch "]") _ =? -1)%Z || _) with true.
  2:{ symmetry. apply orb_true_iff. right. apply Z.ltb_lt. exact Hlast. }
  rewrite length_app. simpl length.
  destruct (Z.eqb_spec (Z.of_nat (length pre + S (length mid))) (-1));
    [lia|].
  replace (Z.of_nat (length pre) <? Z.of_nat (length pre + S (length mid)))%Z
    with true by (symmetry; apply Z.ltb_lt; lia).
  simpl negb. simpl andb. cbv iota.
  replace (pre ++ ch "[" :: mid ++ ch "}" :: tail)
    with (pre ++ (ch "[" :: mid ++ [ch "}"]) ++ tail)
    by (simpl; rewrite <- app_assoc; reflexivity).
  replace (Z.of_nat (length pre + S (length mid)) + 1)%Z
    with (Z.of_nat (length pre + length (ch "[" :: mid ++ [ch "}"]))).
  2:{ simpl length. rewrite length_app. simpl. lia. }
  rewrite substring_mid. simpl. rewrite <- app_assoc. reflexivity.
Qed.

Lemma sanitize_truncated_without_brace (text pre rest : jsstring) :
  cleanText text = pre ++ ch "[" :: rest ->
  ~ In (ch "[") pre ->
  ~ In (ch "]") rest ->
  ~ In (ch "}") rest ->
  sanitizeAndRepairJson text = js "[]".
Proof.
  intros Hc Hpre Hrb Hbr. unfold sanitizeAndRepairJson. rewrite Hc.
  cbv zeta.
  rewrite (indexOf_app (ch "[") pre _ Hpre).
  assert (Hlast : (lastIndexOf (ch "]") (pre ++ ch "[" :: rest)
                   < Z.of_nat (length pre))%Z).
  { apply lastIndexOf_front. intros [H|H]; [discriminate H|tauto]. }
  assert (Hbrace : (lastIndexOf (ch "}") (pre ++ ch "[" :: rest)
                   < Z.of_nat (length pre))%Z).
  { apply lastIndexOf_front. intros [H|H]; [discriminate H|tauto]. }
  destruct (Z.eqb_spec (Z.of_nat (length pre)) (-1)); [lia|].
  replace ((lastIndexOf (ch "]") _ =? -1)%Z || _) with true.
  2:{ symmetry. apply orb_true_iff. right. apply Z.ltb_lt. exact Hlast. }
  replace (Z.of_nat (length pre) <? lastIndexOf (ch "}") _)%Z with false.
  2:{ symmetry. apply Z.ltb_ge. lia. }
  rewrite andb_false_r. reflexivity.
Qed.

(** ** The shape of every recovered payload *)

Lemma substring_decomp (s : jsstring) (a b : Z) :
  (0 <= a <= b)%Z -> (b <= Z.of_nat (length s))%Z ->
  s = firstn (Z.to_nat a) s ++ substring s a b ++ skipn (Z.to_nat b) s.
Proof.
  intros Hab Hb. unfold substring.
  replace (Z.to_nat (Z.max _ _ - _)) with (Z.to_nat b - Z.to_nat a)%nat
    by lia.
  replace (Z.to_nat (Z.min _ _)) with (Z.to_nat a) by lia.
  rewrite <- (firstn_skipn (Z.to_nat a) s) at 1. f_equal.
  rewrite <- (firstn_skipn (Z.to_nat b - Z.to_nat a)
                (skipn (Z.to_nat a) s)) at 1.
  f_equal. rewrite skipn_skipn. f_equal. lia.
Qed.

Lemma indexOf_firstn (c : code) (s : jsstring) :
  ~ In c (firstn (Z.to_nat (indexOf c s)) s).
Proof.
  destruct (Z.leb_spec 0 (indexOf c s)) as [H|H].
  - destruct (indexOf_found c s H) as (pre & rest & E & Hn & Hl).
    rewrite <- Hl, Nat2Z.id. rewrite E at 1.
    rewrite firstn_app, firstn_all, Nat.sub_diag. simpl.
    rewrite app_nil_r. assumption.
  - replace (Z.to_nat (indexOf c s)) with 0%nat by lia. simpl. tauto.
Qed.

Lemma substring_from_index (c : code) (s : jsstring) (b : Z) :
  (0 <= indexOf c s < b)%Z ->
  exists body, substring s (indexOf c s) b = c :: body.
Proof.
  intros H.
  destruct (indexOf_found c s (proj1 H)) as (pre & rest & E & Hn & Hl).
  rewrite <- Hl in *. subst s. unfold substring.
  rewrite length_app. simpl length.
  replace (Z.to_nat (Z.min _ _)) with (length pre) by lia.
  rewrite skipn_app, skipn_all, Nat.sub_diag. simpl skipn. simpl app.
  remember (Z.to_nat _) as n eqn:En.
  destruct n as [|n]; [lia|]. simpl. eauto.
Qed.

Lemma substring_to_last (c : code) (s : jsstring) (a : Z) :
  (0 <= a <= lastIndexOf c s)%Z ->
  exists body, substring s a (lastIndexOf c s + 1) = body ++ [c].
Proof.
  intros H.
  assert (H0 : (0 <= lastIndexOf c s)%Z) by lia.
  destruct (lastIndexOf_found c s H0) as (pre & rest & E & Hn & Hl).
  rewrite <- Hl in *. subst s. unfold substring.
  rewrite length_app. simpl length.
  replace (Z.to_nat (Z.min _ _)) with (Z.to_nat a) by lia.
  replace (Z.to_nat (_ - _)) with (S (length pre - Z.to_nat a)) by lia.
  rewrite skipn_app.
  replace (Z.to_nat a - length pre)%nat with 0%nat by lia. simpl skipn.
  rewrite firstn_app.
  rewrite length_skipn.
  replace (S (length pre - Z.to_nat a) - (length pre - Z.to_nat a))%nat
    with 1%nat by lia.
  simpl (firstn 1 _).
  exists (skipn (Z.to_nat a) pre). f_equal.
  apply firstn_all2. rewrite length_skipn. lia.
Qed.

(** ** Splitting *)

Lemma startsWith_app (p s : jsstring) : startsWith p (p ++ s) = true.
Proof.
  induction p as [|a p IH]; simpl; [reflexivity|].
  rewrite code_eqb_refl. exact IH.
Qed.

Lemma startsWith_head_neq (c0 c : code) (p s : jsstring) :
  c <> c0 -> startsWith (c0 :: p) (c :: s) = false.
Proof.
  intros H. simpl. apply code_eqb_neq in H.
  unfold code_eqb in *. rewrite N.eqb_sym, H. reflexivity.
Qed.

Lemma split_go_nonempty (sep : jsstring) (k : nat) (s : jsstring) :
  split_go sep k s <> [].
Proof.
  revert k. induction s as [|c r IH]; intros k; simpl; [discriminate|].
  destruct k as [|k]; [|apply IH].
  destruct (startsWith sep (c :: r)); [discriminate|].
  destruct (split_go sep 0 r); discriminate.
Qed.

Lemma split_go_skip (sep x s : jsstring) :
  split_go sep (length x) (x ++ s) = split_go sep 0 s.
Proof.
  induction x as [|a x IH]; simpl; [reflexivity|exact IH].
Qed.

(** A separator at the front ends an empty piece. *)
Lemma split_sep (sep s : jsstring) :
  sep <> [] -> split sep (sep ++ s) = [] :: split sep s.
Proof.
  intros H. unfold split. destruct sep as [|c0 sp]; [congruence|].
  change ((c0 :: sp) ++ s) with (c0 :: (sp ++ s)).
  cbn [split_go].
  change (c0 :: sp ++ s) with ((c0 :: sp) ++ s).
  rewrite startsWith_app. f_equal.
  replace (length (c0 :: sp) - 1)%nat with (length sp) by (simpl; lia).
  apply split_go_skip.
Qed.

(** Code units that cannot start a separator extend the current piece. *)
Lemma split_prefix (c0 : code) (sp l s : jsstring) :
  ~ In c0 l ->
  split (c0 :: sp) (l ++ s)
  = match split (c0 :: sp) s with
    | p :: ps => (l ++ p) :: ps
    | [] => [l]
    end.
Proof.
  unfold split. induction l as [|c l IH]; intros Hn.
  - simpl app. destruct (split_go (c0 :: sp) 0 s) eqn:E; [|reflexivity].
    exfalso. exact (split_go_nonempty _ _ _ E).
  - change ((c :: l) ++ s) with (c :: (l ++ s)).
    cbn [split_go].
    rewrite startsWith_head_neq by (intros ->; apply Hn; left; reflexivity).
    rewrite IH by (intros Hin; apply Hn; right; exact Hin).
    destruct (split_go (c0 :: sp) 0 s); reflexivity.
Qed.

Lemma split_nil (sep : jsstring) : split sep [] = [[]].
Proof. reflexivity. Qed.

Lemma split_none (c0 : code) (sp l : jsstring) :
  ~ In c0 l -> split (c0 :: sp) l = [l].
Proof.
  intros H. rewrite <- (app_nil_r l) at 1.
  rewrite split_prefix by assumption. rewrite split_nil, app_nil_r.
  reflexivity.
Qed.

Lemma split_one (c0 : code) (sp l s : jsstring) :
  ~ In c0 l ->
  split (c0 :: sp) (l ++ (c0 :: sp) ++ s) = l :: split (c0 :: sp) s.
Proof.
  intros H. rewrite split_prefix by assumption.
  rewrite split_sep by discriminate. rewrite app_nil_r. reflexivity.
Qed.

(** ** Digits *)

Lemma isDigit_bounds (c : code) :
  isDigit c = true <-> (48 <= c <= 57)%N.
Proof.
  unfold isDigit. rewrite andb_true_iff, !N.leb_le. tauto.
Qed.

Lemma digit_not_space (c : code) : isDigit c = true -> isSpace c = false.
Proof.
  intros H. apply isDigit_bounds in H. unfold isSpace.
  repeat match goal with
         | |- context [(?a <=? ?b)%N] =>
             destruct (N.leb_spec a b)
         | |- context [(?a =? ?b)%N] =>
             destruct (N.eqb_spec a b)
         end; try reflexivity; lia.
Qed.

Lemma digits_avoid (d : code) (s : jsstring) :
  isDigit d = false -> Forall (fun c => isDigit c = true) s -> ~ In d s.
Proof.
  intros Hd Hs Hin. rewrite Forall_forall in Hs.
  specialize (Hs d Hin). congruence.
Qed.

Lemma takeDigits_app (s r : jsstring) :
  Forall (fun c => isDigit c = true) s ->
  match r with c :: _ => isDigit c = false | [] => True end ->
  takeDigits (s ++ r) = s /\ dropDigits (s ++ r) = r.
Proof.
  intros Hs Hr. induction Hs as [|c s Hc Hs IH]; simpl.
  - destruct r as [|c r]; [split; reflexivity|].
    simpl. rewrite Hr. split; reflexivity.
  - rewrite Hc. destruct IH as [-> ->]. split; reflexivity.
Qed.

Lemma takeDigits_all (s : jsstring) :
  Forall (fun c => isDigit c = true) s ->
  takeDigits s = s /\ dropDigits s = [].
Proof.
  intros Hs. rewrite <- (app_nil_r s) at 1 3.
  apply takeDigits_app; [assumption|exact I].
Qed.

Lemma parseInt10_digits (s : jsstring) :
  digitString s -> parseInt10 s = Fin (valueOf s).
Proof.
  intros [Hne Hs]. destruct s as [|c s]; [congruence|].
  assert (Hc : isDigit c = true) by (inversion Hs; assumption).
  unfold parseInt10. simpl trimStart. rewrite (digit_not_space c Hc).
  unfold readSign.
  destruct (code_eqb c (ch "-")) eqn:E1.
  { apply code_eqb_eq in E1. subst c. discriminate Hc. }
  destruct (code_eqb c (ch "+")) eqn:E2.
  { apply code_eqb_eq in E2. subst c. discriminate Hc. }
  destruct (takeDigits_all (c :: s) Hs) as [-> _].
  reflexivity.
Qed.

Lemma parseFloat_digits (s f : jsstring) :
  digitString s -> Forall (fun c => isDigit c = true) f ->
  parseFloat (s ++ ch "." :: f)
  = Fin ((valueOf s + fractionOf f) * Qpower 10 0).
Proof.
  intros [Hne Hs] Hf. destruct s as [|c s]; [congruence|].
  assert (Hc : isDigit c = true) by (inversion Hs; assumption).
  unfold parseFloat.
  change ((c :: s) ++ ch "." :: f) with (c :: (s ++ ch "." :: f)).
  simpl trimStart. rewrite (digit_not_space c Hc).
  unfold readSign.
  destruct (code_eqb c (ch "-")) eqn:E1.
  { apply code_eqb_eq in E1. subst c. discriminate Hc. }
  destruct (code_eqb c (ch "+")) eqn:E2.
  { apply code_eqb_eq in E2. subst c. discriminate Hc. }
  change (js "Infinity") with (73%N :: js "nfinity").
  rewrite startsWith_head_neq by (intros ->; discriminate Hc).
  change (c :: s ++ 46%N :: f) with ((c :: s) ++ 46%N :: f).
  destruct (takeDigits_app (c :: s) (46%N :: f) Hs) as [-> ->];
    [reflexivity|].
  change (code_eqb 46%N (ch ".")) with true. cbv iota.
  destruct (takeDigits_all f Hf) as [-> ->].
  simpl readExponent. unfold signed, valueOf, fractionOf.
  destruct f; reflexivity.
Qed.

(** ** [parseTimeString] on well-formed timestamps *)

Lemma replaceFirst_skip (c d : code) (l s : jsstring) :
  ~ In c l -> replaceFirst c d (l ++ s) = l ++ replaceFirst c d s.
Proof.
  induction l as [|a l IH]; intros H; simpl; [reflexivity|].
  destruct (code_eqb a c) eqn:E.
  - apply code_eqb_eq in E. exfalso. apply H. left. exact E.
  - rewrite IH; [reflexivity|]. intros Hin. apply H. right. exact Hin.
Qed.

Lemma replaceFirst_none (c d : code) (l : jsstring) :
  ~ In c l -> replaceFirst c d l = l.
Proof.
  intros H. rewrite <- (app_nil_r l) at 1.
  rewrite replaceFirst_skip by assumption. simpl. apply app_nil_r.
Qed.

(** No digit run contains a given non-digit; also through a decimal point. *)
Lemma not_in_seconds (d : code) (S F : jsstring) :
  isDigit d = false -> d <> 46%N ->
  Forall (fun c => isDigit c = true) S ->
  Forall (fun c => isDigit c = true) F ->
  ~ In d (S ++ 46%N :: F).
Proof.
  intros Hd Hp HS HF Hin. apply in_app_or in Hin.
  destruct Hin as [Hin|[Hin|Hin]].
  - exact (digits_avoid d S Hd HS Hin).
  - congruence.
  - exact (digits_avoid d F Hd HF Hin).
Qed.

Lemma normalize_seconds (S F : jsstring) (sep : code) :
  Forall (fun c => isDigit c = true) S ->
  Forall (fun c => isDigit c = true) F ->
  sep = ch "." \/ sep = ch "," ->
  replaceFirst (ch ",") (ch ".") (S ++ sep :: F) = S ++ 46%N :: F.
Proof.
  intros HS HF Hsep.
  rewrite replaceFirst_skip by (apply digits_avoid; [reflexivity|exact HS]).
  f_equal. destruct Hsep as [-> | ->]; simpl; [|reflexivity].
  f_equal. apply replaceFirst_none.
  apply digits_avoid; [reflexivity|exact HF].
Qed.

Lemma parseTimeString_hms (H M S F : jsstring) (sep : code) :
  digitString H -> digitString M -> digitString S ->
  Forall (fun c => isDigit c = true) F ->
  sep = ch "." \/ sep = ch "," ->
  exists r,
    parseTimeString (H ++ js ":" ++ M ++ js ":" ++ S ++ sep :: F) = Fin r /\
    r == valueOf H * 3600 + valueOf M * 60 + valueOf S + fractionOf F.
Proof.
  intros HH HM HS HF Hsep.
  assert (HH' := proj2 HH). assert (HM' := proj2 HM).
  assert (HS' := proj2 HS).
  unfold parseTimeString.
  destruct (H ++ js ":" ++ M ++ js ":" ++ S ++ sep :: F) eqn:E.
  { destruct H; [destruct HH; congruence|discriminate E]. }
  rewrite <- E. clear E.
  change (js ":") with [58%N].
  rewrite replaceFirst_skip
    by (apply digits_avoid; [reflexivity|exact HH']).
  change ([58%N] ++ M ++ [58%N] ++ S ++ sep :: F)
    with (58%N :: (M ++ [58%N] ++ S ++ sep :: F)).
  cbn [replaceFirst]. change (code_eqb 58%N (ch ",")) with false. cbv iota.
  rewrite replaceFirst_skip
    by (apply digits_avoid; [reflexivity|exact HM']).
  change ([58%N] ++ S ++ sep :: F) with (58%N :: (S ++ sep :: F)).
  cbn [replaceFirst]. change (code_eqb 58%N (ch ",")) with false. cbv iota.
  rewrite (normalize_seconds S F sep HS' HF Hsep).
  change (H ++ 58%N :: M ++ 58%N :: S ++ 46%N :: F)
    with (H ++ [58%N] ++ M ++ [58%N] ++ S ++ 46%N :: F).
  rewrite split_one by (apply digits_avoid; [reflexivity|exact HH']).
  rewrite split_one by (apply digits_avoid; [reflexivity|exact HM']).
  rewrite split_none
    by (apply not_in_seconds; [reflexivity|discriminate|exact HS'|exact HF]).
  rewrite (parseInt10_digits H HH), (parseInt10_digits M HM).
  match goal with
  | |- context [parseFloat ?x] =>
      replace (parseFloat x) with (Fin ((valueOf S + fractionOf F) * 10 ^ 0))
        by (symmetry; exact (parseFloat_digits S F HS HF))
  end.
  cbv zeta. simpl add. eexists. split; [reflexivity|].
  unfold of_Z. simpl Qpower. ring.
Qed.


(** ** [formatSrtTime] on times below one day *)

Lemma pad2_all : forallb (fun i => padOk 2 (Z.of_nat i)) (seq 0 100) = true.
Proof. vm_compute. reflexivity. Qed.

Lemma pad3_all : forallb (fun i => padOk 3 (Z.of_nat i)) (seq 0 1000) = true.
Proof. vm_compute. reflexivity. Qed.

Lemma padOk_spec (k : nat) (n : Z) :
  (0 < k)%nat -> padOk k n = true ->
  let s := padStart0 k (intToString n) in
  digitString s /\ digitsValue 0 s = n /\ length s = k.
Proof.
  intros Hk H. cbv zeta. unfold padOk in H.
  apply andb_true_iff in H. destruct H as [H H3].
  apply andb_true_iff in H. destruct H as [H1 H2].
  apply Nat.eqb_eq in H2. apply Z.eqb_eq in H3.
  rewrite forallb_forall in H1.
  repeat split; try assumption.
  - intros E. rewrite E in H2. simpl in H2. lia.
  - apply Forall_forall. exact H1.
Qed.

Lemma pad2_spec (n : Z) :
  (0 <= n < 100)%Z ->
  let s := padStart0 2 (getterToString (Some n)) in
  digitString s /\ digitsValue 0 s = n /\ length s = 2%nat.
Proof.
  intros Hn. apply padOk_spec; [lia|].
  pose proof pad2_all as H. rewrite forallb_forall in H.
  specialize (H (Z.to_nat n)). rewrite Z2Nat.id in H by lia.
  apply H. apply in_seq. lia.
Qed.

Lemma pad3_spec (n : Z) :
  (0 <= n < 1000)%Z ->
  let s := padStart0 3 (getterToString (Some n)) in
  digitString s /\ digitsValue 0 s = n /\ length s = 3%nat.
Proof.
  intros Hn. apply padOk_spec; [lia|].
  pose proof pad3_all as H. rewrite forallb_forall in H.
  specialize (H (Z.to_nat n)). rewrite Z2Nat.id in H by lia.
  apply H. apply in_seq. lia.
Qed.

Lemma Qtrunc_floor (q : Q) : 0 <= q -> Qtrunc q = Qfloor q.
Proof.
  destruct q as [n d]. unfold Qle, Qtrunc, Qfloor. simpl. intros H.
  apply Z.quot_div_nonneg; lia.
Qed.

Lemma hms_decompose (tv : Z) :
  (0 <= tv < 86400000)%Z ->
  (3600000 * ((tv / 3600000) mod 24) + 60000 * ((tv / 60000) mod 60)
   + 1000 * ((tv / 1000) mod 60) + tv mod 1000 = tv)%Z.
Proof.
  intros H.
  assert (E1 : (tv / 3600000 = tv / 1000 / 60 / 60)%Z).
  { rewrite !Z.div_div by lia. reflexivity. }
  assert (E2 : (tv / 60000 = tv / 1000 / 60)%Z).
  { rewrite !Z.div_div by lia. reflexivity. }
  rewrite E1, E2.
  assert (Hh : (tv / 1000 / 60 / 60 < 24)%Z).
  { rewrite !Z.div_div by lia. apply Z.div_lt_upper_bound; lia. }
  assert (Hh0 : (0 <= tv / 1000 / 60 / 60)%Z).
  { repeat apply Z.div_pos; lia. }
  rewrite (Z.mod_small (tv / 1000 / 60 / 60) 24) by lia.
  pose proof (Z.div_mod tv 1000 ltac:(lia)) as D1.
  pose proof (Z.div_mod (tv / 1000) 60 ltac:(lia)) as D2.
  pose proof (Z.div_mod (tv / 1000 / 60) 60 ltac:(lia)) as D3.
  lia.
Qed.

Lemma Qtrunc_inject (z : Z) : Qtrunc (inject_Z z) = z.
Proof. unfold Qtrunc. simpl. apply Z.quot_1_r. Qed.

Lemma jsstring_eqb_eq (a b : jsstring) : jsstring_eqb a b = true -> a = b.
Proof.
  revert b. induction a as [|x a IH]; intros [|y b] H; simpl in H;
    try discriminate H; [reflexivity|].
  apply andb_true_iff in H. destruct H as [H1 H2].
  apply code_eqb_eq in H1. rewrite H1, (IH b H2). reflexivity.
Qed.

Lemma padExact_all :
  forallb (fun i => padExact (Z.of_nat i)) (seq 0 100) = true.
Proof. vm_compute. reflexivity. Qed.

Lemma padExact3_all :
  forallb (fun i => padExact3 (Z.of_nat i)) (seq 0 1000) = true.
Proof. vm_compute. reflexivity. Qed.

Lemma pad2_exact (n : Z) :
  (0 <= n < 100)%Z -> padStart0 2 (getterToString (Some n)) = twoDigits n.
Proof.
  intros Hn. apply jsstring_eqb_eq.
  pose proof padExact_all as H. rewrite forallb_forall in H.
  specialize (H (Z.to_nat n)). rewrite Z2Nat.id in H by lia.
  apply H. apply in_seq. lia.
Qed.

Lemma pad3_exact (n : Z) :
  (0 <= n < 1000)%Z -> padStart0 3 (getterToString (Some n)) = threeDigits n.
Proof.
  intros Hn. apply jsstring_eqb_eq.
  pose proof padExact3_all as H. rewrite forallb_forall in H.
  specialize (H (Z.to_nat n)). rewrite Z2Nat.id in H by lia.
  apply H. apply in_seq. lia.
Qed.

Lemma twoDigits_spec (n : Z) :
  (0 <= n < 100)%Z ->
  digitString (twoDigits n) /\ valueOf (twoDigits n) = inject_Z n.
Proof.
  intros Hn. destruct (pad2_spec n Hn) as (D & V & _).
  rewrite (pad2_exact n Hn) in *. split; [exact D|].
  unfold valueOf. rewrite V. reflexivity.
Qed.

Lemma threeDigits_spec (n : Z) :
  (0 <= n < 1000)%Z ->
  digitString (threeDigits n) /\
  fractionOf (threeDigits n) = inject_Z n / 1000.
Proof.
  intros Hn. destruct (pad3_spec n Hn) as (D & V & _).
  rewrite (pad3_exact n Hn) in *. split; [exact D|].
  unfold fractionOf. rewrite V. reflexivity.
Qed.

(** The clock fields of a time value add up to the time of day. *)
Lemma hms_wrap (tv : Z) :
  (3600000 * ((tv / 3600000) mod 24) + 60000 * ((tv / 60000) mod 60)
   + 1000 * ((tv / 1000) mod 60) + tv mod 1000 = tv mod 86400000)%Z.
Proof.
  set (d := (tv mod 86400000)%Z).
  assert (Hd : (0 <= d < 86400000)%Z) by (apply Z.mod_pos_bound; lia).
  assert (E : (tv = d + (tv / 86400000) * 86400000)%Z).
  { pose proof (Z.div_mod tv 86400000 ltac:(lia)). unfold d. lia. }
  set (k := (tv / 86400000)%Z) in *.
  assert (E1 : ((tv / 3600000) mod 24 = (d / 3600000) mod 24)%Z).
  { rewrite E. replace (d + k * 86400000)%Z with (d + (k * 24) * 3600000)%Z
      by lia.
    rewrite Z.div_add by lia. rewrite Z.mod_add by lia. reflexivity. }
  assert (E2 : ((tv / 60000) mod 60 = (d / 60000) mod 60)%Z).
  { rewrite E. replace (d + k * 86400000)%Z with (d + (k * 1440) * 60000)%Z
      by lia.
    rewrite Z.div_add by lia.
    replace (d / 60000 + k * 1440)%Z with (d / 60000 + (k * 24) * 60)%Z
      by lia.
    rewrite Z.mod_add by lia. reflexivity. }
  assert (E3 : ((tv / 1000) mod 60 = (d / 1000) mod 60)%Z).
  { rewrite E. replace (d + k * 86400000)%Z with (d + (k * 86400) * 1000)%Z
      by lia.
    rewrite Z.div_add by lia.
    replace (d / 1000 + k * 86400)%Z with (d / 1000 + (k * 1440) * 60)%Z
      by lia.
    rewrite Z.mod_add by lia. reflexivity. }
  assert (E4 : (tv mod 1000 = d mod 1000)%Z).
  { rewrite E. replace (d + k * 86400000)%Z with (d + (k * 86400) * 1000)%Z
      by lia.
    rewrite Z.mod_add by lia. reflexivity. }
  rewrite E1, E2, E3, E4. apply hms_decompose. exact Hd.
Qed.


Lemma clock_bounds (tv : Z) :
  (0 <= (tv / 3600000) mod 24 < 24)%Z /\ (0 <= (tv / 60000) mod 60 < 60)%Z /\
  (0 <= (tv / 1000) mod 60 < 60)%Z /\ (0 <= tv mod 1000 < 1000)%Z.
Proof. repeat split; apply Z.mod_pos_bound; lia. Qed.

(** ** Rounding to binary64 *)

Lemma pow2_pos (z : Z) : 0 < 2 ^ z.
Proof. apply Qpower.Qpower_0_lt. reflexivity. Qed.

Lemma pow2_succ (z : Z) : 2 ^ (z + 1) == 2 * 2 ^ z.
Proof.
  rewrite Qpower.Qpower_plus by discriminate. change (2 ^ 1) with 2. ring.
Qed.

Lemma pow2_pred (z : Z) : 2 * 2 ^ (z - 1) == 2 ^ z.
Proof.
  rewrite <- pow2_succ. replace (z - 1 + 1)%Z with z by lia. reflexivity.
Qed.

Lemma pow2_Z (z : Z) : (0 <= z)%Z -> 2 ^ z == inject_Z (2 ^ z).
Proof. intros H. rewrite Qpower.Zpower_Qpower by exact H. reflexivity. Qed.

Lemma pow2_le (a b : Z) : (a <= b)%Z -> 2 ^ a <= 2 ^ b.
Proof. intros H. apply Qpower.Qpower_le_compat_l; [exact H|discriminate]. Qed.

Lemma pow2_lt_inv (a b : Z) : 2 ^ a < 2 ^ b -> (a < b)%Z.
Proof. intros H. apply (Qpower.Qpower_lt_compat_l_inv 2); [exact H|reflexivity]. Qed.

(** For a non-positive Binary64.exponent the power is the inverse of an integer. *)
Lemma pow2_inv (e : Z) :
  (e <= 0)%Z -> inject_Z (2 ^ (- e)) * 2 ^ e == 1.
Proof.
  intros H. rewrite <- pow2_Z by lia. rewrite Qpower.Qpower_opp.
  field. intros E. pose proof (pow2_pos e) as P. rewrite E in P.
  discriminate P.
Qed.

Lemma floorLog2_spec (q : Q) :
  0 < q -> 2 ^ Binary64.floorLog2 q <= q /\ q < 2 ^ (Binary64.floorLog2 q + 1).
Proof.
  intros Hq. destruct q as [n d].
  assert (Hn : (0 < n)%Z) by (unfold Qlt in Hq; simpl in Hq; lia).
  unfold Binary64.floorLog2. cbn [Qnum Qden].
  set (a := Z.log2 n). set (b := Z.log2 (Zpos d)).
  assert (Ha : (0 <= a)%Z) by apply Z.log2_nonneg.
  assert (Hb : (0 <= b)%Z) by apply Z.log2_nonneg.
  destruct (Z.log2_spec n Hn) as [A1 A2]. fold a in A1, A2.
  destruct (Z.log2_spec (Zpos d) ltac:(lia)) as [B1 B2]. fold b in B1, B2.
  rewrite Z.pow_succ_r in A2, B2 by assumption.
  assert (A : 2 ^ (a - b) * inject_Z (2 ^ b) == inject_Z (2 ^ a)).
  { rewrite <- !pow2_Z by assumption.
    rewrite <- Qpower.Qpower_plus by discriminate.
    replace (a - b + b)%Z with a by lia. reflexivity. }
  assert (Pa : (0 < 2 ^ a)%Z) by (apply Z.pow_pos_nonneg; lia).
  assert (Pb : (0 < 2 ^ b)%Z) by (apply Z.pow_pos_nonneg; lia).
  pose proof (pow2_pos (a - b)) as Pc.
  set (c := 2 ^ (a - b)) in *.
  (* everything is compared after multiplying by d * 2^b *)
  assert (Q1 : (n # d) * inject_Z (Zpos d) == inject_Z n).
  { rewrite (Qmake_Qdiv n d). field. discriminate. }
  assert (Pz : 0 < inject_Z (Zpos d) * inject_Z (2 ^ b)).
  { rewrite <- inject_Z_mult. change 0 with (inject_Z 0).
    rewrite <- Zlt_Qlt. lia. }
  assert (Up : (n # d) < 2 * c).
  { apply (proj1 (Qmult_lt_r _ _ _ Pz)).
    setoid_replace ((n # d) * (inject_Z (Zpos d) * inject_Z (2 ^ b)))
      with (inject_Z n * inject_Z (2 ^ b)) by (rewrite <- Q1; ring).
    setoid_replace (2 * c * (inject_Z (Zpos d) * inject_Z (2 ^ b)))
      with (inject_Z 2 * inject_Z (2 ^ a) * inject_Z (Zpos d))
      by (rewrite <- A; change (inject_Z 2) with 2; ring).
    rewrite <- !inject_Z_mult. rewrite <- Zlt_Qlt. nia. }
  assert (Lo : c <= 2 * (n # d)).
  { apply (proj1 (Qmult_le_r _ _ _ Pz)).
    setoid_replace (2 * (n # d) * (inject_Z (Zpos d) * inject_Z (2 ^ b)))
      with (inject_Z 2 * inject_Z n * inject_Z (2 ^ b))
      by (rewrite <- Q1; change (inject_Z 2) with 2; ring).
    setoid_replace (c * (inject_Z (Zpos d) * inject_Z (2 ^ b)))
      with (inject_Z (2 ^ a) * inject_Z (Zpos d))
      by (rewrite <- A; ring).
    rewrite <- !inject_Z_mult. rewrite <- Zle_Qle. nia. }
  destruct (Qle_bool c (n # d)) eqn:T.
  - apply Qle_bool_iff in T. split; [exact T|].
    rewrite pow2_succ. exact Up.
  - assert (T' : (n # d) < c).
    { apply Qnot_le_lt. intros H. apply Qle_bool_iff in H.
      rewrite H in T. discriminate T. }
    replace (a - b - 1 + 1)%Z with (a - b)%Z by lia. split; [|exact T'].
    pose proof (pow2_pred (a - b)) as E. fold c in E.
    lra.
Qed.

Lemma roundEven_cases (t : Q) :
  (Binary64.roundEven t = Qfloor t /\ t - inject_Z (Qfloor t) <= 1 # 2) \/
  (Binary64.roundEven t = (Qfloor t + 1)%Z /\ 1 # 2 <= t - inject_Z (Qfloor t)).
Proof.
  unfold Binary64.roundEven. cbv zeta.
  destruct (Qcompare (t - inject_Z (Qfloor t)) (1 # 2)) eqn:C.
  - apply Qeq_alt in C. destruct (Z.even (Qfloor t)).
    + left. split; [reflexivity|]. rewrite C. apply Qle_refl.
    + right. split; [reflexivity|]. rewrite C. apply Qle_refl.
  - apply Qlt_alt in C. left. split; [reflexivity|]. apply Qlt_le_weak.
    exact C.
  - apply Qgt_alt in C. right. split; [reflexivity|]. apply Qlt_le_weak.
    exact C.
Qed.

Lemma roundEven_ge (t : Q) (k : Z) :
  inject_Z k <= t -> (k <= Binary64.roundEven t)%Z.
Proof.
  intros H.
  assert (F : (k <= Qfloor t)%Z).
  { rewrite <- (Qfloor_Z k). apply Qfloor_resp_le. exact H. }
  destruct (roundEven_cases t) as [[-> _]|[-> _]]; lia.
Qed.

Lemma roundEven_le (t : Q) (k : Z) :
  t <= inject_Z k -> (Binary64.roundEven t <= k)%Z.
Proof.
  intros H. pose proof (Qfloor_le t) as L.
  destruct (roundEven_cases t) as [[-> _]|[-> G]].
  - rewrite Zle_Qle. lra.
  - assert (S : inject_Z (Qfloor t) < inject_Z k) by lra.
    rewrite <- Zlt_Qlt in S. lia.
Qed.

Lemma roundEven_near (t : Q) :
  inject_Z (Binary64.roundEven t) - t <= 1 # 2 /\ t - inject_Z (Binary64.roundEven t) <= 1 # 2.
Proof.
  pose proof (Qfloor_le t) as L. pose proof (Qlt_floor t) as U.
  rewrite inject_Z_plus in U. change (inject_Z 1) with 1 in U.
  destruct (roundEven_cases t) as [[-> G]|[-> G]].
  - split; lra.
  - rewrite inject_Z_plus. change (inject_Z 1) with 1. split; lra.
Qed.

(** The two parts of a rounded positive number. *)
Lemma roundPos_cases (q : Q) :
  let r := inject_Z (Binary64.roundEven (q / 2 ^ Binary64.exponent q)) * 2 ^ Binary64.exponent q in
  (Binary64.roundPos q = PInf /\ 2 ^ 1024 <= r) \/
  (Binary64.roundPos q = Fin r /\ r < 2 ^ 1024).
Proof.
  cbv zeta. unfold Binary64.roundPos. cbv zeta.
  destruct (Qle_bool (2 ^ 1024)
              (inject_Z (Binary64.roundEven (q / 2 ^ Binary64.exponent q)) * 2 ^ Binary64.exponent q))
    eqn:T.
  - left. split; [reflexivity|]. apply Qle_bool_iff. exact T.
  - right. split; [reflexivity|]. apply Qnot_le_lt. intros H.
    apply Qle_bool_iff in H. rewrite H in T. discriminate T.
Qed.

Lemma scaled (q : Q) (e : Z) : q / 2 ^ e * 2 ^ e == q.
Proof.
  field. intros E. pose proof (pow2_pos e) as P. rewrite E in P.
  discriminate P.
Qed.

Lemma exponent_pos (q : Q) :
  0 < q -> (0 < Binary64.exponent q)%Z -> 2 ^ (Binary64.exponent q + 52) <= q.
Proof.
  intros Hq He. unfold Binary64.exponent in *.
  destruct (floorLog2_spec q Hq) as [L _].
  replace (Z.max (-1074) (Binary64.floorLog2 q - 52) + 52)%Z with (Binary64.floorLog2 q)
    by lia.
  exact L.
Qed.

(** An integer below 2^53 on one side of [q] stays on that side of the
    rounded [q]. *)
Lemma roundPos_ge (q : Q) (k : Z) :
  0 < q -> (k < 2 ^ 53)%Z -> inject_Z k <= q ->
  Binary64.roundPos q = PInf \/ exists r, Binary64.roundPos q = Fin r /\ inject_Z k <= r.
Proof.
  intros Hq Hk H.
  destruct (roundPos_cases q) as [[E _]|[E _]]; [left; exact E|].
  right. eexists. split; [exact E|].
  set (e := Binary64.exponent q). pose proof (pow2_pos e) as P.
  destruct (Z.le_gt_cases e 0) as [He|He].
  - pose proof (pow2_inv e He) as I.
    assert (G : (k * 2 ^ (- e) <= Binary64.roundEven (q / 2 ^ e))%Z).
    { apply roundEven_ge. rewrite inject_Z_mult.
      apply (proj1 (Qmult_le_r _ _ _ P)).
      rewrite scaled.
      setoid_replace (inject_Z k * inject_Z (2 ^ (- e)) * 2 ^ e)
        with (inject_Z k * (inject_Z (2 ^ (- e)) * 2 ^ e)) by ring.
      rewrite I. lra. }
    rewrite Zle_Qle in G. rewrite inject_Z_mult in G.
    apply (Qmult_le_compat_r _ _ (2 ^ e)) in G; [|lra].
    setoid_replace (inject_Z k * inject_Z (2 ^ (- e)) * 2 ^ e)
      with (inject_Z k * (inject_Z (2 ^ (- e)) * 2 ^ e)) in G by ring.
    rewrite I in G. lra.
  - pose proof (exponent_pos q Hq He) as L. fold e in L.
    assert (G : (2 ^ 52 <= Binary64.roundEven (q / 2 ^ e))%Z).
    { apply roundEven_ge.
      apply (proj1 (Qmult_le_r _ _ _ P)). rewrite scaled.
      rewrite Qpower.Qpower_plus in L by discriminate.
      change (2 ^ 52) with (inject_Z (2 ^ 52)) in L. lra. }
    rewrite Zle_Qle in G.
    apply (Qmult_le_compat_r _ _ (2 ^ e)) in G; [|lra].
    assert (T : 2 ^ 1 <= 2 ^ e) by (apply pow2_le; lia).
    change (2 ^ 1) with 2 in T.
    assert (K : inject_Z k < inject_Z (2 ^ 53)) by (rewrite <- Zlt_Qlt; exact Hk).
    assert (M : inject_Z (2 ^ 53) == inject_Z (2 ^ 52) * 2) by reflexivity.
    assert (N : 0 < inject_Z (2 ^ 52)) by reflexivity.
    assert (inject_Z (2 ^ 52) * 2 <= inject_Z (2 ^ 52) * 2 ^ e)
      by (apply Qmult_le_l; assumption).
    lra.
Qed.

Lemma roundPos_le (q : Q) (k : Z) :
  0 < q -> (k < 2 ^ 53)%Z -> q <= inject_Z k ->
  exists r, Binary64.roundPos q = Fin r /\ r <= inject_Z k.
Proof.
  intros Hq Hk H.
  set (e := Binary64.exponent q). pose proof (pow2_pos e) as P.
  assert (K : inject_Z k < inject_Z (2 ^ 53))
    by (rewrite <- Zlt_Qlt; exact Hk).
  assert (He : (e <= 0)%Z).
  { destruct (Z.le_gt_cases e 0) as [He|He]; [exact He|].
    pose proof (exponent_pos q Hq He) as L. fold e in L.
    assert (T : 2 ^ (e + 52) < 2 ^ 53).
    { change (2 ^ 53) with (inject_Z (2 ^ 53)). lra. }
    apply pow2_lt_inv in T. lia. }
  pose proof (pow2_inv e He) as I.
  assert (G : (Binary64.roundEven (q / 2 ^ e) <= k * 2 ^ (- e))%Z).
  { apply roundEven_le. rewrite inject_Z_mult.
    apply (proj1 (Qmult_le_r _ _ _ P)).
    rewrite scaled.
    setoid_replace (inject_Z k * inject_Z (2 ^ (- e)) * 2 ^ e)
      with (inject_Z k * (inject_Z (2 ^ (- e)) * 2 ^ e)) by ring.
    rewrite I. lra. }
  rewrite Zle_Qle in G. rewrite inject_Z_mult in G.
  apply (Qmult_le_compat_r _ _ (2 ^ e)) in G; [|lra].
  setoid_replace (inject_Z k * inject_Z (2 ^ (- e)) * 2 ^ e)
    with (inject_Z k * (inject_Z (2 ^ (- e)) * 2 ^ e)) in G by ring.
  rewrite I in G.
  destruct (roundPos_cases q) as [[_ B]|[E _]].
  - fold e in B. exfalso.
    assert (T : inject_Z (2 ^ 53) < 2 ^ 1024) by reflexivity. lra.
  - eexists. split; [exact E|]. fold e. lra.
Qed.

(** The rounding error is at most half a unit in the last place. *)
Lemma roundPos_error (q r : Q) :
  Binary64.roundPos q = Fin r ->
  r - q <= 2 ^ Binary64.exponent q / 2 /\ q - r <= 2 ^ Binary64.exponent q / 2.
Proof.
  intros E. destruct (roundPos_cases q) as [[E' _]|[E' _]];
    [rewrite E in E'; discriminate E'|].
  rewrite E in E'. injection E' as ->.
  set (e := Binary64.exponent q). pose proof (pow2_pos e) as P.
  destruct (roundEven_near (q / 2 ^ e)) as [N1 N2].
  pose proof (scaled q e) as S.
  set (m := inject_Z (Binary64.roundEven (q / 2 ^ e))) in *.
  set (t := q / 2 ^ e) in *.
  apply (Qmult_le_compat_r _ _ (2 ^ e)) in N1; [|lra].
  apply (Qmult_le_compat_r _ _ (2 ^ e)) in N2; [|lra].
  split.
  - setoid_replace (m * 2 ^ e - q) with ((m - t) * 2 ^ e)
      by (rewrite <- S; ring).
    setoid_replace (2 ^ e / 2) with ((1 # 2) * 2 ^ e) by field.
    exact N1.
  - setoid_replace (q - m * 2 ^ e) with ((t - m) * 2 ^ e)
      by (rewrite <- S at 1; ring).
    setoid_replace (2 ^ e / 2) with ((1 # 2) * 2 ^ e) by field.
    exact N2.
Qed.

Lemma round_pos (q : Q) : 0 < q -> Binary64.round q = Binary64.roundPos q.
Proof.
  intros H. unfold Binary64.round.
  replace (Qcompare q 0) with Gt; [reflexivity|].
  symmetry. apply Qgt_alt. exact H.
Qed.

Lemma round_zero (q : Q) : q == 0 -> Binary64.round q = Fin 0.
Proof.
  intros H. unfold Binary64.round.
  replace (Qcompare q 0) with Eq; [reflexivity|].
  symmetry. apply Qeq_alt. exact H.
Qed.

(** A non-negative number below 2^53 is rounded to a number between the
    integers next to it. *)
Lemma round_between (q : Q) (K : Z) :
  0 <= q -> q <= inject_Z K -> (K < 2 ^ 53)%Z ->
  exists r,
    Binary64.round q = Fin r /\ 0 <= r /\
    inject_Z (Qfloor q) <= r /\ r <= inject_Z (Qceiling q) /\
    r <= inject_Z K.
Proof.
  intros H0 HK HB.
  destruct (Qle_lt_or_eq _ _ H0) as [Hp|Hz].
  - rewrite (round_pos q Hp).
    assert (Cq : (Qceiling q <= K)%Z).
    { rewrite <- (Qceiling_Z K). apply Qceiling_resp_le. exact HK. }
    destruct (roundPos_le q (Qceiling q) Hp ltac:(lia) (Qle_ceiling q))
      as (r & E & U).
    exists r. split; [exact E|].
    assert (F0 : (0 <= Qfloor q)%Z).
    { change 0%Z with (Qfloor 0). apply Qfloor_resp_le. exact H0. }
    assert (Fq : (Qfloor q < 2 ^ 53)%Z).
    { pose proof (Qfloor_le q) as L.
      assert (inject_Z (Qfloor q) <= inject_Z K) by lra.
      rewrite <- Zle_Qle in H. lia. }
    destruct (roundPos_ge q (Qfloor q) Hp Fq (Qfloor_le q))
      as [I|(r' & E' & L)]; [rewrite E in I; discriminate I|].
    rewrite E in E'. injection E' as <-.
    assert (inject_Z 0 <= inject_Z (Qfloor q))
      by (rewrite <- Zle_Qle; exact F0).
    change (inject_Z 0) with 0 in *.
    assert (inject_Z (Qceiling q) <= inject_Z K)
      by (rewrite <- Zle_Qle; exact Cq).
    repeat split; lra.
  - assert (Ez : q == 0) by (symmetry; exact Hz).
    rewrite (round_zero q Ez). exists 0. split; [reflexivity|].
    assert (F : Qfloor q = 0%Z) by (rewrite (Qfloor_comp _ _ Ez); reflexivity).
    assert (C : Qceiling q = 0%Z)
      by (rewrite (Qceiling_comp _ _ Ez); reflexivity).
    rewrite F, C. change (inject_Z 0) with 0. repeat split; lra.
Qed.




(** ** The date of the formatters *)

(** When the zone is steady at the millisecond value, the date that
    [setMilliseconds] leaves is that value, if it is in range. *)
Lemma setMilliseconds_steady (host : Date.Host) (q : Q) :
  zoneSteadyAt host (Qtrunc q) ->
  Date.setMilliseconds host Date.epoch (Fin q)
  = if (Z.abs (Qtrunc q) <=? Date.maxTime)%Z then Some (Qtrunc q) else None.
Proof.
  intros [Hms Hoff].
  unfold Date.setMilliseconds, Date.epoch, Date.LocalTime, Date.MakeTime,
    Date.MakeDate, Date.UTC, Date.TimeClip, Date.Day, Date.HourFromTime,
    Date.MinFromTime, Date.SecFromTime.
  cbv zeta. cbn [option_map]. rewrite Z.add_0_l.
  set (o := Date.LocalTZA host 0 true) in *.
  assert (E : (o / 86400000 * 86400000
               + ((o / 3600000) mod 24 * 3600000
                  + (o / 60000) mod 60 * 60000
                  + (o / 1000) mod 60 * 1000 + Qtrunc q)
               = o + Qtrunc q)%Z).
  { pose proof (hms_wrap o) as W.
    pose proof (Z.div_mod o 86400000 ltac:(lia)) as D. lia. }
  rewrite E, Hoff.
  replace (o + Qtrunc q - o)%Z with (Qtrunc q) by lia. reflexivity.
Qed.

Lemma setMilliseconds_invalid (host : Date.Host) (ms : number) :
  ms = NaN \/ ms = PInf \/ ms = NInf ->
  Date.setMilliseconds host Date.epoch ms = None.
Proof. intros [H | [H | H]]; rewrite H; reflexivity. Qed.

Lemma timeValue_product (x : Q) (k : Z) :
  timeValue x = Some k ->
  exists r, Binary64.mul (Fin x) (of_Z 1000) = Fin r /\ Qtrunc r = k.
Proof.
  unfold timeValue. intros H.
  destruct (Binary64.mul (Fin x) (of_Z 1000)) as [| | |r];
    try discriminate H.
  injection H as H. exists r. split; [reflexivity|exact H].
Qed.

Lemma timeValue_none (x : Q) :
  timeValue x = None ->
  Binary64.mul (Fin x) (of_Z 1000) = NaN \/
  Binary64.mul (Fin x) (of_Z 1000) = PInf \/
  Binary64.mul (Fin x) (of_Z 1000) = NInf.
Proof.
  unfold timeValue. intros H.
  destruct (Binary64.mul (Fin x) (of_Z 1000)) as [| | |r];
    try discriminate H; tauto.
Qed.

Lemma date_of_value (host : Date.Host) (x : Q) (k : Z) :
  timeValue x = Some k -> zoneSteadyAt host k ->
  Date.setMilliseconds host Date.epoch (Binary64.mul (Fin x) (of_Z 1000))
  = if (Z.abs k <=? Date.maxTime)%Z then Some k else None.
Proof.
  intros Hv Hz. destruct (timeValue_product x k Hv) as (r & E & T).
  rewrite E. subst k. apply setMilliseconds_steady. exact Hz.
Qed.

Lemma formatSrtTime_valid (host : Date.Host) (x : Q) (k : Z) :
  timeValue x = Some k -> zoneSteadyAt host k ->
  (Z.abs k <= Date.maxTime)%Z ->
  formatSrtTime host (Fin x)
  = twoDigits ((k / 3600000) mod 24) ++ js ":"
    ++ twoDigits ((k / 60000) mod 60) ++ js ":"
    ++ twoDigits ((k / 1000) mod 60)
    ++ ch "," :: threeDigits (k mod 1000).
Proof.
  intros Hv Hz Hr. unfold formatSrtTime.
  rewrite (date_of_value host x k Hv Hz).
  replace (Z.abs k <=? Date.maxTime)%Z with true
    by (symmetry; apply Z.leb_le; exact Hr).
  cbv zeta. unfold Date.getUTCHours, Date.getUTCMinutes,
    Date.getUTCSeconds, Date.getUTCMilliseconds, option_map.
  destruct (clock_bounds k) as (Bh & Bm & Bs & Bf).
  rewrite !pad2_exact by lia. rewrite pad3_exact by lia. reflexivity.
Qed.


(** What [parseTimeString] reads from a timecode with hours. *)
Lemma parse_clock (h m s f : Z) :
  (0 <= h < 100)%Z -> (0 <= m < 100)%Z -> (0 <= s < 100)%Z ->
  (0 <= f < 1000)%Z ->
  exists r,
    parseTimeString (twoDigits h ++ js ":" ++ twoDigits m ++ js ":"
                     ++ twoDigits s ++ ch "," :: threeDigits f) = Fin r /\
    r == inject_Z (3600000 * h + 60000 * m + 1000 * s + f) / 1000.
Proof.
  intros Hh Hm Hs Hf.
  destruct (twoDigits_spec h Hh) as [Dh Vh].
  destruct (twoDigits_spec m Hm) as [Dm Vm].
  destruct (twoDigits_spec s Hs) as [Ds Vs].
  destruct (threeDigits_spec f Hf) as [Df Vf].
  destruct (parseTimeString_hms (twoDigits h) (twoDigits m) (twoDigits s)
              (threeDigits f) (ch ",") Dh Dm Ds (proj2 Df))
    as (r & Er & Vr); [right; reflexivity|].
  exists r. split; [exact Er|]. rewrite Vr, Vh, Vm, Vs, Vf.
  rewrite !inject_Z_plus, !inject_Z_mult.
  change (inject_Z 3600000) with 3600000.
  change (inject_Z 60000) with 60000.
  change (inject_Z 1000) with 1000.
  field.
Qed.


(** Reading a formatted time back gives the time of day of its millisecond
    value. *)
Lemma parse_format_time (host : Date.Host) (x : Q) (k : Z) :
  timeValue x = Some k -> zoneSteadyAt host k ->
  (Z.abs k <= Date.maxTime)%Z ->
  exists r,
    parseTimeString (formatSrtTime host (Fin x)) = Fin r /\
    r == inject_Z (k mod 86400000) / 1000.
Proof.
  intros Hv Hz Hr. rewrite (formatSrtTime_valid host x k Hv Hz Hr).
  destruct (clock_bounds k) as (Bh & Bm & Bs & Bf).
  destruct (parse_clock ((k / 3600000) mod 24) ((k / 60000) mod 60)
              ((k / 1000) mod 60) (k mod 1000))
    as (r & Er & Vr); try lia.
  exists r. split; [exact Er|]. rewrite Vr, hms_wrap. reflexivity.
Qed.




(** Whatever the time and the host, a formatted time is a non-empty run of
    timecode characters. *)
Lemma formatSrtTime_text (host : Date.Host) (x : number) :
  Forall timeCode (formatSrtTime host x) /\ formatSrtTime host x <> [].
Proof.
  unfold formatSrtTime. cbv zeta.
  destruct (Date.setMilliseconds host Date.epoch
              (Binary64.mul x (of_Z 1000))) as [u|].
  - unfold Date.getUTCHours, Date.getUTCMinutes,
      Date.getUTCSeconds, Date.getUTCMilliseconds, option_map.
    destruct (clock_bounds u) as (Bh & Bm & Bs & Bf).
    rewrite !pad2_exact by lia. rewrite pad3_exact by lia.
    assert (D : forall X, digitString X -> Forall timeCode X).
    { intros X [_ HX]. eapply Forall_impl; [|exact HX].
      intros c Hc. left. exact Hc. }
    assert (C : Forall timeCode (js ":")).
    { constructor; [right; left; reflexivity|constructor]. }
    split; [|discriminate].
    apply Forall_app; split;
      [apply D; apply twoDigits_spec; lia|].
    apply Forall_app; split; [exact C|].
    apply Forall_app; split;
      [apply D; apply twoDigits_spec; lia|].
    apply Forall_app; split; [exact C|].
    apply Forall_app; split;
      [apply D; apply twoDigits_spec; lia|].
    apply Forall_app; split.
    + constructor; [right; right; left; reflexivity|constructor].
    + apply D. apply threeDigits_spec. lia.
  - split; [|discriminate].
    unfold timeCode.
    repeat (apply Forall_cons;
            [first [ left; reflexivity
                   | right; left; reflexivity
                   | right; right; left; reflexivity
                   | right; right; right; left; reflexivity
                   | right; right; right; right; reflexivity ]|]).
    apply Forall_nil.
Qed.
Lemma parseInt10_nan (p : jsstring) :
  noIntegerPrefix p -> parseInt10 p = NaN.
Proof.
  unfold noIntegerPrefix, parseInt10.
  destruct (readSign (trimStart p)) as [neg body]. simpl.
  destruct body as [|c r]; [reflexivity|].
  intros H. simpl. rewrite H. reflexivity.
Qed.

Lemma parseFloat_nan (p : jsstring) :
  noDecimalPrefix p -> parseFloat p = NaN.
Proof.
  unfold noDecimalPrefix, parseFloat.
  destruct (readSign (trimStart p)) as [neg body]. simpl snd.
  intros [Hinf H]. rewrite Hinf.
  destruct body as [|c r]; [reflexivity|].
  destruct H as [Hc Hdot]. simpl takeDigits. simpl dropDigits. rewrite Hc.
  destruct (code_eqb c (ch ".")) eqn:E; [|reflexivity].
  apply code_eqb_eq in E. specialize (Hdot E).
  destruct r as [|d r']; [reflexivity|].
  simpl. rewrite Hdot. reflexivity.
Qed.

Lemma add_nan_r (a : number) : add a NaN = NaN.
Proof. destruct a; reflexivity. Qed.

(** ** Reading a subtitle file block by block *)

Lemma parseBlock_spec (segments : list SubtitleSegment) (supply : nat)
    (block : jsstring) :
  parseBlock (segments, supply) block
  = match blockRecord block with
    | Some (a, b, t) =>
        (segments ++
           [ {| id := supply; startTime := a; endTime := b; text := t |} ],
         S supply)
    | None => (segments, supply)
    end.
Proof.
  unfold parseBlock, blockRecord.
  destruct (split LF (trim block)) as [|l0 [|l1 [|l2 rest]]];
    try reflexivity.
  cbn [length Nat.leb nth skipn].
  destruct (split (js " --> ") l1) as [|p0 [|p1 ps]];
    [reflexivity|destruct p0; reflexivity|].
  destruct p0 as [|c0 p0]; [reflexivity|].
  destruct p1 as [|c1 p1]; reflexivity.
Qed.

Lemma parseBlocks_spec (blocks : list jsstring) :
  forall (segments : list SubtitleSegment) (supply : nat),
  exists new,
    fold_left parseBlock blocks (segments, supply)
    = (segments ++ new, (supply + length new)%nat) /\
    map recordOf new
    = flat_map (fun b => match blockRecord b with
                         | Some r => [r]
                         | None => []
                         end) blocks /\
    map id new = seq supply (length new).
Proof.
  induction blocks as [|b blocks IH]; intros segments supply.
  - exists []. simpl. rewrite app_nil_r, Nat.add_0_r. auto.
  - cbn [fold_left flat_map]. rewrite parseBlock_spec.
    destruct (blockRecord b) as [[[x y] t]|].
    + destruct (IH (segments ++
                      [ {| id := supply; startTime := x; endTime := y;
                           text := t |} ]) (S supply))
        as (new & E & R & I).
      exists ({| id := supply; startTime := x; endTime := y; text := t |}
              :: new).
      rewrite E. rewrite <- app_assoc. simpl.
      repeat split.
      * f_equal. lia.
      * unfold recordOf at 1. simpl. f_equal. exact R.
      * f_equal. exact I.
    + destruct (IH segments supply) as (new & E & R & I).
      exists new. auto.
Qed.

(** ** Trimming *)

Lemma trimStart_length (s : jsstring) :
  (length (trimStart s) <= length s)%nat.
Proof.
  induction s as [|c r IH]; simpl; [lia|].
  destruct (isSpace c); simpl; lia.
Qed.

Lemma trimEnd_length (s : jsstring) :
  (length (trimEnd s) <= length s)%nat.
Proof.
  induction s as [|c r IH]; simpl; [lia|].
  destruct (trimEnd r); [destruct (isSpace c)|]; simpl in *; lia.
Qed.

Lemma trimEnd_snoc_space (s : jsstring) (c : code) :
  isSpace c = true -> trimEnd (s ++ [c]) = trimEnd s.
Proof.
  intros H. induction s as [|a s IH]; simpl.
  - rewrite H. reflexivity.
  - rewrite IH. reflexivity.
Qed.

Lemma trimEnd_app_fixed (pre t : jsstring) :
  trimEnd t = t -> t <> [] -> trimEnd (pre ++ t) = pre ++ t.
Proof.
  intros Ht Hne. induction pre as [|a pre IH]; simpl; [exact Ht|].
  rewrite IH. destruct (pre ++ t) eqn:E; [|reflexivity].
  apply app_eq_nil in E. tauto.
Qed.

(** A trimmed non-blank text starts with something visible and has nothing
    to trim at its end. *)
Lemma trimmed_text (t : jsstring) :
  trim t = t -> t <> [] ->
  (exists c r, t = c :: r /\ isSpace c = false) /\ trimEnd t = t.
Proof.
  intros Ht Hne. destruct t as [|c r]; [congruence|].
  destruct (isSpace c) eqn:E.
  - exfalso. unfold trim in Ht. simpl trimStart in Ht. rewrite E in Ht.
    pose proof (trimEnd_length (trimStart r)) as L1.
    pose proof (trimStart_length r) as L2.
    rewrite Ht in L1. simpl in L1. lia.
  - split; [eauto|].
    unfold trim in Ht. simpl trimStart in Ht. rewrite E in Ht. exact Ht.
Qed.

Lemma trim_fixed (pre t : jsstring) (c : code) :
  isSpace c = false -> trimEnd t = t -> t <> [] ->
  trim (c :: pre ++ t) = c :: pre ++ t.
Proof.
  intros Hc Ht Hne. unfold trim. simpl trimStart. rewrite Hc.
  exact (trimEnd_app_fixed (c :: pre) t Ht Hne).
Qed.

(** ** Sequence numbers and formatted times as text *)

Lemma digitsOf_digits (fuel : nat) :
  forall (n : N) (acc : jsstring),
    Forall (fun c => isDigit c = true) acc ->
    Forall (fun c => isDigit c = true) (digitsOf fuel n acc).
Proof.
  induction fuel as [|f IH]; intros n acc Hacc; simpl; [exact Hacc|].
  assert (Hd : isDigit (48 + n mod 10)%N = true).
  { apply isDigit_bounds.
    pose proof (N.mod_upper_bound n 10%N ltac:(discriminate)) as Hm.
    revert Hm. generalize (n mod 10)%N. intros m Hm. lia. }
  destruct (n <? 10)%N; [|apply IH]; constructor; assumption.
Qed.

Lemma digitsOf_nonempty (fuel : nat) :
  forall (n : N) (acc : jsstring),
    (fuel <> 0)%nat \/ acc <> [] -> digitsOf fuel n acc <> [].
Proof.
  induction fuel as [|f IH]; intros n acc H; simpl.
  - destruct H; [congruence|assumption].
  - destruct (n <? 10)%N; [discriminate|].
    apply IH. right. discriminate.
Qed.

Lemma intToString_digits (z : Z) :
  (0 <= z)%Z -> digitString (intToString z).
Proof.
  intros H. unfold intToString.
  destruct (Z.ltb_spec z 0); [lia|]. split.
  - apply digitsOf_nonempty. left. discriminate.
  - apply digitsOf_digits. constructor.
Qed.


Lemma timeCode_avoid (d : code) (s : jsstring) :
  isDigit d = false -> d <> 58%N -> d <> 44%N -> d <> 78%N -> d <> 97%N ->
  Forall timeCode s -> ~ In d s.
Proof.
  intros Hd H1 H2 H3 H4 Hs Hin. rewrite Forall_forall in Hs.
  destruct (Hs d Hin) as [H|[H|[H|[H|H]]]]; congruence.
Qed.

(** ** Line endings *)

Lemma replaceCRLF_none (s : jsstring) : ~ In 13%N s -> replaceCRLF s = s.
Proof.
  induction s as [|c r IH]; intros H; [reflexivity|].
  cbn [replaceCRLF].
  destruct (code_eqb c 13%N) eqn:E.
  - apply code_eqb_eq in E. exfalso. apply H. left. exact E.
  - rewrite IH; [reflexivity|]. intros Hin. apply H. right. exact Hin.
Qed.

Lemma replaceCR_none (s : jsstring) : ~ In 13%N s -> replaceCR s = s.
Proof.
  induction s as [|c r IH]; intros H; [reflexivity|].
  unfold replaceCR in *. simpl.
  destruct (code_eqb c 13%N) eqn:E.
  - apply code_eqb_eq in E. exfalso. apply H. left. exact E.
  - rewrite IH; [reflexivity|]. intros Hin. apply H. right. exact Hin.
Qed.

(** ** Blank lines between three-line blocks *)

Lemma extendFirst_app (a b : jsstring) (pieces : list jsstring) :
  extendFirst a (extendFirst b pieces) = extendFirst (a ++ b) pieces.
Proof.
  destruct pieces; simpl; rewrite <- ?app_assoc; reflexivity.
Qed.

Lemma split_extend (c0 : code) (sp l s : jsstring) :
  ~ In c0 l ->
  split (c0 :: sp) (l ++ s) = extendFirst l (split (c0 :: sp) s).
Proof. apply split_prefix. Qed.

Lemma split_single_lf (c : code) (s : jsstring) :
  c <> 10%N ->
  split [10%N; 10%N] (10%N :: c :: s)
  = extendFirst [10%N] (split [10%N; 10%N] (c :: s)).
Proof.
  intros H. unfold split. cbn [split_go].
  replace (startsWith [10%N; 10%N] (10%N :: c :: s)) with false.
  2:{ cbn [startsWith]. rewrite code_eqb_refl.
      replace (code_eqb 10%N c) with false; [reflexivity|].
      symmetry. apply code_eqb_neq. congruence. }
  destruct (split_go [10%N; 10%N] 0 (c :: s)) eqn:E; [|reflexivity].
  exfalso. exact (split_go_nonempty _ _ _ E).
Qed.

Lemma split_three_lines (l1 l2 l3 X : jsstring) :
  l2 <> [] -> l3 <> [] ->
  ~ In 10%N l1 -> ~ In 10%N l2 -> ~ In 10%N l3 ->
  split [10%N; 10%N] ((l1 ++ LF ++ l2 ++ LF ++ l3) ++ X)
  = extendFirst (l1 ++ LF ++ l2 ++ LF ++ l3) (split [10%N; 10%N] X).
Proof.
  intros N2 N3 H1 H2 H3. unfold LF.
  destruct l2 as [|c2 l2]; [congruence|].
  destruct l3 as [|c3 l3]; [congruence|].
  assert (C2 : c2 <> 10%N) by (intros ->; apply H2; left; reflexivity).
  assert (C3 : c3 <> 10%N) by (intros ->; apply H3; left; reflexivity).
  replace ((l1 ++ [10%N] ++ (c2 :: l2) ++ [10%N] ++ c3 :: l3) ++ X)
    with (l1 ++ 10%N :: c2 :: (l2 ++ 10%N :: c3 :: (l3 ++ X))).
  2:{ repeat (rewrite <- app_assoc; simpl). reflexivity. }
  rewrite split_extend by assumption.
  rewrite split_single_lf by assumption.
  change (c2 :: l2 ++ 10%N :: c3 :: l3 ++ X)
    with ((c2 :: l2) ++ 10%N :: c3 :: (l3 ++ X)).
  rewrite split_extend by assumption.
  rewrite split_single_lf by assumption.
  change (c3 :: l3 ++ X) with ((c3 :: l3) ++ X).
  rewrite split_extend by assumption.
  rewrite !extendFirst_app. f_equal.
  repeat (rewrite <- app_assoc; simpl). reflexivity.
Qed.

(** ** The blocks that [generateSrt] writes *)

Lemma arrow_avoid (d : code) :
  d <> 32%N -> d <> 45%N -> d <> 62%N -> ~ In d (js " --> ").
Proof.
  intros H1 H2 H3 Hin. simpl in Hin.
  repeat (destruct Hin as [Hin|Hin]; [congruence|]). exact Hin.
Qed.

Lemma timecode_avoid (d : code) (fa fb : jsstring) :
  isDigit d = false -> d <> 58%N -> d <> 44%N -> d <> 78%N -> d <> 97%N ->
  d <> 32%N -> d <> 45%N -> d <> 62%N ->
  Forall timeCode fa -> Forall timeCode fb ->
  ~ In d (fa ++ js " --> " ++ fb).
Proof.
  intros Hd H1 H2 N1 N2 H3 H4 H5 Ha Hb Hin.
  apply in_app_or in Hin. destruct Hin as [Hin|Hin].
  - exact (timeCode_avoid d fa Hd H1 H2 N1 N2 Ha Hin).
  - apply in_app_or in Hin. destruct Hin as [Hin|Hin].
    + exact (arrow_avoid d H3 H4 H5 Hin).
    + exact (timeCode_avoid d fb Hd H1 H2 N1 N2 Hb Hin).
Qed.

(** What the round trip uses of a segment with an exportable text and of
    its block, whatever its times are. *)
Lemma exportable_parts (host : Date.Host) (i : nat)
    (seg : SubtitleSegment) :
  exportableText seg ->
  let idx := intToString (Z.of_nat i + 1) in
  let fa := formatSrtTime host (startTime seg) in
  let fb := formatSrtTime host (endTime seg) in
  digitString idx /\
  Forall timeCode fa /\ Forall timeCode fb /\ fa <> [] /\ fb <> [] /\
  trimEnd (text seg) = text seg /\ text seg <> [] /\
  ~ In 10%N (text seg) /\ ~ In 13%N (text seg).
Proof.
  intros (Ht & Hne & [Hlf Hcr]). cbv zeta.
  destruct (formatSrtTime_text host (startTime seg)) as [Ta Na].
  destruct (formatSrtTime_text host (endTime seg)) as [Tb Nb].
  destruct (trimmed_text (text seg) Ht Hne) as [_ Hte].
  repeat split; try assumption.
  - apply intToString_digits. lia.
  - apply intToString_digits. lia.
Qed.

Lemma srtBody_trim (host : Date.Host) (i : nat) (seg : SubtitleSegment) :
  exportableText seg ->
  trim (srtBody host i seg) = srtBody host i seg /\
  trim (srtBody host i seg ++ LF) = srtBody host i seg.
Proof.
  intros Hx.
  destruct (exportable_parts host i seg Hx)
    as ([Hi Di] & Ta & Tb & Na & Nb & Hte & Hne & Hlf & Hcr).
  unfold srtBody.
  destruct (intToString (Z.of_nat i + 1)) as [|c idx] eqn:E;
    [congruence|].
  assert (Hc : isSpace c = false).
  { apply digit_not_space. inversion Di; assumption. }
  set (tc := formatSrtTime host (startTime seg) ++ js " --> "
             ++ formatSrtTime host (endTime seg)).
  assert (Efix : trim ((c :: idx) ++ LF ++ tc ++ LF ++ text seg)
                 = (c :: idx) ++ LF ++ tc ++ LF ++ text seg).
  { replace ((c :: idx) ++ LF ++ tc ++ LF ++ text seg)
      with (c :: (idx ++ LF ++ tc ++ LF) ++ text seg)
      by (simpl; repeat (rewrite <- app_assoc; simpl); reflexivity).
    apply trim_fixed; assumption. }
  split; [exact Efix|].
  rewrite <- Efix at 2. unfold trim.
  set (body := idx ++ LF ++ tc ++ LF ++ text seg).
  change ((c :: idx) ++ LF ++ tc ++ LF ++ text seg) with (c :: body).
  change ((c :: body) ++ LF) with (c :: (body ++ LF)).
  simpl trimStart. rewrite Hc.
  exact (trimEnd_snoc_space (c :: body) 10%N eq_refl).
Qed.

Lemma blockRecord_body (host : Date.Host) (i : nat)
    (seg : SubtitleSegment) (blk : jsstring) :
  exportableText seg -> trim blk = srtBody host i seg ->
  blockRecord blk = Some (readBackRecord host seg).
Proof.
  intros Hx Hb.
  destruct (exportable_parts host i seg Hx)
    as ([Hi Di] & Ta & Tb & Na & Nb & Hte & Hne & Hlf & Hcr).
  unfold blockRecord. rewrite Hb. unfold srtBody, LF.
  rewrite split_one by (apply digits_avoid; [reflexivity|exact Di]).
  rewrite split_one
    by (apply timecode_avoid; (reflexivity || discriminate || assumption)).
  rewrite split_none by assumption.
  destruct (text seg) as [|t0 tx] eqn:Et; [congruence|].
  change (js " --> ") with (32%N :: js "--> ").
  rewrite split_one
    by (apply timeCode_avoid; (reflexivity || discriminate || assumption)).
  rewrite split_none
    by (apply timeCode_avoid; (reflexivity || discriminate || assumption)).
  destruct (formatSrtTime host (startTime seg)) as [|a0 fa] eqn:Ea;
    [congruence|].
  destruct (formatSrtTime host (endTime seg)) as [|b0 fb] eqn:Eb;
    [congruence|].
  unfold readBackRecord. rewrite Ea, Eb, Et. reflexivity.
Qed.

Lemma srtBlocks_cons (host : Date.Host) (i : nat) (seg : SubtitleSegment)
    (rest : list SubtitleSegment) :
  exportableText seg ->
  srtBlocks host i (seg :: rest)
  = (srtBody host i seg ++ LF) :: srtBlocks host (S i) rest.
Proof.
  intros (Ht & _). cbn [srtBlocks]. f_equal. rewrite Ht.
  unfold srtBody. repeat (rewrite <- app_assoc; simpl). reflexivity.
Qed.

Lemma srtBody_split (host : Date.Host) (i : nat) (seg : SubtitleSegment)
    (X : jsstring) :
  exportableText seg ->
  split [10%N; 10%N] (srtBody host i seg ++ X)
  = extendFirst (srtBody host i seg) (split [10%N; 10%N] X).
Proof.
  intros Hx.
  destruct (exportable_parts host i seg Hx)
    as ([Hi Di] & Ta & Tb & Na & Nb & Hte & Hne & Hlf & Hcr).
  unfold srtBody. apply split_three_lines.
  - intros E. apply app_eq_nil in E. tauto.
  - assumption.
  - apply digits_avoid; [reflexivity|exact Di].
  - apply timecode_avoid; (reflexivity || discriminate || assumption).
  - assumption.
Qed.

Lemma join_cons2 (sep p q : jsstring) (ps : list jsstring) :
  join sep (p :: q :: ps) = p ++ sep ++ join sep (q :: ps).
Proof. reflexivity. Qed.

Lemma records_of_generated (host : Date.Host)
    (segments : list SubtitleSegment) :
  forall i,
    Forall exportableText segments ->
    flat_map (fun b => match blockRecord b with
                       | Some r => [r]
                       | None => []
                       end)
      (split [10%N; 10%N] (join LF (srtBlocks host i segments)))
    = map (readBackRecord host) segments.
Proof.
  induction segments as [|seg rest IH]; intros i Hall; [reflexivity|].
  inversion Hall as [|? ? Hx Hrest]; subst.
  rewrite (srtBlocks_cons host i seg rest Hx).
  destruct (srtBody_trim host i seg Hx) as [T1 T2].
  destruct rest as [|seg' rest'].
  - cbn [srtBlocks join]. unfold LF in T2.
    change (srtBody host i seg ++ LF) with (srtBody host i seg ++ [10%N]).
    rewrite (srtBody_split host i seg [10%N] Hx).
    change (split [10%N; 10%N] [10%N]) with [[10%N]].
    cbn [extendFirst flat_map map].
    rewrite (blockRecord_body host i seg _ Hx T2). reflexivity.
  - specialize (IH (S i) Hrest).
    inversion Hrest as [|? ? Hx' _]; subst.
    rewrite (srtBlocks_cons host (S i) seg' rest' Hx') in *.
    rewrite join_cons2.
    replace ((srtBody host i seg ++ LF) ++ LF
             ++ join LF ((srtBody host (S i) seg' ++ LF)
                         :: srtBlocks host (S (S i)) rest'))
      with (srtBody host i seg ++ [10%N; 10%N]
            ++ join LF ((srtBody host (S i) seg' ++ LF)
                        :: srtBlocks host (S (S i)) rest'))
      by (unfold LF; rewrite <- app_assoc; reflexivity).
    rewrite (srtBody_split host i seg _ Hx).
    rewrite split_sep by discriminate.
    cbn [extendFirst flat_map map]. rewrite app_nil_r.
    rewrite (blockRecord_body host i seg _ Hx T1).
    rewrite IH. reflexivity.
Qed.

Lemma not_in_app (d : code) (a b : jsstring) :
  ~ In d a -> ~ In d b -> ~ In d (a ++ b).
Proof.
  intros Ha Hb Hin. apply in_app_or in Hin. tauto.
Qed.

Lemma generated_no_cr (host : Date.Host)
    (segments : list SubtitleSegment) :
  forall i,
    Forall exportableText segments ->
    ~ In 13%N (join LF (srtBlocks host i segments)).
Proof.
  induction segments as [|seg rest IH]; intros i Hall; [simpl; tauto|].
  inversion Hall as [|? ? Hx Hrest]; subst.
  rewrite (srtBlocks_cons host i seg rest Hx).
  destruct (exportable_parts host i seg Hx)
    as ([Hi Di] & Ta & Tb & Na & Nb & Hte & Hne & Hlf & Hcr).
  assert (Hbody : ~ In 13%N (srtBody host i seg ++ LF)).
  { assert (Hlf13 : ~ In 13%N LF)
      by (intros [Hin|[]]; discriminate Hin).
    unfold srtBody.
    apply not_in_app; [|exact Hlf13].
    apply not_in_app; [apply digits_avoid; [reflexivity|exact Di]|].
    apply not_in_app; [exact Hlf13|].
    apply not_in_app;
      [apply timecode_avoid; (reflexivity || discriminate || assumption)|].
    apply not_in_app; [exact Hlf13|assumption]. }
  destruct rest as [|seg' rest'].
  - exact Hbody.
  - specialize (IH (S i) Hrest).
    assert (Hx' : exportableText seg') by (inversion Hrest; assumption).
    rewrite (srtBlocks_cons host (S i) seg' rest' Hx') in *.
    rewrite join_cons2.
    intros Hin. apply in_app_or in Hin. destruct Hin as [Hin|Hin];
      [tauto|].
    apply in_app_or in Hin. destruct Hin as [Hin|Hin]; [|tauto].
    simpl in Hin. destruct Hin as [Hin|[]]. discriminate Hin.
Qed.

(** ** Quantisation of samples *)

Lemma Qtrunc_nonpos (q : Q) : q <= 0 -> Qtrunc q = (- Qfloor (- q))%Z.
Proof.
  destruct q as [n d]. unfold Qle, Qtrunc, Qfloor, Qopp. simpl. intros H.
  rewrite <- (Z.quot_div_nonneg (- n) (Zpos d)) by lia.
  rewrite Z.quot_opp_l by lia. lia.
Qed.

Lemma Qtrunc_comp (x y : Q) : x == y -> Qtrunc x = Qtrunc y.
Proof.
  intros E. destruct (Qlt_le_dec x 0) as [H|H].
  - rewrite !Qtrunc_nonpos by lra.
    f_equal. apply Qfloor_comp. rewrite E. reflexivity.
  - rewrite !Qtrunc_floor by lra. apply Qfloor_comp. exact E.
Qed.

Lemma Qtrunc_range (q : Q) (lo hi : Z) :
  (lo <= 0 <= hi)%Z -> inject_Z lo <= q -> q <= inject_Z hi ->
  (lo <= Qtrunc q <= hi)%Z.
Proof.
  intros Hz Hlo Hhi. destruct (Qlt_le_dec q 0) as [H|H].
  - rewrite Qtrunc_nonpos by lra.
    assert (L : (0 <= Qfloor (- q))%Z).
    { change 0%Z with (Qfloor 0). apply Qfloor_resp_le. lra. }
    assert (U : (Qfloor (- q) <= - lo)%Z).
    { rewrite <- (Qfloor_Z (- lo)). apply Qfloor_resp_le.
      rewrite inject_Z_opp. lra. }
    lia.
  - rewrite Qtrunc_floor by lra.
    assert (L : (0 <= Qfloor q)%Z).
    { change 0%Z with (Qfloor 0). apply Qfloor_resp_le. lra. }
    assert (U : (Qfloor q <= hi)%Z).
    { rewrite <- (Qfloor_Z hi). apply Qfloor_resp_le. lra. }
    lia.
Qed.

Lemma toInt16_range (x : number) :
  (-32768 <= toInt16 x <= 32767)%Z.
Proof.
  destruct x as [| | |q]; simpl; try lia.
  pose proof (Z.mod_pos_bound (Qtrunc q) 65536 ltac:(lia)) as B.
  destruct (Z.leb_spec 32768 (Qtrunc q mod 65536)); lia.
Qed.

Lemma toInt16_small (q : Q) :
  (-32768 <= Qtrunc q <= 32767)%Z -> toInt16 (Fin q) = Qtrunc q.
Proof.
  intros H. simpl.
  destruct (Z.leb_spec 0 (Qtrunc q)) as [Hp|Hn].
  - rewrite Z.mod_small by lia.
    destruct (Z.leb_spec 32768 (Qtrunc q)); lia.
  - assert (E : (Qtrunc q mod 65536 = Qtrunc q + 65536)%Z).
    { symmetry. apply (Z.mod_unique _ _ (-1)); lia. }
    rewrite E.
    destruct (Z.leb_spec 32768 (Qtrunc q + 65536)); lia.
Qed.

Lemma clamp_range (q : Q) : -1 <= clamp q /\ clamp q <= 1.
Proof.
  unfold clamp. destruct (Qlt_le_dec q (-1)); [lra|].
  destruct (Qlt_le_dec 1 q); lra.
Qed.

Lemma Qcompare_lt (x y : Q) : x < y -> (x ?= y) = Lt.
Proof. intros H. apply Qlt_alt. exact H. Qed.

(** The code's scaled sample is the clamped sample times its scale. *)
Lemma scaleSample_clamp (q : Q) :
  exists y,
    scaleSample (Fin q) = Fin y /\
    y == clamp q * (if Qlt_le_dec (clamp q) 0 then 32768 else 32767).
Proof.
  unfold scaleSample, Num.min, Num.max, Num.lt, of_Z, clamp.
  change (inject_Z 1) with 1. change (inject_Z (-1)) with (-1).
  change (inject_Z 0) with 0.
  change (inject_Z 32768) with 32768. change (inject_Z 32767) with 32767.
  destruct (Qlt_le_dec q (-1)) as [L1|L1].
  - rewrite (Qcompare_lt q 1) by lra.
    destruct (-1 ?= q) eqn:C1;
      try (apply Qlt_alt in C1; lra).
    + apply Qeq_alt in C1. lra.
    + rewrite (Qcompare_lt (-1) 0) by lra. simpl mul.
      destruct (Qlt_le_dec (-1) 0); [|lra].
      eexists. split; [reflexivity|]. reflexivity.
  - destruct (Qlt_le_dec 1 q) as [L2|L2].
    + destruct (q ?= 1) eqn:C2; try (apply Qlt_alt in C2; lra).
      * rewrite (Qcompare_lt (-1) 1) by lra.
        destruct (1 ?= 0) eqn:C3; try discriminate C3.
        simpl mul. destruct (Qlt_le_dec 1 0); [lra|].
        eexists. split; reflexivity.
      * rewrite (Qcompare_lt (-1) 1) by lra.
        destruct (1 ?= 0) eqn:C3; try discriminate C3.
        simpl mul. destruct (Qlt_le_dec 1 0); [lra|].
        eexists. split; reflexivity.
    + destruct (q ?= 1) eqn:C2.
      * apply Qeq_alt in C2.
        rewrite (Qcompare_lt (-1) 1) by lra.
        destruct (1 ?= 0) eqn:C3; try discriminate C3.
        simpl mul. destruct (Qlt_le_dec q 0); [lra|].
        eexists. split; [reflexivity|]. rewrite C2. reflexivity.
      * destruct (-1 ?= q) eqn:C1.
        -- apply Qeq_alt in C1.
           rewrite (Qcompare_lt (-1) 0) by lra. simpl mul.
           destruct (Qlt_le_dec q 0); [|lra].
           eexists. split; [reflexivity|]. rewrite <- C1. reflexivity.
        -- destruct (q ?= 0) eqn:C0; simpl mul;
             destruct (Qlt_le_dec q 0) as [L0|L0];
             try (eexists; split; reflexivity).
           ++ apply Qeq_alt in C0. lra.
           ++ apply Qlt_alt in C0. lra.
           ++ apply Qgt_alt in C0. lra.
        -- apply Qgt_alt in C1. lra.
      * apply Qgt_alt in C2. lra.
Qed.

Lemma quantized_range (q : Q) : (-32768 <= quantized q <= 32767)%Z.
Proof.
  unfold quantized. cbv zeta. destruct (clamp_range q) as [L U].
  destruct (Qlt_le_dec (clamp q) 0) as [H|H].
  - assert (B : (-32768 <= Qtrunc (clamp q * 32768) <= 0)%Z).
    { apply Qtrunc_range; [lia| |].
      - change (inject_Z (-32768)) with (-32768). lra.
      - change (inject_Z 0) with 0. lra. }
    lia.
  - assert (B : (0 <= Qtrunc (clamp q * 32767) <= 32767)%Z).
    { apply Qtrunc_range; [lia| |].
      - change (inject_Z 0) with 0. lra.
      - change (inject_Z 32767) with 32767. lra. }
    lia.
Qed.

Lemma toInt16_scaleSample (q : Q) :
  toInt16 (scaleSample (Fin q)) = quantized q.
Proof.
  destruct (scaleSample_clamp q) as (y & E & V). rewrite E.
  pose proof (quantized_range q) as R. unfold quantized in *.
  cbv zeta in *.
  destruct (Qlt_le_dec (clamp q) 0);
    rewrite <- (Qtrunc_comp _ _ V) in *; apply toInt16_small; exact R.
Qed.

(** ** The bytes of the container *)

Lemma store_app_r (pre l : list Z) (k : nat) (b : Z) :
  store (length pre + k) b (pre ++ l) = pre ++ store k b l.
Proof.
  induction pre as [|a pre IH]; simpl; [reflexivity|].
  rewrite IH. reflexivity.
Qed.

Lemma setUint16_at (pre post : list Z) (a0 a1 v : Z) :
  setUint16 (pre ++ a0 :: a1 :: post) (length pre) v
  = Ok (pre ++ le16 v ++ post).
Proof.
  unfold setUint16.
  replace (length pre + 2 <=? length (pre ++ a0 :: a1 :: post))%nat
    with true
    by (symmetry; apply Nat.leb_le; rewrite length_app; simpl; lia).
  f_equal.
  rewrite <- (Nat.add_0_r (length pre)) at 2.
  rewrite store_app_r. simpl store.
  rewrite store_app_r. reflexivity.
Qed.

Lemma writeSamples_at (xs : list number) :
  forall pre : list Z,
    writeSamples (pre ++ repeat 0%Z (length xs * 2)) (length pre) xs
    = Ok (pre ++ flat_map sampleBytes xs).
Proof.
  induction xs as [|x xs IH]; intros pre; [reflexivity|].
  cbn [writeSamples length Nat.mul Nat.add repeat flat_map].
  unfold setInt16. rewrite setUint16_at. cbn [bind].
  replace (length pre + 2)%nat
    with (length (pre ++ le16 (toInt16 (scaleSample x) mod 65536)))
    by (rewrite length_app; reflexivity).
  replace (pre ++ le16 (toInt16 (scaleSample x) mod 65536)
           ++ repeat 0%Z (length xs * 2))
    with ((pre ++ le16 (toInt16 (scaleSample x) mod 65536))
          ++ repeat 0%Z (length xs * 2))
    by (rewrite <- app_assoc; reflexivity).
  rewrite IH. unfold sampleBytes at 2. rewrite <- app_assoc. reflexivity.
Qed.

Lemma wavContainer_bytes (channelData : list number) :
  wavContainer channelData
  = Ok (wavHeader (Z.of_nat (length channelData))
        ++ flat_map sampleBytes channelData).
Proof.
  unfold wavContainer. cbv zeta. rewrite repeat_app.
  set (tail := repeat 0%Z (length channelData * 2)).
  set (len := Z.of_nat (length channelData)).
  cbn -[Z.modulo Z.div Z.mul Z.add writeSamples tail].
  match goal with
  | |- writeSamples ?buf 44 _ = _ =>
      let pre := constr:(firstn 44 buf) in
      let pre' := eval cbn -[Z.modulo Z.div Z.mul Z.add tail] in pre in
      change buf with (pre' ++ tail);
      change 44%nat with (length pre')
  end.
  unfold tail. rewrite writeSamples_at. reflexivity.
Qed.

Lemma wavHeader_length (n : Z) : length (wavHeader n) = 44%nat.
Proof. reflexivity. Qed.

Lemma sampleBytes_length (xs : list number) :
  length (flat_map sampleBytes xs) = (2 * length xs)%nat.
Proof.
  induction xs as [|x xs IH]; simpl; [reflexivity|]. rewrite IH. lia.
Qed.

(** ** Reading segments back *)


(** ** Reading the container back *)


Lemma int16_bytes (v : Z) :
  (-32768 <= v <= 32767)%Z ->
  let u := ((v mod 65536) mod 256
            + 256 * (((v mod 65536) / 256) mod 256))%Z in
  (if (32768 <=? u)%Z then u - 65536 else u)%Z = v.
Proof.
  intros H. cbv zeta.
  pose proof (Z.mod_pos_bound v 65536 ltac:(lia)) as B.
  set (m := (v mod 65536)%Z) in *.
  assert (Em : (m mod 256 + 256 * ((m / 256) mod 256) = m)%Z).
  { rewrite (Z.mod_small (m / 256) 256).
    - pose proof (Z.div_mod m 256 ltac:(lia)). lia.
    - split; [apply Z.div_pos; lia|].
      apply Z.div_lt_upper_bound; lia. }
  rewrite Em.
  destruct (Z.leb_spec 0 v) as [Hp|Hn].
  - assert (E : m = v) by (apply Z.mod_small; lia).
    rewrite E. destruct (Z.leb_spec 32768 v); lia.
  - assert (E : m = (v + 65536)%Z).
    { symmetry. apply (Z.mod_unique _ _ (-1)); lia. }
    rewrite E. destruct (Z.leb_spec 32768 (v + 65536)); lia.
Qed.



(** ** The frame count and the sample hosts *)

Lemma frames_between (y : Q) :
  1 <= y -> y <= 4294967295 ->
  exists r,
    Binary64.round y = Fin r /\ 0 <= r /\
    (1 <= Qfloor r)%Z /\ (Qfloor r <= 4294967295)%Z /\
    (Qfloor y <= Qfloor r)%Z /\ (Qfloor r <= Qceiling y)%Z.
Proof.
  intros Hlo Hhi.
  destruct (round_between y 4294967295 ltac:(lra) Hhi ltac:(lia))
    as (r & E & R0 & L & U & K).
  exists r. split; [exact E|]. split; [exact R0|].
  assert (F1 : (1 <= Qfloor y)%Z).
  { change 1%Z with (Qfloor 1). apply Qfloor_resp_le. exact Hlo. }
  assert (F3 : (Qfloor y <= Qfloor r)%Z).
  { rewrite <- (Qfloor_Z (Qfloor y)). apply Qfloor_resp_le. exact L. }
  assert (F2 : (Qfloor r <= 4294967295)%Z).
  { rewrite <- (Qfloor_Z 4294967295). apply Qfloor_resp_le. exact K. }
  assert (F4 : (Qfloor r <= Qceiling y)%Z).
  { rewrite <- (Qfloor_Z (Qceiling y)). apply Qfloor_resp_le. exact U. }
  repeat split; lia.
Qed.

Lemma utcHost_steady_at (k : Z) : zoneSteadyAt utcHost k.
Proof. split; reflexivity. Qed.

(** A change of the zone within the local day of the epoch breaks the
    reading back: on [shiftHost], 50000 seconds are written an hour
    early. *)
Lemma shifted_zone_breaks_reading :
  formatSrtTime shiftHost (Fin 50000) = js "12:53:20,000" /\
  ~ withinMillisecond 50000
      (parseTimeString (formatSrtTime shiftHost (Fin 50000))).
Proof.
  split; [vm_compute; reflexivity|].
  vm_compute. intros H. discriminate H.
Qed.

Lemma dstHost_steady : zoneSteady dstHost 0 86399999.
Proof.
  intros k Hk. split; [reflexivity|].
  change (Date.LocalTZA dstHost 0 true) with (-21600000)%Z.
  unfold dstHost. cbn [Date.LocalTZA].
  destruct (Z.leb_spec 9936000000 (-21600000 + k)); [lia|reflexivity].
Qed.
(* ================================================================== *)
(** * Part III -- the claims                                           *)
(* ================================================================== *)

(** C1 (the code departs from the claim).  Whenever the recovered payload
    parses as a list with zero records, [generateSubtitles] fails with the
    parse-failure message and not with the "No speech detected." message:
    the exception raised for the empty list is thrown inside the [try]
    block whose [catch] replaces every exception by the parse failure. *)
Theorem empty_list_reports_parse_failure (key raw : jsstring) (supply : nat) :
  key <> [] -> raw <> [] ->
  JSON.parse (sanitizeAndRepairJson raw) = Ok (JArr []) ->
  fst (generateSubtitles (Some key) (Ok (Some raw)) supply)
  = Throw (Error MSG_PARSE) /\
  Error MSG_PARSE <> Error MSG_NO_SPEECH.
Proof.
  intros Hk Hr Hp. split; [|discriminate].
  unfold generateSubtitles.
  destruct key as [|k key]; [congruence|].
  destruct raw as [|c raw]; [congruence|].
  cbv zeta. rewrite Hp. reflexivity.
Qed.

Lemma empty_list_reports_parse_failure_witness :
  fst (generateSubtitles (Some (js "key")) (Ok (Some (js "[]"))) 0)
  = Throw (Error MSG_PARSE) /\
  Error MSG_PARSE <> Error MSG_NO_SPEECH.
Proof.
  apply (empty_list_reports_parse_failure (js "key") (js "[]") 0).
  - discriminate.
  - discriminate.
  - vm_compute. reflexivity.
Defined.




(** C3, as the claim states it, fails: an input with a bracket before a
    fenced block is recovered from the block, not from its own first
    bracket. *)
Lemma truncated_recovery_counterexample :
  ~ (forall pre mid tail,
       js "[{} ```x```" = pre ++ ch "[" :: mid ++ ch "}" :: tail ->
       ~ In (ch "[") pre ->
       ~ In (ch "]") (mid ++ ch "}" :: tail) ->
       ~ In (ch "}") tail ->
       sanitizeAndRepairJson (js "[{} ```x```") = ch "[" :: mid ++ js "}]").
Proof.
  intros H.
  specialize (H [] (js "{") (js " ```x```") eq_refl).
  assert (E : sanitizeAndRepairJson (js "[{} ```x```") = js "[]")
    by (vm_compute; reflexivity).
  rewrite E in H.
  assert (D : js "[]" = ch "[" :: js "{" ++ js "}]"); [|discriminate D].
  apply H.
  - simpl. tauto.
  - simpl. intros Hin.
    repeat (destruct Hin as [Hin|Hin]; [discriminate Hin|]). exact Hin.
  - simpl. intros Hin.
    repeat (destruct Hin as [Hin|Hin]; [discriminate Hin|]). exact Hin.
Qed.

(** C3, amended.  Let the cleaned text be the trimmed input or, when the
    input has a fenced block with content, the trimmed content of its first
    fenced block (it is the trimmed input when there is no fence marker).
    If the cleaned text contains a [[] and no []] after the first one, the
    recovered payload is the slice from that [[] up to and including the
    last [}] after it, with a []] appended; if there is no such [}] it is
    the empty list.  For the truncated example the payload is the empty
    list, and with a trailing [}] it parses to exactly one record. *)
Theorem truncated_payload_recovery (text pre rest : jsstring) :
  cleanText text = pre ++ ch "[" :: rest ->
  ~ In (ch "[") pre ->
  ~ In (ch "]") rest ->
  (includes FENCE (trim text) = false -> cleanText text = trim text) /\
  (forall mid tail,
      rest = mid ++ ch "}" :: tail -> ~ In (ch "}") tail ->
      sanitizeAndRepairJson text = ch "[" :: mid ++ js "}]") /\
  (~ In (ch "}") rest -> sanitizeAndRepairJson text = js "[]") /\
  sanitizeAndRepairJson truncatedExample = js "[]" /\
  JSON.parse (sanitizeAndRepairJson truncatedExample) = Ok (JArr []) /\
  JSON.parse (sanitizeAndRepairJson (truncatedExample ++ js "}"))
  = Ok (JArr [JObj [(js "start", JStr (js "00:01.000"));
                    (js "end", JStr (js "00:02.000"));
                    (js "text", JStr (js "hi"))]]).
Proof.
  intros Hc Hpre Hrb. repeat split.
  - intros Hf. unfold cleanText. rewrite Hf. reflexivity.
  - intros mid tail -> Hbr.
    exact (sanitize_truncated_with_brace text pre mid tail Hc Hpre Hrb Hbr).
  - intros Hbr.
    exact (sanitize_truncated_without_brace text pre rest Hc Hpre Hrb Hbr).
Qed.

Lemma truncated_payload_recovery_witness :
  sanitizeAndRepairJson (truncatedExample ++ js "}")
  = ch "[" :: skipn 1 truncatedExample ++ js "}]".
Proof.
  assert (Hc : cleanText (truncatedExample ++ js "}")
               = [] ++ ch "[" :: (skipn 1 truncatedExample ++ js "}"))
    by (vm_compute; reflexivity).
  assert (Hpre : ~ In (ch "[") []) by (simpl; tauto).
  assert (Hrb : ~ In (ch "]") (skipn 1 truncatedExample ++ js "}")).
  { vm_compute. intros Hin.
    repeat (destruct Hin as [Hin|Hin]; [discriminate Hin|]). exact Hin. }
  exact (proj1 (proj2 (truncated_payload_recovery _ _ _ Hc Hpre Hrb))
           (skipn 1 truncatedExample) [] eq_refl (fun H => H)).
Defined.

(** C4, as the claim states it, fails: a non-empty string with a component
    that is not numeric, but without a colon, yields 0 and not NaN. *)
Lemma parseTimeString_malformed_counterexample :
  ~ (js "abc" <> [] -> hasNonNumericComponent (js "abc") ->
     parseTimeString (js "abc") = NaN).
Proof.
  intros H.
  assert (E : parseTimeString (js "abc") = NaN).
  { apply H; [discriminate|].
    exists (js "abc"). split; [left; reflexivity|].
    split; [reflexivity|]. split; [reflexivity|].
    simpl. split; [reflexivity|discriminate]. }
  vm_compute in E. discriminate E.
Qed.

(** C4, amended.  [parseTimeString] returns 0 for the empty string and for
    every non-empty string that does not split on [:] into exactly two or
    three components; when it splits into two or three components and one
    of them holds no number for its parser (no digits after optional white
    space and sign), the result is NaN. *)
Theorem parseTimeString_malformed (s : jsstring) :
  s <> [] ->
  let parts := split (js ":") (replaceFirst (ch ",") (ch ".") s) in
  parseTimeString [] = of_Z 0 /\
  (length parts <> 2%nat -> length parts <> 3%nat ->
   parseTimeString s = of_Z 0) /\
  (forall p0 p1 p2,
      parts = [p0; p1; p2] ->
      noIntegerPrefix p0 \/ noIntegerPrefix p1 \/ noDecimalPrefix p2 ->
      parseTimeString s = NaN) /\
  (forall p0 p1,
      parts = [p0; p1] ->
      noIntegerPrefix p0 \/ noDecimalPrefix p1 ->
      parseTimeString s = NaN).
Proof.
  intros Hne. cbv zeta. destruct s as [|c s]; [congruence|].
  unfold parseTimeString.
  set (parts := split (js ":") (replaceFirst (ch ",") (ch ".") (c :: s))).
  repeat split.
  - intros H2 H3.
    destruct parts as [|p0 [|p1 [|p2 [|p3 ps]]]];
      simpl in H2, H3; try congruence; reflexivity.
  - intros p0 p1 p2 -> [H|[H|H]].
    + rewrite (parseInt10_nan p0 H). reflexivity.
    + rewrite (parseInt10_nan p1 H). cbv zeta.
      destruct (parseInt10 p0) as [| | |q0]; simpl;
        try reflexivity;
        try (destruct (q0 ?= 0); reflexivity).
    + rewrite (parseFloat_nan p2 H). cbv zeta. apply add_nan_r.
  - intros p0 p1 -> [H|H].
    + rewrite (parseInt10_nan p0 H). reflexivity.
    + rewrite (parseFloat_nan p1 H). cbv zeta. apply add_nan_r.
Qed.

Lemma parseTimeString_malformed_witness :
  parseTimeString (js "ab:cd") = NaN.
Proof.
  refine (proj2 (proj2 (proj2 (parseTimeString_malformed (js "ab:cd") _)))
            (js "ab") (js "cd") eq_refl _).
  - discriminate.
  - left. reflexivity.
Defined.










(** C8.  Every sample is first limited to [-1, 1] and then scaled by 32768
    when negative and by 32767 otherwise; the value stored is that product
    cut toward zero, always a signed 16-bit integer, and a function of the
    sample alone.  NaN is stored as 0.  The two bytes written are its
    little-endian two's complement form. *)
Theorem sample_quantization (x : number) :
  (-32768 <= toInt16 (scaleSample x) <= 32767)%Z /\
  match x with
  | Fin q => toInt16 (scaleSample x) = quantized q
  | NaN => toInt16 (scaleSample x) = 0%Z
  | PInf => toInt16 (scaleSample x) = 32767%Z
  | NInf => toInt16 (scaleSample x) = (-32768)%Z
  end /\
  (forall (pre post : list Z) (a0 a1 : Z),
      setInt16 (pre ++ a0 :: a1 :: post) (length pre) (scaleSample x)
      = Ok (pre ++ sampleBytes x ++ post)) /\
  readInt16 (sampleBytes x) 0 = toInt16 (scaleSample x).
Proof.
  split; [apply toInt16_range|]. split; [|split].
  - destruct x as [| | |q]; try (vm_compute; reflexivity).
    apply toInt16_scaleSample.
  - intros pre post a0 a1. unfold setInt16. apply setUint16_at.
  - unfold readInt16, readLE16, sampleBytes, le16. cbn [nth Nat.add].
    apply int16_bytes. apply toInt16_range.
Qed.

(** C9, as the claim states it, fails: a block of three lines whose second
    line is not a timecode pair yields no record. *)
Lemma parseSrt_long_block_counterexample :
  ~ everyLongBlockYieldsRecord [49%N; 10%N; 102%N; 111%N; 111%N; 10%N;
                                98%N; 97%N; 114%N].
Proof. vm_compute. discriminate. Qed.

(** C9, amended.  [parseSrt] splits the text (line endings normalised) on
    blank-line boundaries and yields, in order, one record for every block
    of at least three lines whose second line splits on the arrow into a
    non-empty start and a non-empty end: the two times converted, the
    remaining lines joined with spaces as the text, and a fresh identifier;
    every other block -- in particular every block of fewer than three
    lines -- is skipped without error. *)
Theorem parseSrt_records (srtContent : jsstring) (supply : nat) :
  let out := parseSrt srtContent supply in
  map recordOf (fst out) = srtRecords srtContent /\
  map id (fst out) = seq supply (length (fst out)) /\
  NoDup (map id (fst out)) /\
  snd out = (supply + length (fst out))%nat /\
  (forall block,
      (length (split LF (trim block)) <? 3)%nat = true ->
      blockRecord block = None).
Proof.
  cbv zeta. unfold parseSrt.
  destruct (parseBlocks_spec
              (split (LF ++ LF) (replaceCR (replaceCRLF srtContent)))
              [] supply) as (new & E & R & I).
  rewrite E. simpl fst. simpl snd.
  split; [exact R|]. split; [exact I|]. split; [|split; [reflexivity|]].
  - rewrite I. apply seq_NoDup.
  - intros block Hb. unfold blockRecord.
    destruct (split LF (trim block)) as [|l0 [|l1 [|l2 rest]]];
      try reflexivity.
    simpl in Hb. discriminate Hb.
Qed.

Lemma parseSrt_records_witness :
  blockRecord (js "1") = None.
Proof.
  refine (proj2 (proj2 (proj2 (proj2 (parseSrt_records (js "1") 0))))
            (js "1") _).
  vm_compute. reflexivity.
Defined.

(** C10, as the claim states it, fails: the payload recovered from a fenced
    block is not a slice of the input that starts at the input's first
    opening bracket. *)
Lemma sanitize_slice_counterexample :
  ~ sliceFromFirstBracket (js "[x] ```[1]```")
      (sanitizeAndRepairJson (js "[x] ```[1]```")).
Proof.
  assert (E : sanitizeAndRepairJson (js "[x] ```[1]```") = js "[1]")
    by (vm_compute; reflexivity).
  rewrite E. intros [H|(pre & slice & post & Ht & Hpre & Hs)].
  - discriminate H.
  - destruct pre as [|c pre].
    + destruct Hs as [Hs|Hs].
      * subst slice. vm_compute in Ht. inversion Ht.
      * assert (Es : slice = [91%N; 49%N]).
        { vm_compute in Hs.
          destruct slice as [|s0 [|s1 [|s2 slice]]];
            simpl in Hs; try congruence.
          exfalso. injection Hs as _ _ _ Hs. destruct slice; discriminate Hs. }
        subst slice. vm_compute in Ht. inversion Ht.
    + vm_compute in Ht. injection Ht as <- _. apply Hpre. left. reflexivity.
Qed.

(** C10, amended.  For every input the recovered payload begins with [[]
    and ends with []]: it is the literal [[]], or a slice of the cleaned
    text (the trimmed input, or the trimmed content of its first fenced
    block) that starts at the first [[] of the cleaned text, with, when
    there is no closing bracket, a synthetic []] appended. *)
Theorem sanitize_bracket_delimited (text : jsstring) :
  let r := sanitizeAndRepairJson text in
  (exists body, r = ch "[" :: body) /\
  (exists body, r = body ++ [ch "]"]) /\
  sliceFromFirstBracket (cleanText text) r.
Proof.
  cbv zeta. unfold sliceFromFirstBracket, sanitizeAndRepairJson.
  set (clean := cleanText text).
  assert (Hempty : (exists body, js "[]" = ch "[" :: body) /\
                   (exists body, js "[]" = body ++ [ch "]"])).
  { split; [exists [ch "]"]|exists [ch "["]]; reflexivity. }
  cbv zeta.
  destruct (Z.eqb_spec (indexOf (ch "[") clean) (-1)) as [Hi|Hi].
  { destruct Hempty. repeat split; auto. }
  assert (Hir := indexOf_range (ch "[") clean).
  assert (Hi0 : (0 <= indexOf (ch "[") clean)%Z) by lia.
  destruct ((lastIndexOf (ch "]") clean =? -1)%Z
            || (lastIndexOf (ch "]") clean <? indexOf (ch "[") clean)%Z)
    eqn:Hl.
  - destruct (negb (lastIndexOf (ch "}") clean =? -1)%Z
              && (indexOf (ch "[") clean <? lastIndexOf (ch "}") clean)%Z)
      eqn:Hb.
    2:{ destruct Hempty. repeat split; auto. }
    apply andb_true_iff in Hb. destruct Hb as [_ Hb].
    apply Z.ltb_lt in Hb.
    assert (Hbr := lastIndexOf_range (ch "}") clean).
    destruct (substring_from_index (ch "[") clean
                (lastIndexOf (ch "}") clean + 1)) as (body & Hbody); [lia|].
    repeat split.
    + rewrite Hbody. simpl. eauto.
    + exists (substring clean (indexOf (ch "[") clean)
                (lastIndexOf (ch "}") clean + 1)). reflexivity.
    + right.
      exists (firstn (Z.to_nat (indexOf (ch "[") clean)) clean),
        (substring clean (indexOf (ch "[") clean)
           (lastIndexOf (ch "}") clean + 1)),
        (skipn (Z.to_nat (lastIndexOf (ch "}") clean + 1)) clean).
      repeat split.
      * apply substring_decomp; lia.
      * apply indexOf_firstn.
      * right. reflexivity.
  - apply orb_false_iff in Hl. destruct Hl as [_ Hl].
    apply Z.ltb_ge in Hl.
    assert (Hbr := lastIndexOf_range (ch "]") clean).
    destruct (substring_from_index (ch "[") clean
                (lastIndexOf (ch "]") clean + 1)) as (body & Hbody); [lia|].
    repeat split.
    + eauto.
    + apply substring_to_last. lia.
    + right.
      exists (firstn (Z.to_nat (indexOf (ch "[") clean)) clean),
        (substring clean (indexOf (ch "[") clean)
           (lastIndexOf (ch "]") clean + 1)),
        (skipn (Z.to_nat (lastIndexOf (ch "]") clean + 1)) clean).
      repeat split.
      * apply substring_decomp; lia.
      * apply indexOf_firstn.
      * left. reflexivity.
Qed.

(* ================================================================== *)
(** * Part IV -- further properties of the code                        *)
(* ================================================================== *)

(** ** Timecodes in general *)

Lemma dstHost_steady_at (k : Z) :
  (k < 9957600000)%Z -> zoneSteadyAt dstHost k.
Proof.
  intros Hk. split; [reflexivity|].
  change (Date.LocalTZA dstHost 0 true) with (-21600000)%Z.
  unfold dstHost. cbn [Date.LocalTZA].
  destruct (Z.leb_spec 9936000000 (-21600000 + k)); [lia|reflexivity].
Qed.

(** An integer below 2^53 is a binary64 number. *)
Lemma round_integer (q : Q) (n : Z) :
  q == inject_Z n -> (0 <= n < 2 ^ 53)%Z ->
  exists r, Binary64.round q = Fin r /\ Qtrunc r = n.
Proof.
  intros E Hn.
  assert (H0 : 0 <= q).
  { rewrite E. change 0 with (inject_Z 0). rewrite <- Zle_Qle. lia. }
  assert (HK : q <= inject_Z n) by (rewrite E; apply Qle_refl).
  destruct (round_between q n H0 HK ltac:(lia)) as (r & Er & _ & L & U & _).
  exists r. split; [exact Er|].
  rewrite (Qfloor_comp _ _ E), Qfloor_Z in L.
  rewrite (Qceiling_comp _ _ E), Qceiling_Z in U.
  rewrite <- (Qtrunc_inject n). apply Qtrunc_comp.
  apply Qle_antisym; assumption.
Qed.

(** X1.  Whenever the millisecond value (the binary64 product of the time
    and 1000, cut toward zero) is within the range of a date and the host's
    zone is steady there, [formatSrtTime] writes exactly twelve code units
    [HH:MM:SS,mmm] with [HH < 24], [MM < 60], [SS < 60] and [mmm < 1000];
    the fields add up to the millisecond value modulo one day. *)
Theorem formatSrtTime_timecode (host : Date.Host) (x : Q) (k : Z) :
  timeValue x = Some k -> (Z.abs k <= Date.maxTime)%Z ->
  zoneSteadyAt host k ->
  exists h m s f,
    (0 <= h < 24)%Z /\ (0 <= m < 60)%Z /\ (0 <= s < 60)%Z /\
    (0 <= f < 1000)%Z /\
    formatSrtTime host (Fin x)
    = twoDigits h ++ js ":" ++ twoDigits m ++ js ":" ++ twoDigits s
      ++ ch "," :: threeDigits f /\
    length (formatSrtTime host (Fin x)) = 12%nat /\
    (3600000 * h + 60000 * m + 1000 * s + f = k mod 86400000)%Z.
Proof.
  intros Hv Hr Hz.
  destruct (clock_bounds k) as (Bh & Bm & Bs & Bf).
  exists ((k / 3600000) mod 24)%Z, ((k / 60000) mod 60)%Z,
    ((k / 1000) mod 60)%Z, (k mod 1000)%Z.
  rewrite (formatSrtTime_valid host x k Hv Hz Hr).
  repeat split; try lia.
  apply hms_wrap.
Qed.

Lemma formatSrtTime_timecode_witness :
  exists h m s f,
    (0 <= h < 24)%Z /\ (0 <= m < 60)%Z /\ (0 <= s < 60)%Z /\
    (0 <= f < 1000)%Z /\
    formatSrtTime dstHost (Fin (5224175567749775 # 18014398509481984))
    = twoDigits h ++ js ":" ++ twoDigits m ++ js ":" ++ twoDigits s
      ++ ch "," :: threeDigits f /\
    length (formatSrtTime dstHost
              (Fin (5224175567749775 # 18014398509481984))) = 12%nat /\
    (3600000 * h + 60000 * m + 1000 * s + f = 290 mod 86400000)%Z.
Proof.
  apply (formatSrtTime_timecode dstHost
           (5224175567749775 # 18014398509481984) 290).
  - vm_compute. reflexivity.
  - vm_compute. discriminate.
  - apply dstHost_steady_at. lia.
Defined.





(** X4.  A time that is NaN or infinite, or whose product with 1000 is not
    finite, is written as [NaN:NaN:NaN,NaN] (and [NaN:NaN.NaN] by
    [formatTime]) on every host, and so is a time whose millisecond value
    lies beyond the range of a date on a host whose zone is steady there;
    that text is read back as NaN. *)
Theorem invalid_time_formats_as_NaN (host : Date.Host) (x : number) :
  x = NaN \/ x = PInf \/ x = NInf \/
  (exists q,
      x = Fin q /\
      (timeValue q = None \/
       exists k,
         timeValue q = Some k /\ zoneSteadyAt host k /\
         (Date.maxTime < Z.abs k)%Z)) ->
  formatSrtTime host x = js "NaN:NaN:NaN,NaN" /\
  parseTimeString (formatSrtTime host x) = NaN /\
  formatTime host x = js "NaN:NaN.NaN" /\
  parseTimeString (formatTime host x) = NaN.
Proof.
  intros H.
  assert (D : Date.setMilliseconds host Date.epoch
                (Binary64.mul x (of_Z 1000)) = None).
  { destruct H as [->|[->|[->|(q & -> & [Hn|(k & Hv & Hz & Hk)])]]];
      try reflexivity.
    - apply setMilliseconds_invalid. apply timeValue_none. exact Hn.
    - rewrite (date_of_value host q k Hv Hz).
      replace (Z.abs k <=? Date.maxTime)%Z with false; [reflexivity|].
      symmetry. apply Z.leb_gt. exact Hk. }
  unfold formatSrtTime, formatTime. rewrite D.
  repeat split; vm_compute; reflexivity.
Qed.

Lemma invalid_time_formats_as_NaN_witness :
  formatSrtTime utcHost (Fin 8640000000001) = js "NaN:NaN:NaN,NaN" /\
  parseTimeString (formatSrtTime utcHost (Fin 8640000000001)) = NaN.
Proof.
  destruct (invalid_time_formats_as_NaN utcHost (Fin 8640000000001))
    as (A & B & _).
  - right. right. right. exists 8640000000001. split; [reflexivity|].
    right. exists 8640000000001000%Z.
    split; [vm_compute; reflexivity|].
    split; [apply utcHost_steady_at|].
    vm_compute. reflexivity.
  - split; assumption.
Defined.

(** X5.  A time that is a whole number of eighths of a second, from 0 up to
    one day, is read back exactly; every whole second is such a time. *)
Theorem eighths_exact (host : Date.Host) (j : Z) :
  (0 <= j < 691200)%Z ->
  zoneSteady host 0 86399999 ->
  exists r,
    parseTimeString (formatSrtTime host (Fin (inject_Z j / 8))) = Fin r /\
    r == inject_Z j / 8.
Proof.
  intros Hj Hz.
  assert (E : inject_Z j / 8 * 1000 == inject_Z (125 * j)).
  { rewrite inject_Z_mult. change (inject_Z 125) with 125. field. }
  destruct (round_integer _ (125 * j) E ltac:(lia)) as (p & Ep & Tp).
  assert (Hv : timeValue (inject_Z j / 8) = Some (125 * j)%Z).
  { unfold timeValue.
    change (Binary64.mul (Fin (inject_Z j / 8)) (of_Z 1000))
      with (Binary64.round (inject_Z j / 8 * 1000)).
    rewrite Ep, Tp. reflexivity. }
  assert (Hzk : zoneSteadyAt host (125 * j)) by (apply Hz; lia).
  destruct (parse_format_time host _ _ Hv Hzk)
    as (r & Er & Vr); [unfold Date.maxTime; lia|].
  exists r. split; [exact Er|].
  rewrite Vr, Z.mod_small by lia.
  rewrite inject_Z_mult. change (inject_Z 125) with 125. field.
Qed.

Lemma eighths_exact_witness :
  exists r,
    parseTimeString (formatSrtTime dstHost (Fin (inject_Z 29787 / 8)))
    = Fin r /\
    r == inject_Z 29787 / 8.
Proof.
  apply (eighths_exact dstHost 29787); [lia|exact dstHost_steady].
Defined.

(** ** Exporting and importing, whatever the times *)

Lemma record_fields (new : list SubtitleSegment)
    (recs : list (number * number * jsstring)) :
  map recordOf new = recs ->
  map text new = map snd recs /\
  map startTime new = map (fun r => fst (fst r)) recs /\
  map endTime new = map (fun r => snd (fst r)) recs.
Proof.
  intros <-. split; [|split]; rewrite map_map; reflexivity.
Qed.

(** X6.  The texts survive the export and the import whatever the times
    and the host are: for segments with trimmed, non-blank, single-line
    texts -- with any times, also negative, beyond a day or NaN --
    [parseSrt (generateSrt segments)] has one segment per input segment, in
    order, with the same text, with fresh consecutive identifiers, and with
    the times that [parseTimeString] reads from the written timecodes. *)
Theorem export_keeps_texts (host : Date.Host)
    (segments : list SubtitleSegment) (supply : nat) :
  Forall exportableText segments ->
  let out := fst (parseSrt (generateSrt host segments) supply) in
  map text out = map text segments /\
  map id out = seq supply (length segments) /\
  map startTime out
  = map (fun s => parseTimeString (formatSrtTime host (startTime s)))
      segments /\
  map endTime out
  = map (fun s => parseTimeString (formatSrtTime host (endTime s)))
      segments.
Proof.
  intros Htext. cbv zeta. unfold parseSrt, generateSrt. cbv zeta.
  pose proof (generated_no_cr host segments 0%nat Htext) as Hcr.
  rewrite (replaceCRLF_none _ Hcr), (replaceCR_none _ Hcr).
  change (LF ++ LF) with [10%N; 10%N].
  destruct (parseBlocks_spec
              (split [10%N; 10%N] (join LF (srtBlocks host 0 segments)))
              [] supply) as (new & E & R & I).
  rewrite E. simpl fst.
  rewrite (records_of_generated host segments 0%nat Htext) in R.
  destruct (record_fields new _ R) as (T & S & F).
  rewrite !map_map in T, S, F.
  assert (Hlen : length new = length segments).
  { rewrite <- (length_map text new), T, length_map. reflexivity. }
  rewrite I, Hlen. repeat split; assumption.
Qed.

Lemma export_keeps_texts_witness :
  let segments :=
    [ {| id := 0; startTime := NaN; endTime := Fin (-1);
         text := js "hello there" |};
      {| id := 1; startTime := Fin 90000; endTime := PInf;
         text := js "bye" |} ] in
  map text (fst (parseSrt (generateSrt dstHost segments) 7))
  = [js "hello there"; js "bye"].
Proof.
  cbv zeta.
  refine (proj1 (export_keeps_texts dstHost _ 7%nat _)).
  constructor; [|constructor; [|constructor]];
    (split; [reflexivity|]; split; [discriminate|];
     split; intros Hin;
     repeat (destruct Hin as [Hin|Hin]; [discriminate Hin|]);
     exact Hin).
Defined.

(** ** Line endings *)

Lemma replaceCRLF_toCRLF (s : jsstring) :
  ~ In 13%N s -> replaceCRLF (toCRLF s) = s.
Proof.
  induction s as [|c r IH]; intros H; [reflexivity|].
  assert (Hr : ~ In 13%N r) by (intros Hin; apply H; right; exact Hin).
  assert (Hc : c <> 13%N) by (intros ->; apply H; left; reflexivity).
  unfold toCRLF. cbn [flat_map]. fold (toCRLF r).
  destruct (code_eqb c 10%N) eqn:E.
  - apply code_eqb_eq in E. subst c. simpl. rewrite (IH Hr). reflexivity.
  - cbn [app replaceCRLF].
    replace (code_eqb c 13%N) with false
      by (symmetry; apply code_eqb_neq; exact Hc).
    rewrite (IH Hr). reflexivity.
Qed.

Lemma toCR_no_lf (s : jsstring) : ~ In 13%N s -> ~ In 10%N (toCR s).
Proof.
  intros H Hin. unfold toCR in Hin. apply in_map_iff in Hin.
  destruct Hin as (c & E & Hc).
  destruct (code_eqb c 10%N) eqn:E10; [discriminate E|].
  subst c. rewrite code_eqb_refl in E10. discriminate E10.
Qed.

Lemma replaceCRLF_no_lf (s : jsstring) : ~ In 10%N s -> replaceCRLF s = s.
Proof.
  induction s as [|c r IH]; intros H; [reflexivity|].
  assert (Hr : ~ In 10%N r) by (intros Hin; apply H; right; exact Hin).
  cbn [replaceCRLF]. rewrite (IH Hr).
  destruct (code_eqb c 13%N); [|reflexivity].
  destruct r as [|d r']; [reflexivity|].
  replace (code_eqb d 10%N) with false; [reflexivity|].
  symmetry. apply code_eqb_neq. intros ->. apply Hr. left. reflexivity.
Qed.

Lemma replaceCR_toCR (s : jsstring) : ~ In 13%N s -> replaceCR (toCR s) = s.
Proof.
  induction s as [|c r IH]; intros H; [reflexivity|].
  assert (Hr : ~ In 13%N r) by (intros Hin; apply H; right; exact Hin).
  assert (Hc : c <> 13%N) by (intros ->; apply H; left; reflexivity).
  unfold replaceCR, toCR in *. cbn [map]. rewrite (IH Hr).
  destruct (code_eqb c 10%N) eqn:E.
  - apply code_eqb_eq in E. subst c. reflexivity.
  - replace (code_eqb c 13%N) with false
      by (symmetry; apply code_eqb_neq; exact Hc).
    reflexivity.
Qed.

(** X7.  A subtitle file reads the same whatever its line endings: for a
    text with line feeds only, the same text with Windows line endings
    (CR LF) or with old Macintosh ones (CR) yields the same segments. *)
Theorem parseSrt_line_endings (srtContent : jsstring) (supply : nat) :
  ~ In 13%N srtContent ->
  parseSrt (toCRLF srtContent) supply = parseSrt srtContent supply /\
  parseSrt (toCR srtContent) supply = parseSrt srtContent supply.
Proof.
  intros H. unfold parseSrt.
  rewrite (replaceCRLF_toCRLF _ H).
  rewrite (replaceCRLF_none _ H).
  rewrite (replaceCRLF_no_lf _ (toCR_no_lf _ H)).
  rewrite (replaceCR_toCR _ H). rewrite (replaceCR_none _ H).
  split; reflexivity.
Qed.

Lemma parseSrt_line_endings_witness :
  let content := [49%N; 10%N; 48%N; 49%N; 58%N; 48%N; 50%N; 32%N; 45%N;
                  45%N; 62%N; 32%N; 48%N; 49%N; 58%N; 48%N; 51%N; 10%N;
                  104%N; 105%N; 10%N] in
  parseSrt (toCRLF content) 0 = parseSrt content 0 /\
  parseSrt (toCR content) 0 = parseSrt content 0.
Proof.
  cbv zeta. apply parseSrt_line_endings.
  simpl. intros Hin.
  repeat (destruct Hin as [Hin|Hin]; [discriminate Hin|]). exact Hin.
Defined.

(** ** The payload of a complete response *)

Lemma trimStart_app_visible (pre s : jsstring) (c : code) :
  isSpace c = false -> trimStart (pre ++ c :: s) = trimStart pre ++ c :: s.
Proof.
  intros Hc. induction pre as [|a pre IH]; simpl.
  - rewrite Hc. reflexivity.
  - destruct (isSpace a); [exact IH|reflexivity].
Qed.

Lemma trimEnd_tail (x : code) (a : jsstring) :
  trimEnd (x :: a) = x :: a -> a <> [] -> trimEnd a = a.
Proof.
  simpl. intros H Hne. destruct (trimEnd a) as [|y r].
  - destruct (isSpace x); [discriminate H|].
    injection H as H. congruence.
  - injection H as H. exact H.
Qed.

Lemma trimEnd_app_visible (a b : jsstring) :
  trimEnd a = a -> a <> [] -> trimEnd (a ++ b) = a ++ trimEnd b.
Proof.
  induction a as [|x a IH]; intros Ha Hne; [congruence|].
  destruct a as [|y a].
  - simpl in Ha. destruct (isSpace x) eqn:Ex; [discriminate Ha|].
    simpl. rewrite Ex. destruct (trimEnd b); reflexivity.
  - assert (Ht : trimEnd (y :: a) = y :: a)
      by (apply (trimEnd_tail x); [exact Ha|discriminate]).
    change ((x :: y :: a) ++ b) with (x :: ((y :: a) ++ b)).
    cbn [trimEnd]. rewrite (IH Ht) by discriminate. reflexivity.
Qed.

Lemma trimEnd_snoc_visible (s : jsstring) (c : code) :
  isSpace c = false -> trimEnd (s ++ [c]) = s ++ [c].
Proof.
  intros Hc. induction s as [|a s IH]; simpl.
  - rewrite Hc. reflexivity.
  - rewrite IH. destruct (s ++ [c]) eqn:E; [|reflexivity].
    apply app_eq_nil in E. destruct E as [_ E]. discriminate E.
Qed.

Lemma trimStart_incl (c : code) (s : jsstring) :
  In c (trimStart s) -> In c s.
Proof.
  induction s as [|a s IH]; simpl; [tauto|].
  destruct (isSpace a); [intros H; right; exact (IH H)|intros H; exact H].
Qed.

Lemma trimEnd_incl (c : code) (s : jsstring) :
  In c (trimEnd s) -> In c s.
Proof.
  induction s as [|a s IH]; simpl; [tauto|].
  destruct (trimEnd s) as [|y r].
  - destruct (isSpace a); simpl; tauto.
  - simpl. simpl in IH. tauto.
Qed.

Lemma trim_incl (c : code) (s : jsstring) : In c (trim s) -> In c s.
Proof.
  intros H. apply trimStart_incl. apply trimEnd_incl. exact H.
Qed.

Lemma includes_needs_head (c0 : code) (p s : jsstring) :
  ~ In c0 s -> includes (c0 :: p) s = false.
Proof.
  induction s as [|a s IH]; intros H; [reflexivity|].
  cbn [includes]. rewrite startsWith_head_neq
    by (intros ->; apply H; left; reflexivity).
  apply IH. intros Hin. apply H. right. exact Hin.
Qed.

Lemma cleanText_plain (text : jsstring) :
  ~ In 96%N text -> cleanText text = trim text.
Proof.
  intros H. unfold cleanText.
  replace (includes FENCE (trim text)) with false; [reflexivity|].
  symmetry. apply (includes_needs_head 96%N (js "``")).
  intros Hin. apply H. exact (trim_incl _ _ Hin).
Qed.

Lemma sanitize_wrapped (text pre mid post : jsstring) :
  cleanText text = pre ++ ch "[" :: mid ++ ch "]" :: post ->
  ~ In (ch "[") pre -> ~ In (ch "]") post ->
  sanitizeAndRepairJson text = ch "[" :: mid ++ js "]".
Proof.
  intros Hc Hpre Hpost. unfold sanitizeAndRepairJson. rewrite Hc.
  cbv zeta.
  rewrite (indexOf_app (ch "[") pre _ Hpre).
  assert (Hlast : lastIndexOf (ch "]")
                    (pre ++ ch "[" :: mid ++ ch "]" :: post)
                  = Z.of_nat (length (pre ++ ch "[" :: mid))).
  { replace (pre ++ ch "[" :: mid ++ ch "]" :: post)
      with ((pre ++ ch "[" :: mid) ++ ch "]" :: post)
      by (rewrite <- app_assoc; reflexivity).
    apply lastIndexOf_app. exact Hpost. }
  rewrite Hlast. rewrite length_app. simpl length.
  destruct (Z.eqb_spec (Z.of_nat (length pre)) (-1)); [lia|].
  destruct (Z.eqb_spec (Z.of_nat (length pre + S (length mid))) (-1));
    [lia|].
  replace (Z.of_nat (length pre + S (length mid)) <? Z.of_nat (length pre))%Z
    with false by (symmetry; apply Z.ltb_ge; lia).
  cbn [orb].
  replace (pre ++ ch "[" :: mid ++ ch "]" :: post)
    with (pre ++ (ch "[" :: mid ++ [ch "]"]) ++ post)
    by (simpl; rewrite <- app_assoc; reflexivity).
  replace (Z.of_nat (length pre + S (length mid)) + 1)%Z
    with (Z.of_nat (length pre + length (ch "[" :: mid ++ [ch "]"]))).
  2:{ simpl length. rewrite length_app. simpl. lia. }
  apply substring_mid.
Qed.

(** X8.  A response without back quotes that holds an array between any
    commentary is cut down to the array: from the first opening bracket to
    the last closing bracket, whatever precedes and follows. *)
Theorem wrapped_array_recovered (text pre mid post : jsstring) :
  ~ In 96%N text ->
  text = pre ++ ch "[" :: mid ++ ch "]" :: post ->
  ~ In (ch "[") pre -> ~ In (ch "]") post ->
  sanitizeAndRepairJson text = ch "[" :: mid ++ js "]".
Proof.
  intros Hq -> Hpre Hpost.
  apply (sanitize_wrapped _ (trimStart pre) mid (trimEnd post)).
  - rewrite (cleanText_plain _ Hq). unfold trim.
    rewrite trimStart_app_visible by reflexivity.
    replace (trimStart pre ++ ch "[" :: mid ++ ch "]" :: post)
      with (((trimStart pre ++ ch "[" :: mid) ++ [ch "]"]) ++ post)
      by (repeat (rewrite <- app_assoc; simpl); reflexivity).
    rewrite trimEnd_app_visible.
    + repeat (rewrite <- app_assoc; simpl). reflexivity.
    + apply trimEnd_snoc_visible. reflexivity.
    + intros E. apply app_eq_nil in E. destruct E as [_ E]. discriminate E.
  - intros Hin. apply Hpre. exact (trimStart_incl _ _ Hin).
  - intros Hin. apply Hpost. exact (trimEnd_incl _ _ Hin).
Qed.

Lemma wrapped_array_recovered_witness :
  sanitizeAndRepairJson (js "Here you go: [1, [2], 3] -- done.  ")
  = js "[1, [2], 3]".
Proof.
  apply (wrapped_array_recovered
           (js "Here you go: [1, [2], 3] -- done.  ")
           (js "Here you go: ") (js "1, [2], 3") (js " -- done.  ")).
  - vm_compute. intros Hin.
    repeat (destruct Hin as [Hin|Hin]; [discriminate Hin|]). exact Hin.
  - reflexivity.
  - vm_compute. intros Hin.
    repeat (destruct Hin as [Hin|Hin]; [discriminate Hin|]). exact Hin.
  - vm_compute. intros Hin.
    repeat (destruct Hin as [Hin|Hin]; [discriminate Hin|]). exact Hin.
Defined.

(** ** The payload of a fenced block *)

Lemma includes_app (p a b : jsstring) : includes p (a ++ p ++ b) = true.
Proof.
  induction a as [|x a IH].
  - simpl app. destruct (p ++ b) eqn:E; cbn [includes]; rewrite <- ?E;
      rewrite startsWith_app; reflexivity.
  - change ((x :: a) ++ p ++ b) with (x :: (a ++ p ++ b)).
    cbn [includes]. rewrite IH. apply orb_true_r.
Qed.

Lemma lit_app {A : Type} (p s : jsstring) (k : jsstring -> option A) :
  lit p k (p ++ s) = k s.
Proof.
  unfold lit. rewrite startsWith_app.
  rewrite skipn_app, skipn_all, Nat.sub_diag. reflexivity.
Qed.

Lemma lit_head_neq {A : Type} (c0 c : code) (p s : jsstring)
    (k : jsstring -> option A) :
  c <> c0 -> lit (c0 :: p) k (c :: s) = None.
Proof.
  intros H. unfold lit. rewrite (startsWith_head_neq c0 c p s H).
  reflexivity.
Qed.

Lemma search_skip {A : Type} (c0 : code) (p pre s : jsstring)
    (k : jsstring -> option A) :
  ~ In c0 pre ->
  search (lit (c0 :: p) k) (pre ++ s) = search (lit (c0 :: p) k) s.
Proof.
  induction pre as [|a pre IH]; intros H; [reflexivity|].
  change ((a :: pre) ++ s) with (a :: (pre ++ s)). cbn [search].
  rewrite lit_head_neq by (intros ->; apply H; left; reflexivity).
  apply IH. intros Hin. apply H. right. exact Hin.
Qed.

Lemma search_hit {A : Type} (m : jsstring -> option A) (s : jsstring)
    (x : A) :
  m s = Some x -> search m s = Some x.
Proof. intros H. destruct s; simpl; rewrite H; reflexivity. Qed.

Lemma spaces_skip_some {A : Type} (k : jsstring -> option A)
    (w s : jsstring) (x : A) :
  Forall (fun c => isSpace c = true) w ->
  spaces k s = Some x -> spaces k (w ++ s) = Some x.
Proof.
  intros Hw Hs. induction Hw as [|c w Hc _ IH]; [exact Hs|].
  change ((c :: w) ++ s) with (c :: (w ++ s)). cbn [spaces].
  rewrite Hc, IH. reflexivity.
Qed.

Lemma spaces_at_visible {A : Type} (k : jsstring -> option A)
    (c : code) (s : jsstring) :
  isSpace c = false -> spaces k (c :: s) = k (c :: s).
Proof. intros H. simpl. rewrite H. reflexivity. Qed.

(** The closing part of the pattern fails in front of anything visible
    that is not a back quote. *)
Lemma closing_fails {A : Type} (k : jsstring -> option A) (s : jsstring)
    (c : code) (t : jsstring) :
  trimStart s = c :: t -> c <> 96%N ->
  spaces (lit FENCE k) s = None.
Proof.
  intros Ht Hc. induction s as [|a s IH]; [discriminate Ht|].
  simpl in Ht. cbn [spaces]. destruct (isSpace a) eqn:Ea.
  - rewrite (IH Ht).
    apply (lit_head_neq 96%N a (js "``")). intros ->. discriminate Ea.
  - injection Ht as -> _.
    apply (lit_head_neq 96%N c (js "``")). exact Hc.
Qed.

Lemma lazyAny_hit {A : Type} (k : jsstring -> jsstring -> option A)
    (acc s : jsstring) (x : A) :
  k (rev acc) s = Some x -> lazyAny k acc s = Some x.
Proof. intros H. destruct s; simpl; rewrite H; reflexivity. Qed.

Lemma lazyAny_skip {A : Type} (k : jsstring -> jsstring -> option A)
    (p rest : jsstring) :
  (forall p1 p2 cap, p = p1 ++ p2 -> p2 <> [] -> k cap (p2 ++ rest) = None) ->
  forall acc, lazyAny k acc (p ++ rest) = lazyAny k (rev p ++ acc) rest.
Proof.
  induction p as [|a p IH]; intros H acc; [reflexivity|].
  change ((a :: p) ++ rest) with (a :: (p ++ rest)). cbn [lazyAny].
  change (a :: p ++ rest) with ((a :: p) ++ rest).
  rewrite (H [] (a :: p) (rev acc) eq_refl) by discriminate.
  rewrite IH.
  - simpl rev. rewrite <- app_assoc. reflexivity.
  - intros p1 p2 cap E Hne. apply (H (a :: p1) p2 cap); [|exact Hne].
    rewrite E. reflexivity.
Qed.

Lemma trimStart_decomp (s : jsstring) :
  exists w, s = w ++ trimStart s /\ Forall (fun c => isSpace c = true) w.
Proof.
  induction s as [|a s (w & E & Hw)]; [exists []; split; constructor|].
  simpl. destruct (isSpace a) eqn:Ea.
  - exists (a :: w). split; [simpl; f_equal; exact E|].
    constructor; assumption.
  - exists []. split; [reflexivity|constructor].
Qed.

Lemma trimEnd_decomp (s : jsstring) :
  exists w, s = trimEnd s ++ w /\ Forall (fun c => isSpace c = true) w.
Proof.
  induction s as [|a s (w & E & Hw)]; [exists []; split; constructor|].
  simpl. destruct (trimEnd s) as [|y r] eqn:Et.
  - destruct (isSpace a) eqn:Ea.
    + exists (a :: w). split; [simpl in *; f_equal; exact E|].
      constructor; assumption.
    + exists w. split; [simpl in *; f_equal; exact E|exact Hw].
  - exists w. split; [|exact Hw]. simpl in *. f_equal. exact E.
Qed.

Lemma trimStart_head (s : jsstring) (c : code) (t : jsstring) :
  trimStart s = c :: t -> isSpace c = false.
Proof.
  induction s as [|a s IH]; simpl; [discriminate|].
  destruct (isSpace a) eqn:Ea; [exact IH|].
  intros H. injection H as -> _. exact Ea.
Qed.

Lemma trimStart_blank (s : jsstring) : trimStart s = [] -> trimEnd s = [].
Proof.
  induction s as [|a s IH]; simpl; [reflexivity|].
  destruct (isSpace a) eqn:Ea; [|discriminate].
  intros H. rewrite (IH H). reflexivity.
Qed.

Lemma trimStart_app_found (s r : jsstring) (c : code) (t : jsstring) :
  trimStart s = c :: t -> trimStart (s ++ r) = c :: t ++ r.
Proof.
  induction s as [|a s IH]; simpl; [discriminate|].
  destruct (isSpace a); [exact IH|].
  intros H. injection H as -> ->. reflexivity.
Qed.

Lemma trimEnd_idem (s : jsstring) : trimEnd (trimEnd s) = trimEnd s.
Proof.
  induction s as [|a s IH]; [reflexivity|].
  simpl. destruct (trimEnd s) as [|y r] eqn:Et.
  - destruct (isSpace a) eqn:Ea; [reflexivity|].
    simpl. rewrite Ea. reflexivity.
  - cbn [trimEnd] in *. rewrite IH. reflexivity.
Qed.

Lemma trimEnd_suffix (p1 p2 : jsstring) :
  trimEnd (p1 ++ p2) = p1 ++ p2 -> p2 <> [] -> trimEnd p2 = p2.
Proof.
  induction p1 as [|a p1 IH]; intros H Hne; [exact H|].
  apply IH; [|exact Hne].
  apply (trimEnd_tail a); [exact H|].
  intros E. apply app_eq_nil in E. tauto.
Qed.

(** A piece that ends visibly shows something that it contains. *)
Lemma visible_start (p : jsstring) :
  trimEnd p = p -> p <> [] ->
  exists c t, trimStart p = c :: t /\ In c p.
Proof.
  intros Hp Hne. destruct (trimStart p) as [|c t] eqn:E.
  - apply trimStart_blank in E. exfalso. apply Hne.
    rewrite <- Hp. exact E.
  - exists c, t. split; [reflexivity|].
    apply trimStart_incl. rewrite E. left. reflexivity.
Qed.

Lemma trim_trim (s : jsstring) : trim (trim s) = trim s.
Proof.
  unfold trim. destruct (trimStart s) as [|c t] eqn:E; [reflexivity|].
  pose proof (trimStart_head s c t E) as Hc.
  assert (Hh : exists t', trimEnd (c :: t) = c :: t').
  { simpl. destruct (trimEnd t); [rewrite Hc|]; eauto. }
  destruct Hh as (t' & Et). rewrite Et. simpl trimStart. rewrite Hc.
  rewrite <- Et. apply trimEnd_idem.
Qed.

Lemma fenceMatch_block (pre tag body post : jsstring) :
  ~ In 96%N pre -> ~ In 96%N body -> trim body <> [] ->
  tag = js "json" \/ (tag = [] /\ exists c r, body = c :: r /\ c <> 106%N) ->
  fenceMatch (pre ++ FENCE ++ tag ++ body ++ FENCE ++ post)
  = Some (trim body).
Proof.
  intros Hpre Hbody Hcore Htag. unfold fenceMatch.
  change FENCE with (96%N :: js "``") at 1.
  rewrite search_skip by exact Hpre.
  apply search_hit.
  change (96%N :: js "``") with FENCE. rewrite lit_app.
  set (K := fun cap : list N =>
              spaces (lit FENCE (fun _ : list N => Some cap))).
  assert (Hmain : spaces (lazyAny K []) (body ++ FENCE ++ post)
                  = Some (trim body)).
  { destruct (trimStart_decomp body) as (w1 & Eb & Hw1).
    rewrite Eb at 1. rewrite <- app_assoc.
    apply spaces_skip_some; [exact Hw1|].
    unfold trim in *.
    destruct (trimStart body) as [|c b1] eqn:Ets;
      [exfalso; apply Hcore; try rewrite Ets; reflexivity|].
    pose proof (trimStart_head body c b1 Ets) as Hc.
    change ((c :: b1) ++ FENCE ++ post) with (c :: (b1 ++ FENCE ++ post)).
    rewrite spaces_at_visible by exact Hc.
    change (c :: (b1 ++ FENCE ++ post)) with ((c :: b1) ++ FENCE ++ post).
    destruct (trimEnd_decomp (c :: b1)) as (w2 & Ec & Hw2).
    set (core := trimEnd (c :: b1)) in *.
    rewrite Ec. rewrite <- app_assoc.
    rewrite lazyAny_skip.
    - apply lazyAny_hit. rewrite app_nil_r, rev_involutive.
      unfold K. apply spaces_skip_some; [exact Hw2|].
      change (FENCE ++ post) with (96%N :: (js "``" ++ post)).
      rewrite spaces_at_visible by reflexivity.
      change (96%N :: (js "``" ++ post)) with (FENCE ++ post).
      rewrite lit_app. reflexivity.
    - intros p1 p2 cap E Hne. unfold K.
      assert (Hp2 : trimEnd p2 = p2).
      { apply (trimEnd_suffix p1); [|exact Hne].
        rewrite <- E. apply trimEnd_idem. }
      destruct (visible_start p2 Hp2 Hne) as (v & t & Ev & Hin).
      apply (closing_fails _ _ v (t ++ w2 ++ FENCE ++ post)).
      + apply trimStart_app_found. exact Ev.
      + intros ->. apply Hbody.
        apply trimStart_incl. rewrite Ets.
        apply trimEnd_incl. fold core. rewrite E.
        apply in_or_app. right. exact Hin. }
  destruct Htag as [->|(-> & c & r & -> & Hc)].
  - unfold opt. rewrite lit_app. fold K. rewrite Hmain. reflexivity.
  - unfold opt. simpl app at 1.
    change ((c :: r) ++ FENCE ++ post) with (c :: (r ++ FENCE ++ post)).
    change (js "json") with (106%N :: js "son").
    rewrite lit_head_neq by exact Hc.
    change (c :: (r ++ FENCE ++ post)) with ((c :: r) ++ FENCE ++ post).
    fold K. exact Hmain.
Qed.

(** X9.  A response that wraps its payload in a fenced block, tagged [json]
    or untagged, with any commentary before and after, is treated exactly as
    the payload alone: the cleaned text is the trimmed content of the block
    and the recovered payload is the one recovered from the content. *)
Theorem fenced_block_transparent (pre tag body post : jsstring) :
  ~ In 96%N pre -> ~ In 96%N body -> trim body <> [] ->
  tag = js "json" \/ (tag = [] /\ exists c r, body = c :: r /\ c <> 106%N) ->
  cleanText (pre ++ FENCE ++ tag ++ body ++ FENCE ++ post) = trim body /\
  sanitizeAndRepairJson (pre ++ FENCE ++ tag ++ body ++ FENCE ++ post)
  = sanitizeAndRepairJson body.
Proof.
  intros Hpre Hbody Hcore Htag.
  assert (Hclean : cleanText (pre ++ FENCE ++ tag ++ body ++ FENCE ++ post)
                   = trim body).
  { unfold cleanText.
    assert (Et : trim (pre ++ FENCE ++ tag ++ body ++ FENCE ++ post)
                 = trimStart pre ++ FENCE ++ tag ++ body ++ FENCE
                   ++ trimEnd post).
    { unfold trim. change FENCE with (96%N :: js "``") at 1.
      change (pre ++ (96%N :: js "``") ++ tag ++ body ++ FENCE ++ post)
        with (pre ++ 96%N :: (js "``" ++ tag ++ body ++ FENCE ++ post)).
      rewrite trimStart_app_visible by reflexivity.
      change FENCE with (js "``" ++ [96%N]).
      replace (trimStart pre
               ++ 96%N :: js "``" ++ tag ++ body ++ (js "``" ++ [96%N])
               ++ post)
        with (((trimStart pre ++ 96%N :: js "``" ++ tag ++ body ++ js "``")
               ++ [96%N]) ++ post)
        by (repeat (rewrite <- app_assoc; simpl); reflexivity).
      rewrite trimEnd_app_visible.
      - repeat (rewrite <- app_assoc; simpl). reflexivity.
      - apply trimEnd_snoc_visible. reflexivity.
      - intros E. apply app_eq_nil in E. destruct E as [_ E].
        discriminate E. }
    rewrite Et.
    rewrite includes_app.
    rewrite (fenceMatch_block (trimStart pre) tag body (trimEnd post));
      try assumption.
    - destruct (trim body) eqn:E; [congruence|].
      rewrite <- E. apply trim_trim.
    - intros Hin. apply Hpre. exact (trimStart_incl _ _ Hin). }
  split; [exact Hclean|].
  unfold sanitizeAndRepairJson. rewrite Hclean.
  rewrite (cleanText_plain body Hbody). reflexivity.
Qed.

Lemma fenced_block_transparent_witness :
  sanitizeAndRepairJson
    (js "Sure! " ++ FENCE ++ js "json" ++ js "
[1, 2]
" ++ FENCE ++ js " Hope that helps.")
  = sanitizeAndRepairJson (js "
[1, 2]
").
Proof.
  refine (proj2 (fenced_block_transparent (js "Sure! ") (js "json") (js "
[1, 2]
") (js " Hope that helps.") _ _ _ _)).
  - vm_compute. intros Hin.
    repeat (destruct Hin as [Hin|Hin]; [discriminate Hin|]). exact Hin.
  - vm_compute. intros Hin.
    repeat (destruct Hin as [Hin|Hin]; [discriminate Hin|]). exact Hin.
  - vm_compute. discriminate.
  - left. reflexivity.
Defined.

(** ** Recovering twice *)

Lemma sanitize_delimited (text : jsstring) :
  exists mid, sanitizeAndRepairJson text = ch "[" :: mid ++ js "]".
Proof.
  unfold sanitizeAndRepairJson. set (clean := cleanText text). cbv zeta.
  destruct (Z.eqb_spec (indexOf (ch "[") clean) (-1)) as [Hi|Hi];
    [exists []; reflexivity|].
  assert (Hir := indexOf_range (ch "[") clean).
  destruct ((lastIndexOf (ch "]") clean =? -1)%Z
            || (lastIndexOf (ch "]") clean <? indexOf (ch "[") clean)%Z)
    eqn:Hl.
  - destruct (negb (lastIndexOf (ch "}") clean =? -1)%Z
              && (indexOf (ch "[") clean <? lastIndexOf (ch "}") clean)%Z)
      eqn:Hb; [|exists []; reflexivity].
    apply andb_true_iff in Hb. destruct Hb as [_ Hb].
    apply Z.ltb_lt in Hb.
    destruct (substring_from_index (ch "[") clean
                (lastIndexOf (ch "}") clean + 1)) as (body & Hbody); [lia|].
    rewrite Hbody. exists body. reflexivity.
  - apply orb_false_iff in Hl. destruct Hl as [_ Hl].
    apply Z.ltb_ge in Hl.
    destruct (substring_from_index (ch "[") clean
                (lastIndexOf (ch "]") clean + 1)) as (body & Hbody); [lia|].
    destruct (substring_to_last (ch "]") clean (indexOf (ch "[") clean))
      as (body' & Hbody'); [lia|].
    rewrite Hbody in *.
    destruct body' as [|b0 body'].
    + discriminate Hbody'.
    + injection Hbody' as <- ->. exists body'. reflexivity.
Qed.

(** X10.  Recovering a payload from a recovered payload changes nothing, as
    long as the payload holds no back quote. *)
Theorem sanitize_idempotent (text : jsstring) :
  ~ In 96%N (sanitizeAndRepairJson text) ->
  sanitizeAndRepairJson (sanitizeAndRepairJson text)
  = sanitizeAndRepairJson text.
Proof.
  intros Hq. destruct (sanitize_delimited text) as (mid & E).
  rewrite E in *.
  apply (sanitize_wrapped _ [] mid []); try (simpl; tauto).
  rewrite (cleanText_plain _ Hq). unfold trim.
  simpl trimStart.
  exact (trimEnd_snoc_visible (ch "[" :: mid) 93%N eq_refl).
Qed.

Lemma sanitize_idempotent_witness :
  sanitizeAndRepairJson (sanitizeAndRepairJson (js "x [1, [2}"))
  = sanitizeAndRepairJson (js "x [1, [2}").
Proof.
  apply sanitize_idempotent.
  vm_compute. intros Hin.
  repeat (destruct Hin as [Hin|Hin]; [discriminate Hin|]). exact Hin.
Defined.

(** ** The outcomes of a generation *)

Lemma item_segment_id (item : json) (uuid : nat) (sg : GeneratedSegment) :
  (st <- getProp item (js "start") ;;
   start <- parseTimeStringOf st ;;
   en <- getProp item (js "end") ;;
   stop <- parseTimeStringOf en ;;
   tx <- getProp item (js "text") ;;
   Ok {| gen_id := uuid; gen_startTime := start;
         gen_endTime := stop; gen_text := tx |}) = Ok sg ->
  gen_id sg = uuid.
Proof.
  destruct (getProp item (js "start")) as [st|]; [|discriminate].
  cbn [bind].
  destruct (parseTimeStringOf st) as [start|]; [|discriminate].
  cbn [bind].
  destruct (getProp item (js "end")) as [en|]; [|discriminate].
  cbn [bind].
  destruct (parseTimeStringOf en) as [stop|]; [|discriminate].
  cbn [bind].
  destruct (getProp item (js "text")) as [tx|]; [|discriminate].
  cbn [bind]. intros H. injection H as <-. reflexivity.
Qed.

Lemma mapItems_ids (items : list json) :
  forall supply segs,
    fst (mapItems items supply) = Ok segs ->
    length segs = length items /\
    map gen_id segs = seq supply (length segs) /\
    snd (mapItems items supply) = (supply + length items)%nat.
Proof.
  induction items as [|item rest IH]; intros supply segs H.
  - simpl in H. injection H as <-. simpl. auto.
  - cbn [mapItems randomUUID] in *.
    match goal with
    | H : context [match ?X with Ok _ => _ | Throw _ => _ end] |- _ =>
        destruct X as [sg|e] eqn:Eseg
    end; [|discriminate H].
    apply item_segment_id in Eseg.
    destruct (mapItems rest (S supply)) as [tl supply2] eqn:Erest.
    simpl in H. destruct tl as [sgs|e]; [|discriminate H].
    cbn [bind] in H. injection H as <-.
    destruct (IH (S supply) sgs) as (L & I & S2);
      [rewrite Erest; reflexivity|].
    rewrite Erest in S2. simpl in S2. simpl.
    repeat split.
    + f_equal. exact L.
    + rewrite Eseg. f_equal. exact I.
    + lia.
Qed.

Lemma timed_item_segment (item : json) (uuid : nat) :
  timedItem item ->
  exists sg,
    (st <- getProp item (js "start") ;;
     start <- parseTimeStringOf st ;;
     en <- getProp item (js "end") ;;
     stop <- parseTimeStringOf en ;;
     tx <- getProp item (js "text") ;;
     Ok {| gen_id := uuid; gen_startTime := start;
           gen_endTime := stop; gen_text := tx |}) = Ok sg /\
    segmentOfItem item sg.
Proof.
  intros (fields & s & e & -> & Hs & He).
  assert (P : forall t, parseTimeStringOf (Some (JStr t))
                        = Ok (parseTimeString t))
    by (intros [|c t]; reflexivity).
  cbn [getProp bind]. rewrite Hs, He. rewrite !P. cbn [bind].
  eexists. split; [reflexivity|].
  exists fields, s, e. simpl.
  repeat split; try assumption; reflexivity.
Qed.

Lemma mapItems_timed (items : list json) :
  forall supply,
    Forall timedItem items ->
    exists segs,
      mapItems items supply = (Ok segs, (supply + length items)%nat) /\
      Forall2 segmentOfItem items segs.
Proof.
  induction items as [|item rest IH]; intros supply Hall.
  - exists []. simpl. rewrite Nat.add_0_r. split; constructor.
  - inversion Hall as [|? ? Hi Hrest]; subst.
    destruct (timed_item_segment item supply Hi) as (sg & Esg & Hsg).
    destruct (IH (S supply) Hrest) as (sgs & Er & Hr).
    exists (sg :: sgs). cbn [mapItems randomUUID]. rewrite Esg, Er.
    cbn [bind length]. split; [|constructor; assumption].
    f_equal. lia.
Qed.

Lemma broken_item_throws (item : json) (uuid : nat) :
  brokenItem item ->
  exists e,
    (st <- getProp item (js "start") ;;
     start <- parseTimeStringOf st ;;
     en <- getProp item (js "end") ;;
     stop <- parseTimeStringOf en ;;
     tx <- getProp item (js "text") ;;
     Ok {| gen_id := uuid; gen_startTime := start;
           gen_endTime := stop; gen_text := tx |}) = Throw e.
Proof.
  assert (T : forall v, truthyNonString v ->
                        parseTimeStringOf (Some v) = Throw TypeError).
  { intros v Hv. destruct v as [|[|]|q|s|l|f]; simpl in Hv;
      try contradiction; try reflexivity.
    simpl. destruct (Qeq_bool q 0) eqn:E; [|reflexivity].
    apply Qeq_bool_iff in E. contradiction. }
  intros [->|(fields & v & -> & Hv & [H|H])].
  - exists TypeError. reflexivity.
  - cbn [getProp bind]. rewrite H, (T v Hv).
    exists TypeError. reflexivity.
  - cbn [getProp bind].
    destruct (parseTimeStringOf (lookup (js "start") fields)) as [x|e];
      [|exists e; reflexivity].
    cbn [bind]. rewrite H, (T v Hv). exists TypeError. reflexivity.
Qed.

Lemma mapItems_broken (items : list json) :
  forall supply,
    Exists brokenItem items ->
    exists e, fst (mapItems items supply) = Throw e.
Proof.
  induction items as [|item rest IH]; intros supply Hex;
    [inversion Hex|].
  cbn [mapItems randomUUID].
  match goal with
  | |- context [match ?X with Ok _ => _ | Throw _ => _ end] =>
      destruct X as [sg|e] eqn:Eseg
  end; [|exists e; reflexivity].
  inversion Hex as [? ? Hb|? ? Hb]; subst.
  - destruct (broken_item_throws item supply Hb) as (e & He).
    rewrite He in Eseg. discriminate Eseg.
  - destruct (IH (S supply) Hb) as (e & He).
    destruct (mapItems rest (S supply)) as [tl supply2].
    simpl in He. subst tl. exists e. reflexivity.
Qed.

(** X11.  What a generation can end in.  Without a credential it fails with
    the missing-key error before anything else; a failed request is passed
    on unchanged; once a response is there, the outcome is the
    empty-response error (exactly when the text is missing or empty), the
    parse-failure error, or a non-empty list of segments with consecutive
    fresh identifiers -- never an empty list and never another error. *)
Theorem generation_outcomes (key : option jsstring)
    (response : result (option jsstring)) (supply : nat) :
  let r := generateSubtitles key response supply in
  match key with
  | None | Some [] => r = (Throw (Error MSG_API_KEY), supply)
  | Some _ =>
      match response with
      | Throw e => r = (Throw e, supply)
      | Ok text =>
          (fst r = Throw (Error MSG_EMPTY) \/
           fst r = Throw (Error MSG_PARSE) \/
           exists segs,
             fst r = Ok segs /\ segs <> [] /\
             map gen_id segs = seq supply (length segs) /\
             snd r = (supply + length segs)%nat) /\
          ((text = None \/ text = Some []) <->
           fst r = Throw (Error MSG_EMPTY))
      end
  end.
Proof.
  cbv zeta. destruct key as [[|k0 k]|]; try reflexivity.
  destruct response as [text|e]; [|reflexivity].
  unfold generateSubtitles.
  destruct text as [[|c raw]|].
  - split; [left; reflexivity|]. split; auto.
  - cbv zeta.
    assert (Hmain :
      forall b : result (list GeneratedSegment) * nat,
        (fst b = Throw (Error MSG_NO_SPEECH) \/ (exists e, fst b = Throw e) \/
         exists segs, fst b = Ok segs /\ segs <> [] /\
                      map gen_id segs = seq supply (length segs) /\
                      snd b = (supply + length segs)%nat) ->
        (tryCatch (fst b) (fun _ => Throw (Error MSG_PARSE))
         = Throw (Error MSG_PARSE) \/
         exists segs,
           tryCatch (fst b) (fun _ => Throw (Error MSG_PARSE)) = Ok segs /\
           segs <> [] /\ map gen_id segs = seq supply (length segs) /\
           snd b = (supply + length segs)%nat)).
    { intros b [H|[(e & H)|(segs & H & R)]].
      - left. rewrite H. reflexivity.
      - left. rewrite H. reflexivity.
      - right. exists segs. rewrite H. split; [reflexivity|exact R]. }
    match goal with
    | |- context [tryCatch (fst ?B) _] => set (body := B)
    end.
    assert (Hbody :
      fst body = Throw (Error MSG_NO_SPEECH) \/
      (exists e, fst body = Throw e) \/
      exists segs, fst body = Ok segs /\ segs <> [] /\
                   map gen_id segs = seq supply (length segs) /\
                   snd body = (supply + length segs)%nat).
    { unfold body.
      destruct (JSON.parse (sanitizeAndRepairJson (c :: raw))) as [v|e];
        [|right; left; exists e; reflexivity].
      destruct (lengthIsZero v) as [[|]|e] eqn:Ez;
        [left; reflexivity| |right; left; exists e; reflexivity].
      destruct v as [| | | |items|];
        try (right; left; exists TypeError; reflexivity).
      destruct (fst (mapItems items supply)) as [segs|e] eqn:Em;
        [|right; left; exists e; reflexivity].
      right. right. exists segs.
      destruct (mapItems_ids items supply segs Em) as (L & I & S2).
      repeat split; try assumption.
      - intros ->. simpl in L. simpl in Ez.
        rewrite <- L in Ez. discriminate Ez.
      - rewrite S2, L. reflexivity. }
    simpl fst. simpl snd.
    destruct (Hmain body Hbody) as [H|(segs & H & R)].
    + split; [right; left; exact H|].
      split; [intros [E|E]; discriminate E|].
      intros E. rewrite H in E. discriminate E.
    + split; [right; right; exists segs; split; [exact H|exact R]|].
      split; [intros [E|E]; discriminate E|].
      intros E. rewrite H in E. discriminate E.
  - split; [left; reflexivity|]. split; auto.
Qed.

(** X12.  When the recovered payload parses as a non-empty list of records
    whose [start] and [end] are strings, the generation succeeds with one
    segment per record, in the order received, each with the two timestamps
    converted, the record's text, and consecutive fresh identifiers. *)
Theorem generation_of_timed_records (key raw : jsstring)
    (items : list json) (supply : nat) :
  key <> [] -> raw <> [] ->
  JSON.parse (sanitizeAndRepairJson raw) = Ok (JArr items) ->
  items <> [] -> Forall timedItem items ->
  exists segs,
    generateSubtitles (Some key) (Ok (Some raw)) supply
    = (Ok segs, (supply + length items)%nat) /\
    Forall2 segmentOfItem items segs /\
    map gen_id segs = seq supply (length items).
Proof.
  intros Hk Hr Hp Hne Hall.
  destruct (mapItems_timed items supply Hall) as (segs & Em & Hs).
  exists segs.
  assert (Hid : map gen_id segs = seq supply (length items)).
  { destruct (mapItems_ids items supply segs) as (L & I & _);
      [rewrite Em; reflexivity|].
    rewrite I, L. reflexivity. }
  split; [|split; assumption].
  unfold generateSubtitles.
  destruct key as [|k0 k]; [congruence|].
  destruct raw as [|c raw]; [congruence|].
  cbv zeta. rewrite Hp.
  destruct items as [|item rest]; [congruence|].
  cbn [lengthIsZero length Nat.eqb]. rewrite Em. reflexivity.
Qed.

Lemma generation_of_timed_records_witness :
  exists segs,
    generateSubtitles (Some (js "key"))
      (Ok (Some (dq (js "[{'start':'00:01.000','end':'01:02.500','text':'hi'}]"))))
      5
    = (Ok segs, 6%nat) /\
    map gen_id segs = [5%nat].
Proof.
  destruct (generation_of_timed_records (js "key")
              (dq (js "[{'start':'00:01.000','end':'01:02.500','text':'hi'}]"))
              [JObj [(js "start", JStr (js "00:01.000"));
                     (js "end", JStr (js "01:02.500"));
                     (js "text", JStr (js "hi"))]] 5)
    as (segs & E & _ & I).
  - discriminate.
  - discriminate.
  - vm_compute. reflexivity.
  - discriminate.
  - constructor; [|constructor].
    eexists _, _, _. split; [reflexivity|]. split; reflexivity.
  - exists segs. split; assumption.
Defined.

(** X13.  A generation is all or nothing: if any record of the parsed list
    is [null], or has a [start] or [end] that is neither falsy nor a string
    ([true], a non-zero number, an array, an object), the whole generation
    fails with the parse-failure error and no segment is returned. *)
Theorem generation_all_or_nothing (key raw : jsstring)
    (items : list json) (supply : nat) :
  key <> [] -> raw <> [] ->
  JSON.parse (sanitizeAndRepairJson raw) = Ok (JArr items) ->
  Exists brokenItem items ->
  fst (generateSubtitles (Some key) (Ok (Some raw)) supply)
  = Throw (Error MSG_PARSE).
Proof.
  intros Hk Hr Hp Hex.
  destruct (mapItems_broken items supply Hex) as (e & He).
  unfold generateSubtitles.
  destruct key as [|k0 k]; [congruence|].
  destruct raw as [|c raw]; [congruence|].
  cbv zeta. rewrite Hp.
  destruct items as [|item rest]; [inversion Hex|].
  cbn [lengthIsZero length Nat.eqb]. rewrite He. reflexivity.
Qed.

Lemma generation_all_or_nothing_witness :
  fst (generateSubtitles (Some (js "key"))
         (Ok (Some (dq (js "[{'start':'00:01.000','end':'00:02.000','text':'hi'}, null]"))))
         0)
  = Throw (Error MSG_PARSE).
Proof.
  apply (generation_all_or_nothing (js "key") _
           [JObj [(js "start", JStr (js "00:01.000"));
                  (js "end", JStr (js "00:02.000"));
                  (js "text", JStr (js "hi"))]; JNull] 0).
  - discriminate.
  - discriminate.
  - vm_compute. reflexivity.
  - right. left. left. reflexivity.
Defined.

(** ** Editing the list of segments *)

(** X14.  Editing a text keeps the identifiers, the times and the order of
    all segments; of two edits of the same segment the later one stands,
    edits of different segments can be made in either order, and an edit of
    a segment does not matter once the segment is deleted. *)
Theorem updateSubtitle_laws (i j : nat) (t u : jsstring)
    (prev : list SubtitleSegment) :
  i <> j ->
  map id (updateSubtitle i t prev) = map id prev /\
  map startTime (updateSubtitle i t prev) = map startTime prev /\
  map endTime (updateSubtitle i t prev) = map endTime prev /\
  updateSubtitle i u (updateSubtitle i t prev) = updateSubtitle i u prev /\
  updateSubtitle i t (updateSubtitle j u prev)
  = updateSubtitle j u (updateSubtitle i t prev) /\
  deleteSubtitle i (updateSubtitle i t prev) = deleteSubtitle i prev /\
  updateSubtitle i t (deleteSubtitle i prev) = deleteSubtitle i prev.
Proof.
  intros Hij. unfold updateSubtitle, deleteSubtitle.
  repeat split.
  - rewrite map_map. apply map_ext. intros s.
    destruct (Nat.eqb (id s) i); reflexivity.
  - rewrite map_map. apply map_ext. intros s.
    destruct (Nat.eqb (id s) i); reflexivity.
  - rewrite map_map. apply map_ext. intros s.
    destruct (Nat.eqb (id s) i); reflexivity.
  - rewrite map_map. apply map_ext. intros s.
    destruct (Nat.eqb (id s) i) eqn:E; simpl; rewrite E; reflexivity.
  - rewrite !map_map. apply map_ext. intros s.
    destruct (Nat.eqb_spec (id s) i) as [Ei|Ei];
      destruct (Nat.eqb_spec (id s) j) as [Ej|Ej]; simpl.
    + exfalso. apply Hij. rewrite <- Ei, <- Ej. reflexivity.
    + destruct (Nat.eqb_spec (id s) i); [|contradiction].
      destruct (Nat.eqb_spec (id s) j); [contradiction|]. reflexivity.
    + destruct (Nat.eqb_spec (id s) i); [contradiction|].
      destruct (Nat.eqb_spec (id s) j); [|contradiction]. reflexivity.
    + destruct (Nat.eqb_spec (id s) i); [contradiction|].
      destruct (Nat.eqb_spec (id s) j); [contradiction|]. reflexivity.
  - induction prev as [|s prev IH]; [reflexivity|].
    cbn [map filter].
    destruct (Nat.eqb (id s) i) eqn:E; simpl; rewrite E; simpl.
    + exact IH.
    + f_equal. exact IH.
  - induction prev as [|s prev IH]; [reflexivity|].
    cbn [filter].
    destruct (Nat.eqb (id s) i) eqn:E; simpl; [exact IH|].
    rewrite E. f_equal. exact IH.
Qed.

Lemma updateSubtitle_laws_witness :
  let prev := [ {| id := 1; startTime := Fin 0; endTime := Fin 1;
                   text := js "a" |};
                {| id := 2; startTime := Fin 1; endTime := Fin 2;
                   text := js "b" |} ] in
  updateSubtitle 1 (js "x") (updateSubtitle 2 (js "y") prev)
  = updateSubtitle 2 (js "y") (updateSubtitle 1 (js "x") prev).
Proof.
  cbv zeta.
  refine (proj1 (proj2 (proj2 (proj2 (proj2
            (updateSubtitle_laws 1 2 (js "x") (js "y") _ _)))))).
  discriminate.
Defined.

Lemma delete_unique (l : list SubtitleSegment) (seg : SubtitleSegment) :
  NoDup (map id l) -> In seg l ->
  S (length (deleteSubtitle (id seg) l)) = length l /\
  forall s, In s l -> s <> seg -> In s (deleteSubtitle (id seg) l).
Proof.
  unfold deleteSubtitle.
  induction l as [|a l IH]; intros Hnd Hin; [destruct Hin|].
  cbn [map] in Hnd. inversion Hnd as [|? ? Hna Hnd']; subst.
  cbn [filter]. destruct Hin as [->|Hin].
  - rewrite Nat.eqb_refl. simpl negb. cbv iota.
    assert (Hkeep : forall s, In s l ->
                              negb (Nat.eqb (id s) (id seg)) = true).
    { intros s Hs. apply negb_true_iff. apply Nat.eqb_neq.
      intros E. apply Hna. rewrite <- E. apply in_map. exact Hs. }
    assert (Hf : filter (fun s => negb (Nat.eqb (id s) (id seg))) l = l).
    { clear - Hkeep. induction l as [|b l IH]; [reflexivity|].
      cbn [filter]. rewrite (Hkeep b (or_introl eq_refl)).
      f_equal. apply IH. intros s Hs. apply Hkeep. right. exact Hs. }
    rewrite Hf. split; [reflexivity|].
    intros s [->|Hs] Hne; [congruence|exact Hs].
  - destruct (IH Hnd' Hin) as [L K].
    assert (Ha : Nat.eqb (id a) (id seg) = false).
    { apply Nat.eqb_neq. intros E. apply Hna. rewrite E.
      apply in_map. exact Hin. }
    rewrite Ha. simpl negb. cbv iota. split.
    + simpl. rewrite L. reflexivity.
    + intros s [->|Hs] Hne; [left; reflexivity|].
      right. apply K; assumption.
Qed.

(** X15.  Deleting a segment of an imported subtitle file removes exactly
    that segment: the identifiers that [parseSrt] hands out are distinct,
    so the list gets one shorter, the segment is gone, and every other
    segment stays. *)
Theorem delete_imported_segment (srtContent : jsstring) (supply : nat)
    (seg : SubtitleSegment) :
  In seg (fst (parseSrt srtContent supply)) ->
  let out := fst (parseSrt srtContent supply) in
  S (length (deleteSubtitle (id seg) out)) = length out /\
  ~ In seg (deleteSubtitle (id seg) out) /\
  forall s, In s out -> s <> seg -> In s (deleteSubtitle (id seg) out).
Proof.
  cbv zeta. unfold parseSrt.
  destruct (parseBlocks_spec
              (split (LF ++ LF) (replaceCR (replaceCRLF srtContent)))
              [] supply) as (new & E & _ & I).
  rewrite E. simpl fst. intros Hin.
  assert (Hnd : NoDup (map id new)) by (rewrite I; apply seq_NoDup).
  destruct (delete_unique new seg Hnd Hin) as [L K].
  split; [exact L|]. split; [|exact K].
  unfold deleteSubtitle. intros Hf. apply filter_In in Hf.
  destruct Hf as [_ Hf]. rewrite Nat.eqb_refl in Hf. discriminate Hf.
Qed.

Lemma delete_imported_segment_witness :
  let content := [49%N; 10%N; 48%N; 49%N; 58%N; 48%N; 50%N; 32%N; 45%N;
                  45%N; 62%N; 32%N; 48%N; 49%N; 58%N; 48%N; 51%N; 10%N;
                  104%N; 105%N; 10%N] in
  let seg := {| id := 4; startTime := parseTimeString (js "01:02");
                endTime := parseTimeString (js "01:03");
                text := js "hi" |} in
  S (length (deleteSubtitle (id seg) (fst (parseSrt content 4))))
  = length (fst (parseSrt content 4)).
Proof.
  cbv zeta.
  refine (proj1 (delete_imported_segment _ 4 _ _)).
  left. reflexivity.
Defined.

(** ** The subtitle on screen *)

Lemma ge_Fin (x a : Q) : ge (Fin x) (Fin a) = true <-> a <= x.
Proof.
  unfold ge, Num.lt. destruct (x ?= a) eqn:E; simpl.
  - apply Qeq_alt in E. split; [intros _; lra|reflexivity].
  - apply Qlt_alt in E. split; [discriminate|intros H; lra].
  - apply Qgt_alt in E. split; [intros _; lra|reflexivity].
Qed.

Lemma ge_NaN_l (b : number) : ge NaN b = false.
Proof. reflexivity. Qed.

Lemma ge_NaN_r (a : number) : ge a NaN = false.
Proof. destruct a; reflexivity. Qed.

Lemma shown_covers (seg : SubtitleSegment) (x : Q) :
  finiteTimes seg ->
  (ge (Fin x) (startTime seg) && le (Fin x) (endTime seg) = true
   <-> covers seg x).
Proof.
  intros (a & b & Ea & Eb). unfold le. rewrite Ea, Eb.
  rewrite andb_true_iff, !ge_Fin. split.
  - intros [H1 H2]. exists a, b. repeat split; assumption.
  - intros (a' & b' & Ea' & Eb' & H1 & H2).
    rewrite Ea in Ea'. rewrite Eb in Eb'.
    injection Ea' as <-. injection Eb' as <-. split; assumption.
Qed.

(** X16.  The player shows the first segment, in list order, whose interval
    contains the current time, both ends included; it shows nothing when no
    interval contains it.  A current time that is not a number shows
    nothing, and a segment with a start or end that is not a number is
    never shown. *)
Theorem currentSubtitle_first_covering
    (before after : list SubtitleSegment) (seg : SubtitleSegment) (x : Q) :
  Forall finiteTimes before ->
  Forall (fun s => ~ covers s x) before ->
  (covers seg x ->
   currentSubtitle (before ++ seg :: after) (Fin x) = Some seg) /\
  currentSubtitle before (Fin x) = None /\
  currentSubtitle (before ++ seg :: after) NaN = None /\
  (forall t shown,
      currentSubtitle (before ++ seg :: after) t = Some shown ->
      In shown (before ++ seg :: after) /\
      t <> NaN /\ startTime shown <> NaN /\ endTime shown <> NaN).
Proof.
  intros Hfin Hnot. unfold currentSubtitle.
  assert (Hbefore : forall rest,
             find (fun s => ge (Fin x) (startTime s)
                            && le (Fin x) (endTime s)) (before ++ rest)
             = find (fun s => ge (Fin x) (startTime s)
                              && le (Fin x) (endTime s)) rest).
  { intros rest. induction before as [|s before IH]; [reflexivity|].
    inversion Hfin as [|? ? Hs Hfin']; subst.
    inversion Hnot as [|? ? Hc Hnot']; subst.
    cbn [app find].
    destruct (ge (Fin x) (startTime s) && le (Fin x) (endTime s)) eqn:E.
    - exfalso. apply Hc. apply (shown_covers s x Hs). exact E.
    - apply IH; assumption. }
  split; [|split; [|split]].
  - intros Hc. rewrite Hbefore. cbn [find].
    destruct Hc as (a & b & Ea & Eb & H1 & H2).
    unfold le. rewrite Ea, Eb.
    rewrite (proj2 (ge_Fin x a) H1), (proj2 (ge_Fin b x) H2). reflexivity.
  - rewrite <- (app_nil_r before) at 1. rewrite Hbefore. reflexivity.
  - induction (before ++ seg :: after) as [|s l IH]; [reflexivity|].
    cbn [find]. rewrite ge_NaN_l. exact IH.
  - intros t shown H. apply find_some in H. destruct H as [Hin H].
    apply andb_true_iff in H. destruct H as [H1 H2]. unfold le in H2.
    split; [exact Hin|]. split; [|split].
    + intros ->. rewrite ge_NaN_l in H1. discriminate.
    + intros E. rewrite E, ge_NaN_r in H1. discriminate.
    + intros E. rewrite E, ge_NaN_l in H2. discriminate.
Qed.

Lemma currentSubtitle_first_covering_witness :
  let s1 := {| id := 1; startTime := Fin 0; endTime := Fin 2;
               text := js "a" |} in
  let s2 := {| id := 2; startTime := Fin 2; endTime := Fin 4;
               text := js "b" |} in
  let s3 := {| id := 3; startTime := Fin 3; endTime := Fin 5;
               text := js "c" |} in
  currentSubtitle ([s1] ++ s2 :: [s3]) (Fin 3) = Some s2.
Proof.
  cbv zeta.
  refine (proj1 (currentSubtitle_first_covering _ _ _ 3 _ _) _).
  - constructor; [|constructor]. exists 0, 2. split; reflexivity.
  - constructor; [|constructor].
    intros (a & b & Ea & Eb & H1 & H2). simpl in Eb.
    injection Eb as <-. revert H2. vm_compute. intros H. apply H.
    reflexivity.
  - exists 2, 4. repeat split; vm_compute; discriminate.
Defined.

(** ** The name of the exported file *)

(** X17.  Nothing is offered for download while there are no subtitles.
    Otherwise the content is the export of the segments, and the name is
    the part of the loaded file's name before its first dot (the whole name
    when it has none), then an underscore, the task's prefix and [.srt];
    without a loaded file it is the prefix and [_subtitles.srt]. *)
Theorem download_name (host : Date.Host)
    (subtitles : list SubtitleSegment)
    (taskMode : TaskType) (stem rest : jsstring) :
  subtitles <> [] ->
  ~ In 46%N stem ->
  handleDownloadSrt host [] (Some stem) taskMode = None /\
  handleDownloadSrt host subtitles (Some (stem ++ 46%N :: rest)) taskMode
  = Some (stem ++ js "_" ++ exportPrefix taskMode ++ js ".srt",
          generateSrt host subtitles) /\
  handleDownloadSrt host subtitles (Some stem) taskMode
  = Some (stem ++ js "_" ++ exportPrefix taskMode ++ js ".srt",
          generateSrt host subtitles) /\
  handleDownloadSrt host subtitles None taskMode
  = Some (exportPrefix taskMode ++ js "_subtitles.srt",
          generateSrt host subtitles).
Proof.
  intros Hne Hstem. split; [reflexivity|].
  destruct subtitles as [|s subtitles]; [congruence|].
  unfold handleDownloadSrt. cbv zeta.
  change (js ".") with [46%N].
  change (stem ++ 46%N :: rest) with (stem ++ [46%N] ++ rest).
  rewrite (split_one 46%N [] stem rest Hstem).
  rewrite (split_none 46%N [] stem Hstem).
  cbn [nth]. unfold exportPrefix.
  destruct taskMode; repeat split; reflexivity.
Qed.

Lemma download_name_witness :
  handleDownloadSrt utcHost
    [{| id := 1; startTime := Fin 0; endTime := Fin 1; text := js "a" |}]
    (Some (js "talk" ++ 46%N :: js "final.mp4")) CAPTION
  = Some (js "talk_cgn.srt",
          generateSrt utcHost
            [{| id := 1; startTime := Fin 0; endTime := Fin 1;
                text := js "a" |}]).
Proof.
  refine (proj1 (proj2 (download_name utcHost _ CAPTION (js "talk")
                          (js "final.mp4") _ _))).
  - discriminate.
  - vm_compute. intuition discriminate.
Defined.

(** ** Quantisation of samples *)

Lemma Qtrunc_mono (x y : Q) : x <= y -> (Qtrunc x <= Qtrunc y)%Z.
Proof.
  intros H. destruct (Qlt_le_dec x 0) as [Hx|Hx];
    destruct (Qlt_le_dec y 0) as [Hy|Hy].
  - rewrite !Qtrunc_nonpos by lra.
    assert ((Qfloor (- y) <= Qfloor (- x))%Z)
      by (apply Qfloor_resp_le; lra).
    lia.
  - rewrite (Qtrunc_nonpos x) by lra. rewrite (Qtrunc_floor y) by lra.
    assert ((Qfloor 0 <= Qfloor (- x))%Z) by (apply Qfloor_resp_le; lra).
    assert ((Qfloor 0 <= Qfloor y)%Z) by (apply Qfloor_resp_le; lra).
    change (Qfloor 0) with 0%Z in *. lia.
  - lra.
  - rewrite !Qtrunc_floor by lra. apply Qfloor_resp_le. exact H.
Qed.

Lemma clamp_mono (p q : Q) : p <= q -> clamp p <= clamp q.
Proof.
  intros H. unfold clamp.
  destruct (Qlt_le_dec p (-1)); destruct (Qlt_le_dec q (-1));
    destruct (Qlt_le_dec 1 p); destruct (Qlt_le_dec 1 q); lra.
Qed.

Lemma quantized_mono (p q : Q) :
  p <= q -> (quantized p <= quantized q)%Z.
Proof.
  intros H. apply clamp_mono in H. unfold quantized. cbv zeta.
  destruct (clamp_range p) as [Lp Up]. destruct (clamp_range q) as [Lq Uq].
  destruct (Qlt_le_dec (clamp p) 0) as [Hp|Hp];
    destruct (Qlt_le_dec (clamp q) 0) as [Hq|Hq].
  - apply Qtrunc_mono. lra.
  - apply Z.le_trans with (Qtrunc 0).
    + apply Qtrunc_mono. lra.
    + apply Qtrunc_mono. lra.
  - lra.
  - apply Qtrunc_mono. lra.
Qed.

Lemma quantized_zero (q : Q) :
  quantized q = 0%Z <-> - (1 # 32768) < q /\ q < 1 # 32767.
Proof.
  unfold quantized. cbv zeta. unfold clamp.
  destruct (Qlt_le_dec q (-1)) as [H1|H1].
  - destruct (Qlt_le_dec (-1) 0) as [_|F]; [|lra].
    split; [intros F; vm_compute in F; discriminate F|intros [A _]; lra].
  - destruct (Qlt_le_dec 1 q) as [H2|H2].
    + destruct (Qlt_le_dec 1 0) as [F|_]; [lra|].
      split; [intros F; vm_compute in F; discriminate F|intros [_ A]; lra].
    + destruct (Qlt_le_dec q 0) as [H3|H3].
      * rewrite Qtrunc_nonpos by lra.
        pose proof (Qfloor_le (- (q * 32768))) as L.
        pose proof (Qlt_floor (- (q * 32768))) as U.
        split.
        -- intros E. assert (E' : Qfloor (- (q * 32768)) = 0%Z) by lia.
           rewrite E' in U. change (inject_Z (0 + 1)) with 1 in U.
           split; lra.
        -- intros [A _].
           assert (B : (Qfloor (- (q * 32768)) < 1)%Z).
           { rewrite Zlt_Qlt. change (inject_Z 1) with 1. lra. }
           assert (C : (Qfloor 0 <= Qfloor (- (q * 32768)))%Z)
             by (apply Qfloor_resp_le; lra).
           change (Qfloor 0) with 0%Z in C. lia.
      * rewrite Qtrunc_floor by lra.
        pose proof (Qfloor_le (q * 32767)) as L.
        pose proof (Qlt_floor (q * 32767)) as U.
        split.
        -- intros E. rewrite E in U.
           change (inject_Z (0 + 1)) with 1 in U. split; lra.
        -- intros [_ A].
           assert (B : (Qfloor (q * 32767) < 1)%Z).
           { rewrite Zlt_Qlt. change (inject_Z 1) with 1. lra. }
           assert (C : (Qfloor 0 <= Qfloor (q * 32767))%Z)
             by (apply Qfloor_resp_le; lra).
           change (Qfloor 0) with 0%Z in C. lia.
Qed.

(** X18.  Quantisation keeps the order of samples: a larger sample is never
    stored as a smaller integer.  It keeps the sign, and the samples stored
    as 0 are exactly those strictly between -1/32768 and 1/32767. *)
Theorem quantisation_monotone (p q : Q) :
  p <= q ->
  (toInt16 (scaleSample (Fin p)) <= toInt16 (scaleSample (Fin q)))%Z /\
  (0 <= p -> (0 <= toInt16 (scaleSample (Fin p)))%Z) /\
  (p <= 0 -> (toInt16 (scaleSample (Fin p)) <= 0)%Z) /\
  (toInt16 (scaleSample (Fin p)) = 0%Z
   <-> - (1 # 32768) < p /\ p < 1 # 32767).
Proof.
  intros H. rewrite !toInt16_scaleSample.
  assert (Z0 : quantized 0 = 0%Z) by reflexivity.
  split; [apply quantized_mono; exact H|].
  split; [intros Hp; rewrite <- Z0; apply quantized_mono; exact Hp|].
  split; [intros Hp; rewrite <- Z0; apply quantized_mono; exact Hp|].
  apply quantized_zero.
Qed.

Lemma quantisation_monotone_witness :
  (toInt16 (scaleSample (Fin (-3 # 2)))
   <= toInt16 (scaleSample (Fin (1 # 4))))%Z.
Proof.
  refine (proj1 (quantisation_monotone (-3 # 2) (1 # 4) _)).
  vm_compute. discriminate.
Defined.

(** ** The size fields of the container *)

Lemma le32_read (v : Z) :
  readLE32 (le32 v) 0 = (v mod 4294967296)%Z.
Proof.
  unfold readLE32, le32. cbn [nth Nat.add].
  Z.div_mod_to_equations. lia.
Qed.

Lemma header_sizes (n : Z) (payload : list Z) :
  readLE32 (wavHeader n ++ payload) 4 = ((36 + n * 2) mod 4294967296)%Z /\
  readLE32 (wavHeader n ++ payload) 40 = ((n * 2) mod 4294967296)%Z.
Proof.
  rewrite <- !le32_read. split; reflexivity.
Qed.

(** X19.  Building the container never fails, whatever the samples are.
    Its two size fields hold the chunk sizes modulo 2^32: as long as the
    container is shorter than 2^32 + 8 bytes, the RIFF size is the length
    of the container less 8 and the data size is the length of the payload,
    two bytes per sample. *)
Theorem container_sizes (channelData : list number) :
  exists bytes,
    wavContainer channelData = Ok bytes /\
    length bytes = (44 + 2 * length channelData)%nat /\
    readLE32 bytes 4
    = ((Z.of_nat (length bytes) - 8) mod 4294967296)%Z /\
    readLE32 bytes 40
    = ((Z.of_nat (length bytes) - 44) mod 4294967296)%Z /\
    ((Z.of_nat (length bytes) < 4294967296 + 8)%Z ->
     readLE32 bytes 4 = (Z.of_nat (length bytes) - 8)%Z /\
     readLE32 bytes 40 = (2 * Z.of_nat (length channelData))%Z).
Proof.
  exists (wavHeader (Z.of_nat (length channelData))
          ++ flat_map sampleBytes channelData).
  split; [apply wavContainer_bytes|].
  assert (L : length (wavHeader (Z.of_nat (length channelData))
                      ++ flat_map sampleBytes channelData)
              = (44 + 2 * length channelData)%nat).
  { rewrite length_app, wavHeader_length, sampleBytes_length.
    reflexivity. }
  split; [exact L|].
  destruct (header_sizes (Z.of_nat (length channelData))
              (flat_map sampleBytes channelData)) as [R D].
  rewrite R, D, L.
  replace (Z.of_nat (44 + 2 * length channelData) - 8)%Z
    with (36 + Z.of_nat (length channelData) * 2)%Z by lia.
  replace (Z.of_nat (44 + 2 * length channelData) - 44)%Z
    with (Z.of_nat (length channelData) * 2)%Z by lia.
  split; [reflexivity|]. split; [reflexivity|].
  intros B. rewrite !Z.mod_small by lia. lia.
Qed.

Lemma container_sizes_witness :
  exists bytes,
    wavContainer [Fin 1; NaN; Fin (-1 # 2)] = Ok bytes /\
    readLE32 bytes 4 = 42%Z /\ readLE32 bytes 40 = 6%Z.
Proof.
  destruct (container_sizes [Fin 1; NaN; Fin (-1 # 2)])
    as (bytes & E & L & _ & _ & S).
  exists bytes. split; [exact E|].
  rewrite L in S. apply S. vm_compute. reflexivity.
Defined.

(** ** The transport encoding *)

Lemma binaryLoop_all (fuel : nat) :
  forall (bytes : list Z) (size i : Z) (binary : jsstring),
    (0 < size)%Z -> (0 <= i)%Z ->
    (Z.of_nat (length bytes) - i < Z.of_nat fuel)%Z ->
    binaryLoop fuel bytes size i binary
    = binary ++ fromCharCode (skipn (Z.to_nat i) bytes).
Proof.
  induction fuel as [|fuel IH]; intros bytes size i binary Hs Hi Hf.
  - cbn [binaryLoop]. rewrite skipn_all2 by lia.
    cbn [fromCharCode map]. rewrite app_nil_r. reflexivity.
  - cbn [binaryLoop]. cbv zeta.
    destruct (Z.ltb_spec i (Z.of_nat (length bytes))) as [Hlt|Hge].
    + rewrite IH by lia. rewrite <- app_assoc. f_equal.
      unfold fromCharCode. rewrite <- map_app. f_equal. unfold subarray.
      destruct (Z.le_ge_cases (i + size) (Z.of_nat (length bytes)))
        as [Hin|Hout].
      * rewrite Z.min_l by lia.
        replace (Z.to_nat (i + size - i)) with (Z.to_nat size) by lia.
        replace (Z.to_nat (i + size))
          with (Z.to_nat size + Z.to_nat i)%nat by lia.
        rewrite <- skipn_skipn. apply firstn_skipn.
      * rewrite Z.min_r by lia.
        rewrite (skipn_all2 (n := Z.to_nat (i + size))) by lia.
        rewrite app_nil_r. apply firstn_all2. rewrite length_skipn. lia.
    + rewrite skipn_all2 by lia.
      cbn [fromCharCode map]. rewrite app_nil_r. reflexivity.
Qed.

Lemma fromCharCode_bytes (bytes : list Z) :
  isBytes bytes ->
  forallb (fun c => (c <=? 255)%N) (fromCharCode bytes) = true /\
  map Z.of_N (fromCharCode bytes) = bytes.
Proof.
  unfold isBytes, fromCharCode. induction 1 as [|b l Hb _ [IH1 IH2]].
  - split; reflexivity.
  - cbn [map forallb]. rewrite (Z.mod_small b 65536) by lia.
    rewrite IH1, IH2. rewrite Z2N.id by lia. split; [|reflexivity].
    rewrite andb_true_r. apply N.leb_le. lia.
Qed.

Lemma symbol_all :
  forallb (fun n =>
             let i := Z.of_nat n in
             match sextet (symbol i) with
             | Some j => (j =? i)%Z && negb (symbol i =? 61)%N
             | None => false
             end) (seq 0 64) = true.
Proof. vm_compute. reflexivity. Qed.

Lemma sextet_symbol (i : Z) :
  (0 <= i < 64)%Z ->
  sextet (symbol i) = Some i /\ (symbol i =? 61)%N = false.
Proof.
  intros H. pose proof symbol_all as A.
  rewrite forallb_forall in A.
  specialize (A (Z.to_nat i)). cbv zeta in A.
  rewrite Z2Nat.id in A by lia.
  assert (Hin : In (Z.to_nat i) (seq 0 64)) by (apply in_seq; lia).
  specialize (A Hin).
  destruct (sextet (symbol i)) as [j|]; [|discriminate A].
  apply andb_true_iff in A. destruct A as [A1 A2].
  apply Z.eqb_eq in A1. apply negb_true_iff in A2. subst j.
  split; [reflexivity|exact A2].
Qed.

Lemma decode_encode (n : nat) :
  forall bytes, (length bytes <= n)%nat -> isBytes bytes ->
                decodeGroups (encodeGroups bytes) = Some bytes.
Proof.
  induction n as [|n IH]; intros bytes Hlen Hb.
  - destruct bytes; [reflexivity|simpl in Hlen; lia].
  - destruct bytes as [|a [|b [|c r]]]; [reflexivity| | |].
    + inversion Hb as [|? ? Ha _]; subst.
      cbn [encodeGroups decodeGroups].
      destruct (sextet_symbol (a / 4)) as [-> _];
        [Z.div_mod_to_equations; lia|].
      destruct (sextet_symbol (a mod 4 * 16)) as [-> _];
        [Z.div_mod_to_equations; lia|].
      cbn [N.eqb Pos.eqb]. f_equal. f_equal.
      Z.div_mod_to_equations. lia.
    + inversion Hb as [|? ? Ha Hb1]; subst.
      inversion Hb1 as [|? ? Hb2 _]; subst.
      cbn [encodeGroups decodeGroups].
      destruct (sextet_symbol (a / 4)) as [-> _];
        [Z.div_mod_to_equations; lia|].
      destruct (sextet_symbol (a mod 4 * 16 + b / 16)) as [-> _];
        [Z.div_mod_to_equations; lia|].
      destruct (sextet_symbol (b mod 16 * 4)) as [-> ->];
        [Z.div_mod_to_equations; lia|].
      cbn [N.eqb Pos.eqb]. f_equal. f_equal; [|f_equal].
      * Z.div_mod_to_equations. lia.
      * Z.div_mod_to_equations. lia.
    + inversion Hb as [|? ? Ha Hb1]; subst.
      inversion Hb1 as [|? ? Hb2 Hb3]; subst.
      inversion Hb3 as [|? ? Hc Hr]; subst.
      cbn [encodeGroups decodeGroups].
      destruct (sextet_symbol (a / 4)) as [-> _];
        [Z.div_mod_to_equations; lia|].
      destruct (sextet_symbol (a mod 4 * 16 + b / 16)) as [-> _];
        [Z.div_mod_to_equations; lia|].
      destruct (sextet_symbol (b mod 16 * 4 + c / 64)) as [-> ->];
        [Z.div_mod_to_equations; lia|].
      destruct (sextet_symbol (c mod 64)) as [-> ->];
        [Z.div_mod_to_equations; lia|].
      rewrite IH by (try assumption; simpl in Hlen; lia).
      f_equal. f_equal; [|f_equal; [|f_equal]].
      * Z.div_mod_to_equations. lia.
      * Z.div_mod_to_equations. lia.
      * Z.div_mod_to_equations. lia.
Qed.

Lemma encode_length (n : nat) :
  forall bytes : list Z,
    (length bytes <= n)%nat ->
    length (encodeGroups bytes) = (4 * ((length bytes + 2) / 3))%nat.
Proof.
  induction n as [|n IH]; intros bytes Hlen.
  - destruct bytes; [reflexivity|simpl in Hlen; lia].
  - destruct bytes as [|a [|b [|c r]]]; try reflexivity.
    cbn [encodeGroups length]. rewrite IH by (simpl in Hlen; lia).
    replace (S (S (S (length r))) + 2)%nat
      with (1 * 3 + (length r + 2))%nat by lia.
    rewrite Nat.div_add_l by lia. lia.
Qed.

Lemma container_isBytes (n : Z) (channelData : list number) :
  isBytes (wavHeader n ++ flat_map sampleBytes channelData).
Proof.
  unfold isBytes. apply Forall_app. split.
  - unfold wavHeader, le32, le16, bytesOf. cbn [map js app].
    repeat (apply Forall_cons;
            [first [ apply Z.mod_pos_bound; lia | vm_compute; split;
                     [discriminate|reflexivity] ]|]).
    apply Forall_nil.
  - induction channelData as [|x xs IH]; [apply Forall_nil|].
    cbn [flat_map]. apply Forall_app. split; [|exact IH].
    unfold sampleBytes, le16.
    repeat (apply Forall_cons; [apply Z.mod_pos_bound; lia|]).
    apply Forall_nil.
Qed.

(** X20.  The transport encoding loses nothing: for any buffer of bytes the
    chunked conversion succeeds, the string it gives has four symbols for
    every three bytes (rounded up), and decoding that string gives the
    buffer back.  The chunk size plays no role in the result. *)
Theorem transport_encoding_faithful (buffer : list Z) :
  isBytes buffer ->
  exists encoded,
    arrayBufferToBase64 buffer = Some encoded /\
    decodeGroups encoded = Some buffer /\
    length encoded = (4 * ((length buffer + 2) / 3))%nat /\
    forall size : Z,
      (0 < size)%Z ->
      btoa (binaryLoop (S (length buffer)) buffer size 0 [])
      = Some encoded.
Proof.
  intros Hb. exists (encodeGroups buffer).
  destruct (fromCharCode_bytes buffer Hb) as [Hall Hmap].
  assert (Hloop : forall size : Z,
             (0 < size)%Z ->
             btoa (binaryLoop (S (length buffer)) buffer size 0 [])
             = Some (encodeGroups buffer)).
  { intros size Hs. rewrite binaryLoop_all by lia.
    cbn [Z.to_nat skipn app]. unfold btoa. rewrite Hall, Hmap.
    reflexivity. }
  split; [apply Hloop; reflexivity|].
  split; [apply (decode_encode (length buffer)); [lia|exact Hb]|].
  split; [apply (encode_length (length buffer)); lia|].
  exact Hloop.
Qed.

Lemma transport_encoding_faithful_witness :
  exists encoded,
    arrayBufferToBase64 [77; 97; 110; 255]%Z = Some encoded /\
    decodeGroups encoded = Some [77; 97; 110; 255]%Z.
Proof.
  destruct (transport_encoding_faithful [77; 97; 110; 255]%Z)
    as (encoded & E & D & _).
  - repeat constructor; discriminate.
  - exists encoded. split; [exact E|exact D].
Defined.

Lemma round_small (y : Q) :
  0 <= y -> y < 1 # 2 ->
  exists r, Binary64.round y = Fin r /\ 0 <= r /\ r < 1.
Proof.
  intros H0 H1.
  destruct (round_between y 1 H0 ltac:(change (inject_Z 1) with 1; lra)
              ltac:(lia)) as (r & E & R0 & _ & _ & _).
  exists r. split; [exact E|]. split; [exact R0|].
  destruct (Qle_lt_or_eq _ _ H0) as [Hp|Hz].
  - rewrite (round_pos y Hp) in E.
    destruct (roundPos_error y r E) as [D _].
    destruct (floorLog2_spec y Hp) as [L _].
    assert (T : (Binary64.floorLog2 y < 0)%Z).
    { apply pow2_lt_inv. change (2 ^ 0) with 1. lra. }
    assert (P : 2 ^ Binary64.exponent y <= 2 ^ 0).
    { apply pow2_le. unfold Binary64.exponent. lia. }
    change (2 ^ 0) with 1 in P.
    set (u := 2 ^ Binary64.exponent y) in *.
    assert (Hu : u / 2 <= 1 # 2).
    { setoid_replace (u / 2) with ((1 # 2) * u) by field. lra. }
    lra.
  - assert (Ez : y == 0) by (symmetry; exact Hz).
    rewrite (round_zero y Ez) in E. injection E as <-. reflexivity.
Qed.

(** X21.  The frame count asked of the offline context is the binary64
    product of the duration and 16000, cut to an integer, modulo 2^32.  The
    only failures of the audio extraction are the decoding error and the
    refusal of a frame count of 0: undecodable input gives the message
    about a valid format, a frame count of 0 gives the offline context's
    error, and every other clip gives a string that decodes to the
    container of the rendered samples.  A clip shorter than half a frame
    has frame count 0; a clip of 1 to 2^32 - 1 frames has the integer just
    below or just above [duration * 16000] as its frame count. *)
Theorem extraction_outcomes (AudioBuffer : Type)
    (duration : AudioBuffer -> Q)
    (render : AudioBuffer -> nat -> list number) (audio : AudioBuffer) :
  let frames := frameCount (duration audio) in
  extractAudioBase64 AudioBuffer duration render None
  = Throw (Error MSG_DECODE) /\
  (frames = 0%Z ->
   extractAudioBase64 AudioBuffer duration render (Some audio)
   = Throw NotSupportedError) /\
  (frames <> 0%Z ->
   exists encoded,
     extractAudioBase64 AudioBuffer duration render (Some audio)
     = Ok (Some encoded) /\
     decodeGroups encoded
     = Some (wavHeader
               (Z.of_nat (length (render audio (Z.to_nat frames))))
             ++ flat_map sampleBytes (render audio (Z.to_nat frames)))) /\
  (0 <= duration audio -> duration audio * 16000 < 1 # 2 ->
   frames = 0%Z) /\
  (1 <= duration audio * 16000 ->
   duration audio * 16000 <= 4294967295 ->
   (Qfloor (duration audio * 16000) <= frames
    <= Qceiling (duration audio * 16000))%Z /\ frames <> 0%Z).
Proof.
  intros frames.
  assert (Hlen : toUnsignedLong
                   (Binary64.mul (Fin (duration audio)) (of_Z 16000))
                 = frames) by reflexivity.
  split; [reflexivity|]. split; [|split; [|split]].
  - intros Hz. unfold extractAudioBase64, extractAudio.
    rewrite Hlen, Hz. reflexivity.
  - intros Hnz. unfold extractAudioBase64, extractAudio. rewrite Hlen.
    destruct (Z.eqb_spec frames 0) as [F|_]; [contradiction|].
    rewrite wavContainer_bytes. cbn [bind].
    set (bytes := wavHeader _ ++ _).
    assert (Hb : isBytes bytes) by apply container_isBytes.
    destruct (fromCharCode_bytes bytes Hb) as [Hall Hmap].
    exists (encodeGroups bytes). split.
    + unfold arrayBufferToBase64.
      rewrite binaryLoop_all by (unfold chunkSize; lia).
      cbn [Z.to_nat skipn app]. unfold btoa. rewrite Hall, Hmap.
      reflexivity.
    + apply (decode_encode (length bytes)); [lia|exact Hb].
  - intros H0 Hs.
    destruct (round_small (duration audio * 16000) ltac:(lra) Hs)
      as (r & E & R0 & R1).
    unfold frames, frameCount. rewrite E, (Qtrunc_floor r R0).
    assert (F : Qfloor r = 0%Z).
    { assert (L : (Qfloor 0 <= Qfloor r)%Z)
        by (apply Qfloor_resp_le; exact R0).
      assert (U : (Qfloor r < 1)%Z).
      { rewrite Zlt_Qlt. apply Qle_lt_trans with r; [apply Qfloor_le|].
        exact R1. }
      change (Qfloor 0) with 0%Z in L. lia. }
    rewrite F. reflexivity.
  - intros Hlo Hhi.
    destruct (frames_between (duration audio * 16000) Hlo Hhi)
      as (r & E & R0 & F1 & F2 & F3 & F4).
    assert (Ef : frames = Qfloor r).
    { unfold frames, frameCount. rewrite E, (Qtrunc_floor r R0).
      apply Z.mod_small. lia. }
    rewrite Ef. split; lia.
Qed.

Lemma extraction_outcomes_witness :
  exists encoded,
    extractAudioBase64 unit
      (fun _ => 5188146770730811 # 9223372036854775808)
      (fun _ n => repeat (Fin (1 # 2)) n) (Some tt)
    = Ok (Some encoded) /\
    decodeGroups encoded
    = Some (wavHeader 9 ++ flat_map sampleBytes (repeat (Fin (1 # 2)) 9)).
Proof.
  refine (proj1 (proj2 (proj2 (extraction_outcomes unit
                          (fun _ => 5188146770730811 # 9223372036854775808)
                          (fun _ n => repeat (Fin (1 # 2)) n) tt))) _).
  vm_compute. discriminate.
Defined.
